(** * next-typesafe-url: the route-segment parser/encoder and the value codec

    A shallow embedding of [packages/next-typesafe-url/src/utils.ts] and of
    [$path] from [src/index.ts], together with executable models of the
    ECMAScript built-ins these functions call ([String.prototype.slice],
    [encodeURIComponent], [decodeURIComponent], [JSON.stringify],
    [JSON.parse], [Number.prototype.toString]).

    Conventions of the model.
    - A JavaScript string is the list of its UTF-16 code units.
    - A JavaScript object is a plain object: the list of its own
      enumerable string-keyed properties in [Object.entries] order, with
      [Object.prototype] as its prototype.  The read [routeParams[name]]
      goes through the prototype ([read]).  The objects the functions
      build are read and written at their own properties ([get],
      [query_get], [Obj.set]); what is proved about them is stated for
      names that are not inherited from [Object.prototype].
    - A value is a finite tree, and a function has no body: what is proved
      about [JSON.stringify] is stated for values without [toJSON] method.
    - A thrown exception is the [Throw] branch of the [result] type.
    - A number is an exact decimal [(-1)^s * m * 10^e] (or NaN, or an
      infinity): the binary rounding of IEEE doubles is not modelled. *)

From Stdlib Require Import Ascii String.
From Stdlib Require Import List NArith ZArith Bool Lia DecimalN DecimalPos.
Import ListNotations.

Set Implicit Arguments.

(** ** Strings *)

Module JsString.

Definition char := N.
Definition jsstring := list char.

(** A literal: every character of the Rocq string is one code unit. *)
Definition js (s : string) : jsstring :=
  map N_of_ascii (list_ascii_of_string s).

Fixpoint eqb (a b : jsstring) : bool :=
  match a, b with
  | [], [] => true
  | c :: a', d :: b' => N.eqb c d && eqb a' b'
  | _, _ => false
  end.

(** [is_prefix p s]: [s.startsWith(p)]. *)
Fixpoint is_prefix (p s : jsstring) : bool :=
  match p, s with
  | [], _ => true
  | c :: p', d :: s' => N.eqb c d && is_prefix p' s'
  | _ :: _, [] => false
  end.

Definition startsWith (s p : jsstring) : bool := is_prefix p s.

Definition endsWith (s p : jsstring) : bool := is_prefix (rev p) (rev s).

Fixpoint includes (s p : jsstring) : bool :=
  is_prefix p s
  || match s with
     | [] => false
     | _ :: s' => includes s' p
     end.

(** [String.prototype.slice(start, end)] with its relative indices. *)
Definition slice (s : jsstring) (start end_ : Z) : jsstring :=
  let len := Z.of_nat (length s) in
  let from := if (start <? 0)%Z then Z.max (len + start) 0 else Z.min start len in
  let to := if (end_ <? 0)%Z then Z.max (len + end_) 0 else Z.min end_ len in
  firstn (Z.to_nat (to - from)) (skipn (Z.to_nat from) s).

(** [s.split(sep)] for a one-character separator. *)
Fixpoint split (sep : char) (s : jsstring) : list jsstring :=
  match s with
  | [] => [[]]
  | c :: s' =>
      if N.eqb c sep then [] :: split sep s'
      else match split sep s' with
           | [] => [[c]]
           | x :: xs => (c :: x) :: xs
           end
  end.

(** [l.join(sep)]. *)
Fixpoint join (sep : jsstring) (l : list jsstring) : jsstring :=
  match l with
  | [] => []
  | [x] => x
  | x :: xs => x ++ sep ++ join sep xs
  end.

End JsString.
Export JsString.

(** ** Segments (utils.ts, [parseSegment]) *)

Inductive SegmentType := static | dynamic | catchAll | optionalCatchAll.

Record Segment := mkSegment { type : SegmentType; value : jsstring }.

Definition parseSegment (segment : jsstring) : Segment :=
  if startsWith segment (js "[") && endsWith segment (js "]")
     && negb (includes segment (js "..."))
  then {| type := dynamic; value := slice segment 1 (-1) |}
  else if startsWith segment (js "[[") && endsWith segment (js "]]")
          && includes segment (js "...")
  then {| type := optionalCatchAll; value := slice segment 5 (-2) |}
  else if startsWith segment (js "[") && endsWith segment (js "]")
          && includes segment (js "...")
  then {| type := catchAll; value := slice segment 4 (-1) |}
  else {| type := static; value := segment |}.

(** The classifier as section 4.1 of the specification words it: the rules
    are tried in the order optional catch-all, catch-all, dynamic, static,
    and the name is the text left after the opening and closing delimiters
    are removed. *)
Definition strip (opening closing : nat) (s : jsstring) : jsstring :=
  rev (skipn closing (rev (skipn opening s))).

Definition classify (segment : jsstring) : Segment :=
  if startsWith segment (js "[[") && endsWith segment (js "]]")
     && includes segment (js "...")
  then {| type := optionalCatchAll; value := strip 5 2 segment |}
  else if startsWith segment (js "[") && endsWith segment (js "]")
          && includes segment (js "...")
  then {| type := catchAll; value := strip 4 1 segment |}
  else if startsWith segment (js "[") && endsWith segment (js "]")
          && negb (includes segment (js "..."))
  then {| type := dynamic; value := strip 1 1 segment |}
  else {| type := static; value := segment |}.

(** ** Exceptions *)

(** The two [Error]s of utils.ts and the built-in errors of the ECMAScript
    functions it calls.  [InvalidValue] is the [Error] thrown by
    [encodeValue]; [MissingDynamic] and [MissingCatchAll] are the two
    "Missing value for ... segment" [Error]s of [encodeAndFillRoute]. *)
Inductive error :=
| InvalidValue
| MissingDynamic (name : jsstring)
| MissingCatchAll (name : jsstring)
| URIError
| TypeError
| SyntaxError.

Definition isMissingRouteParam (e : error) : bool :=
  match e with
  | MissingDynamic _ | MissingCatchAll _ => true
  | _ => false
  end.

Inductive result (A : Type) :=
| Ok (a : A)
| Throw (e : error).

Arguments Ok {A} a.
Arguments Throw {A} e.

Definition bind {A B} (r : result A) (k : A -> result B) : result B :=
  match r with
  | Ok a => k a
  | Throw e => Throw e
  end.

Notation "x <- r ;; k" := (bind r (fun x => k))
  (at level 61, r at next level, right associativity).

(** [try { body } catch { handler }]. *)
Definition try_catch {A} (body : result A) (handler : result A) : result A :=
  match body with
  | Ok a => Ok a
  | Throw _ => handler
  end.

(** [l.map(f)] for an [f] that may throw. *)
Fixpoint mapM {A B} (f : A -> result B) (l : list A) : result (list B) :=
  match l with
  | [] => Ok []
  | a :: l' => b <- f a ;; bs <- mapM f l' ;; Ok (b :: bs)
  end.

(** ** Numbers *)

Module Num.

Inductive digit := d0 | d1 | d2 | d3 | d4 | d5 | d6 | d7 | d8 | d9.

Definition is_d0 (d : digit) : bool :=
  match d with d0 => true | _ => false end.

(** A finite number is [(-1)^negative * digits * 10^exponent], the digits
    read as a decimal numeral, most significant first, without leading
    and trailing zeros; zero has no digit and exponent 0. *)
Inductive number :=
| NaN
| Infinity (negative : bool)
| Finite (negative : bool) (digits : list digit) (exponent : Z).

Fixpoint strip_zeros (ds : list digit) : list digit :=
  match ds with
  | d0 :: ds' => strip_zeros ds'
  | _ => ds
  end.

Definition canonical (x : number) : bool :=
  match x with
  | Finite _ [] e => (e =? 0)%Z
  | Finite _ (d :: ds) _ =>
      negb (is_d0 d) && negb (is_d0 (last (d :: ds) d))
  | _ => true
  end.

(** The shape of the digits of a canonical number other than zero. *)
Definition significant (ds : list digit) : Prop :=
  exists d ds', ds = d :: ds' /\ is_d0 d = false
                /\ is_d0 (last (d :: ds') d) = false.

Definition digit_char (d : digit) : char :=
  match d with
  | d0 => 48 | d1 => 49 | d2 => 50 | d3 => 51 | d4 => 52
  | d5 => 53 | d6 => 54 | d7 => 55 | d8 => 56 | d9 => 57
  end%N.

Definition char_digit (c : char) : option digit :=
  match c with
  | 48 => Some d0 | 49 => Some d1 | 50 => Some d2 | 51 => Some d3
  | 52 => Some d4 | 53 => Some d5 | 54 => Some d6 | 55 => Some d7
  | 56 => Some d8 | 57 => Some d9 | _ => None
  end%N.

Fixpoint of_uint (u : Decimal.uint) : list digit :=
  match u with
  | Decimal.Nil => []
  | Decimal.D0 u => d0 :: of_uint u
  | Decimal.D1 u => d1 :: of_uint u
  | Decimal.D2 u => d2 :: of_uint u
  | Decimal.D3 u => d3 :: of_uint u
  | Decimal.D4 u => d4 :: of_uint u
  | Decimal.D5 u => d5 :: of_uint u
  | Decimal.D6 u => d6 :: of_uint u
  | Decimal.D7 u => d7 :: of_uint u
  | Decimal.D8 u => d8 :: of_uint u
  | Decimal.D9 u => d9 :: of_uint u
  end.

Fixpoint to_uint (ds : list digit) : Decimal.uint :=
  match ds with
  | [] => Decimal.Nil
  | d :: ds' =>
      let u := to_uint ds' in
      match d with
      | d0 => Decimal.D0 u | d1 => Decimal.D1 u | d2 => Decimal.D2 u
      | d3 => Decimal.D3 u | d4 => Decimal.D4 u | d5 => Decimal.D5 u
      | d6 => Decimal.D6 u | d7 => Decimal.D7 u | d8 => Decimal.D8 u
      | d9 => Decimal.D9 u
      end
  end.

(** The decimal numeral of a natural number, and back. *)
Definition nat_digits (n : N) : list digit := of_uint (N.to_uint n).
Definition digits_nat (ds : list digit) : N := N.of_uint (to_uint ds).

Definition digits_string (ds : list digit) : jsstring := map digit_char ds.

(** The exponent part of the scientific notation: ["e+21"], ["e-7"]. *)
Definition exponent_string (x : Z) : jsstring :=
  js "e" ++ (if (x <? 0)%Z then js "-" else js "+")
         ++ digits_string (nat_digits (Z.abs_N x)).

(** [Number::toString(x)], radix 10, on the digits [s] (there are [k] of
    them) and the exponent [n] of the specification, where the value is
    [s * 10^(n-k)]. *)
Definition toString_finite (ds : list digit) (e : Z) : jsstring :=
  let k := Z.of_nat (length ds) in
  let n := (k + e)%Z in
  if ((k <=? n) && (n <=? 21))%Z then
    digits_string ds ++ repeat 48%N (Z.to_nat (n - k))
  else if ((0 <? n) && (n <=? 21))%Z then
    digits_string (firstn (Z.to_nat n) ds) ++ js "."
      ++ digits_string (skipn (Z.to_nat n) ds)
  else if ((-6 <? n) && (n <=? 0))%Z then
    js "0." ++ repeat 48%N (Z.to_nat (- n)) ++ digits_string ds
  else
    match ds with
    | [d] => digits_string [d] ++ exponent_string (n - 1)
    | d :: ds' =>
        digits_string [d] ++ js "." ++ digits_string ds'
          ++ exponent_string (n - 1)
    | [] => []
    end.

Definition toString (x : number) : jsstring :=
  match x with
  | NaN => js "NaN"
  | Infinity false => js "Infinity"
  | Infinity true => js "-Infinity"
  | Finite _ [] _ => js "0"
  | Finite false ds e => toString_finite ds e
  | Finite true ds e => js "-" ++ toString_finite ds e
  end.

Definition isFinite (x : number) : bool :=
  match x with
  | Finite _ _ _ => true
  | _ => false
  end.

(** The value of a JSON number literal with integer digits [ip],
    fraction digits [fp] and exponent [ex]. *)
Definition of_literal (negative : bool) (ip fp : list digit) (ex : Z)
  : number :=
  let ds := strip_zeros (ip ++ fp) in
  let sd := strip_zeros (rev ds) in
  match sd with
  | [] => Finite negative [] 0
  | _ =>
      Finite negative (rev sd)
        (ex - Z.of_nat (length fp)
         + Z.of_nat (length ds) - Z.of_nat (length sd))
  end.

End Num.
Export Num.

(** ** [encodeURIComponent] and [decodeURIComponent] *)

Module URI.

Local Open Scope N_scope.

Definition is_high_surrogate (c : char) : bool :=
  (0xD800 <=? c) && (c <=? 0xDBFF).
Definition is_low_surrogate (c : char) : bool :=
  (0xDC00 <=? c) && (c <=? 0xDFFF).

Definition is_alpha (c : char) : bool :=
  ((65 <=? c) && (c <=? 90)) || ((97 <=? c) && (c <=? 122)).
Definition is_decimal_digit (c : char) : bool :=
  (48 <=? c) && (c <=? 57).

(** uriMark: [- _ . ! ~ * ' ( )]. *)
Definition is_mark (c : char) : bool :=
  (c =? 45) || (c =? 95) || (c =? 46) || (c =? 33) || (c =? 126)
  || (c =? 42) || (c =? 39) || (c =? 40) || (c =? 41).

(** The characters [encodeURIComponent] leaves alone. *)
Definition unreserved (c : char) : bool :=
  is_alpha c || is_decimal_digit c || is_mark c.

Definition hex_upper (n : N) : char :=
  if n <? 10 then 48 + n else 55 + n.

Definition hex_value (c : char) : option N :=
  if (48 <=? c) && (c <=? 57) then Some (c - 48)
  else if (65 <=? c) && (c <=? 70) then Some (c - 55)
  else if (97 <=? c) && (c <=? 102) then Some (c - 87)
  else None.

Definition percent (octet : N) : jsstring :=
  [37; hex_upper (octet / 16); hex_upper (octet mod 16)].

Definition utf8_encode (cp : N) : list N :=
  if cp <? 0x80 then [cp]
  else if cp <? 0x800 then [0xC0 + cp / 64; 0x80 + cp mod 64]
  else if cp <? 0x10000 then
    [0xE0 + cp / 4096; 0x80 + (cp / 64) mod 64; 0x80 + cp mod 64]
  else
    [0xF0 + cp / 262144; 0x80 + (cp / 4096) mod 64;
     0x80 + (cp / 64) mod 64; 0x80 + cp mod 64].

Definition pair_code_point (hi lo : char) : N :=
  (hi - 0xD800) * 0x400 + (lo - 0xDC00) + 0x10000.

Definition escape_code_point (cp : N) : jsstring :=
  flat_map percent (utf8_encode cp).

(** [Encode(string, unreserved)]: an unpaired surrogate throws. *)
Fixpoint encode (s : jsstring) : result jsstring :=
  match s with
  | [] => Ok []
  | c :: s' =>
      if unreserved c then
        r <- encode s' ;; Ok (c :: r)
      else if is_high_surrogate c then
        match s' with
        | d :: s'' =>
            if is_low_surrogate d then
              r <- encode s'' ;;
              Ok (escape_code_point (pair_code_point c d) ++ r)
            else Throw URIError
        | [] => Throw URIError
        end
      else if is_low_surrogate c then Throw URIError
      else
        r <- encode s' ;; Ok (escape_code_point c ++ r)
  end.

(** [IsStringWellFormedUnicode]: no surrogate stands alone. *)
Fixpoint well_formed (s : jsstring) : bool :=
  match s with
  | [] => true
  | c :: s' =>
      if is_high_surrogate c then
        match s' with
        | d :: s'' => is_low_surrogate d && well_formed s''
        | [] => false
        end
      else negb (is_low_surrogate c) && well_formed s'
  end.

(** A Unicode scalar value: a code point that is not a surrogate. *)
Definition scalar (cp : N) : Prop :=
  cp < 0x110000 /\ ~ (0xD800 <= cp <= 0xDFFF).

(** A code unit has sixteen bits. *)
Definition code_unit (c : char) : bool := c <? 65536.

Definition ascii_only (s : jsstring) : bool := forallb (fun c => c <? 128) s.

(** The characters of a percent-encoded token: the unreserved ones and
    the percent sign of an escape. *)
Definition percent_encoded (t : jsstring) : bool :=
  forallb (fun c => unreserved c || (c =? 37)) t.

Definition encodeURIComponent (s : jsstring) : result jsstring := encode s.

(** Decoding, first pass: the escapes [%XX] are read as octets. *)
Inductive item :=
| Lit (c : char)
| Oct (b : N).

Fixpoint items (s : jsstring) : result (list item) :=
  match s with
  | [] => Ok []
  | c :: s' =>
      if c =? 37 then
        match s' with
        | h :: l :: s'' =>
            match hex_value h, hex_value l with
            | Some x, Some y =>
                r <- items s'' ;; Ok (Oct (16 * x + y) :: r)
            | _, _ => Throw URIError
            end
        | _ => Throw URIError
        end
      else r <- items s' ;; Ok (Lit c :: r)
  end.

Definition is_continuation (b : N) : bool := (0x80 <=? b) && (b <=? 0xBF).

(** The well-formed UTF-8 sequences of two, three and four octets. *)
Definition utf8_decode2 (b c : N) : option N :=
  if (0xC2 <=? b) && (b <=? 0xDF) && is_continuation c
  then Some ((b - 0xC0) * 64 + (c - 0x80)) else None.

Definition utf8_decode3 (b c d : N) : option N :=
  if (0xE0 <=? b) && (b <=? 0xEF) && is_continuation c && is_continuation d
     && negb ((b =? 0xE0) && (c <? 0xA0))
     && negb ((b =? 0xED) && (0x9F <? c))
  then Some ((b - 0xE0) * 4096 + (c - 0x80) * 64 + (d - 0x80)) else None.

Definition utf8_decode4 (b c d e : N) : option N :=
  if (0xF0 <=? b) && (b <=? 0xF4)
     && is_continuation c && is_continuation d && is_continuation e
     && negb ((b =? 0xF0) && (c <? 0x90))
     && negb ((b =? 0xF4) && (0x8F <? c))
  then Some ((b - 0xF0) * 262144 + (c - 0x80) * 4096
             + (d - 0x80) * 64 + (e - 0x80))
  else None.

(** [UTF16EncodeCodePoint]. *)
Definition utf16_encode (cp : N) : jsstring :=
  if cp <? 0x10000 then [cp]
  else [0xD800 + (cp - 0x10000) / 0x400; 0xDC00 + (cp - 0x10000) mod 0x400].

(** Decoding, second pass: an octet below 128 is a character, a leading
    octet announces one to three further escapes, and the whole must be
    a well-formed UTF-8 sequence. *)
Fixpoint assemble (l : list item) : result jsstring :=
  match l with
  | [] => Ok []
  | Lit c :: l' => r <- assemble l' ;; Ok (c :: r)
  | Oct b :: l' =>
      if b <? 0x80 then r <- assemble l' ;; Ok (b :: r)
      else if b <? 0xC0 then Throw URIError
      else if b <? 0xE0 then
        match l' with
        | Oct c :: l2 =>
            match utf8_decode2 b c with
            | Some cp => r <- assemble l2 ;; Ok (utf16_encode cp ++ r)
            | None => Throw URIError
            end
        | _ => Throw URIError
        end
      else if b <? 0xF0 then
        match l' with
        | Oct c :: Oct d :: l3 =>
            match utf8_decode3 b c d with
            | Some cp => r <- assemble l3 ;; Ok (utf16_encode cp ++ r)
            | None => Throw URIError
            end
        | _ => Throw URIError
        end
      else if b <? 0xF8 then
        match l' with
        | Oct c :: Oct d :: Oct e :: l4 =>
            match utf8_decode4 b c d e with
            | Some cp => r <- assemble l4 ;; Ok (utf16_encode cp ++ r)
            | None => Throw URIError
            end
        | _ => Throw URIError
        end
      else Throw URIError
  end.

Definition decodeURIComponent (s : jsstring) : result jsstring :=
  l <- items s ;; assemble l.

End URI.
Export URI.

(** ** Values and objects *)

Unset Elimination Schemes.
Inductive jsval :=
| VUndefined
| VNull
| VBool (b : bool)
| VNumber (x : number)
| VString (s : jsstring)
| VArray (elements : list jsval)
| VObject (entries : list (jsstring * jsval))
| VFunction
| VSymbol
| VBigInt.
Set Elimination Schemes.

Module Obj.

Section Props.
Variable V : Type.

(** The own properties of an object, in [Object.entries] order. *)
Definition props := list (jsstring * V).

Definition keys (o : props) : list jsstring := map fst o.

Fixpoint lookup (o : props) (k : jsstring) : option V :=
  match o with
  | [] => None
  | (k', v) :: o' => if eqb k' k then Some v else lookup o' k
  end.

Definition has (o : props) (k : jsstring) : bool :=
  match lookup o k with
  | Some _ => true
  | None => false
  end.

(** An array index: the canonical numeral of an integer below
    [2^32 - 1]. *)
Definition array_index (k : jsstring) : option N :=
  match k with
  | [] => None
  | c :: r =>
      if forallb is_decimal_digit k
         && (negb (N.eqb c 48) || match r with [] => true | _ => false end)
      then
        let n := fold_left (fun a d => (a * 10 + (d - 48))%N) k 0%N in
        if (n <? 4294967295)%N then Some n else None
      else None
  end.

Fixpoint replace (o : props) (k : jsstring) (v : V) : props :=
  match o with
  | [] => []
  | (k', v') :: o' =>
      if eqb k' k then (k', v) :: o' else (k', v') :: replace o' k v
  end.

Fixpoint insert_index (o : props) (i : N) (k : jsstring) (v : V) : props :=
  match o with
  | [] => [(k, v)]
  | (k', v') :: o' =>
      match array_index k' with
      | Some j =>
          if (i <? j)%N then (k, v) :: o
          else (k', v') :: insert_index o' i k v
      | None => (k, v) :: o
      end
  end.

(** [o[k] = v] on an ordinary object: an existing property keeps its
    place, a new array index goes among the indices in ascending
    order, any other new key goes last. *)
Definition set (o : props) (k : jsstring) (v : V) : props :=
  if has o k then replace o k v
  else match array_index k with
       | Some i => insert_index o i k v
       | None => o ++ [(k, v)]
       end.

(** [{...target, ...source}] continued from [target]. *)
Definition spread (target source : props) : props :=
  fold_left (fun t kv => set t (fst kv) (snd kv)) source target.

End Props.

End Obj.

Definition object := Obj.props jsval.

(** The own property [k] of [o], [undefined] when there is none. *)
Definition get (o : object) (k : jsstring) : jsval :=
  match Obj.lookup o k with
  | Some v => v
  | None => VUndefined
  end.

(** The property names every object inherits from [Object.prototype]. *)
Definition inherited (k : jsstring) : bool :=
  existsb (eqb k)
    (map js ["constructor"; "hasOwnProperty"; "isPrototypeOf";
             "propertyIsEnumerable"; "toLocaleString"; "toString";
             "valueOf"; "__proto__"; "__defineGetter__";
             "__defineSetter__"; "__lookupGetter__";
             "__lookupSetter__"]%string).

(** What a plain object that has no own property [k] yields for [o[k]]:
    [__proto__] is [Object.prototype] itself, an object without enumerable
    property; the other inherited names are functions. *)
Definition prototype_value (k : jsstring) : jsval :=
  if eqb k (js "__proto__") then VObject []
  else if inherited k then VFunction
  else VUndefined.

(** [o[k]] on a plain object: the own property, or else the one found on
    [Object.prototype]. *)
Definition read (o : object) (k : jsstring) : jsval :=
  match Obj.lookup o k with
  | Some v => v
  | None => prototype_value k
  end.

(** A [BigInt] somewhere inside the value. *)
Fixpoint has_bigint (v : jsval) : bool :=
  match v with
  | VBigInt => true
  | VArray l => existsb has_bigint l
  | VObject o => existsb (fun kv => has_bigint (snd kv)) o
  | _ => false
  end.


(** Every string inside the value is made of sixteen-bit code units. *)
Fixpoint code_units (v : jsval) : bool :=
  match v with
  | VString s => forallb code_unit s
  | VArray l => forallb code_units l
  | VObject o =>
      forallb (fun kv => forallb code_unit (fst kv) && code_units (snd kv)) o
  | _ => true
  end.

(** ** [JSON.stringify] and [JSON.parse] *)

Module JSON.

Local Open Scope N_scope.

Definition hex_lower (n : N) : char :=
  if n <? 10 then 48 + n else 87 + n.

(** [UnicodeEscape]: a backslash, [u] and four lowercase hex digits. *)
Definition unicode_escape (c : char) : jsstring :=
  [92; 117; hex_lower (c / 4096); hex_lower ((c / 256) mod 16);
   hex_lower ((c / 16) mod 16); hex_lower (c mod 16)].

(** The two-character escapes of [QuoteJSONString]. *)
Definition short_escape (c : char) : option char :=
  if c =? 8 then Some 98            (* \b *)
  else if c =? 9 then Some 116      (* \t *)
  else if c =? 10 then Some 110     (* \n *)
  else if c =? 12 then Some 102     (* \f *)
  else if c =? 13 then Some 114     (* \r *)
  else if c =? 34 then Some 34      (* the double quote *)
  else if c =? 92 then Some 92      (* the backslash *)
  else None.

Fixpoint quote_body (s : jsstring) : jsstring :=
  match s with
  | [] => []
  | c :: s' =>
      match short_escape c with
      | Some x => 92 :: x :: quote_body s'
      | None =>
          if c <? 32 then unicode_escape c ++ quote_body s'
          else if is_high_surrogate c then
            match s' with
            | d :: s'' =>
                if is_low_surrogate d then c :: d :: quote_body s''
                else unicode_escape c ++ quote_body s'
            | [] => unicode_escape c
            end
          else if is_low_surrogate c then unicode_escape c ++ quote_body s'
          else c :: quote_body s'
      end
  end.

(** [QuoteJSONString]. *)
Definition quote (s : jsstring) : jsstring := 34 :: quote_body s ++ [34].

Definition or_null (p : option jsstring) : jsstring :=
  match p with
  | Some t => t
  | None => js "null"
  end.

(** [SerializeJSONProperty] without indentation, on a value without
    [toJSON] method: [None] is the [undefined] that drops a property or
    becomes [null] in an array. *)
Fixpoint serialize (v : jsval) : result (option jsstring) :=
  match v with
  | VNull => Ok (Some (js "null"))
  | VBool true => Ok (Some (js "true"))
  | VBool false => Ok (Some (js "false"))
  | VString s => Ok (Some (quote s))
  | VNumber x => Ok (Some (if isFinite x then toString x else js "null"))
  | VBigInt => Throw TypeError
  | VUndefined | VFunction | VSymbol => Ok None
  | VArray l =>
      parts <- (fix elements (l : list jsval) : result (list jsstring) :=
                  match l with
                  | [] => Ok []
                  | x :: l' =>
                      p <- serialize x ;;
                      ps <- elements l' ;;
                      Ok (or_null p :: ps)
                  end) l ;;
      Ok (Some (js "[" ++ join (js ",") parts ++ js "]"))
  | VObject o =>
      parts <- (fix members (o : list (jsstring * jsval))
                  : result (list jsstring) :=
                  match o with
                  | [] => Ok []
                  | (k, x) :: o' =>
                      p <- serialize x ;;
                      ps <- members o' ;;
                      Ok (match p with
                          | Some t => (quote k ++ js ":" ++ t) :: ps
                          | None => ps
                          end)
                  end) o ;;
      Ok (Some (js "{" ++ join (js ",") parts ++ js "}"))
  end.

Definition stringify (v : jsval) : result (option jsstring) := serialize v.

(** *** Parsing *)

Definition is_ws (c : char) : bool :=
  (c =? 9) || (c =? 10) || (c =? 13) || (c =? 32).

Fixpoint skip_ws (s : jsstring) : jsstring :=
  match s with
  | c :: s' => if is_ws c then skip_ws s' else s
  | [] => []
  end.

(** [strip_prefix p s]: what follows [p] in [s], when [s] starts with [p]. *)
Fixpoint strip_prefix (p s : jsstring) : option jsstring :=
  match p, s with
  | [], _ => Some s
  | c :: p', d :: s' => if c =? d then strip_prefix p' s' else None
  | _ :: _, [] => None
  end.

(** The character a two-character escape stands for. *)
Definition unescape (c : char) : option char :=
  if c =? 34 then Some 34
  else if c =? 92 then Some 92
  else if c =? 47 then Some 47
  else if c =? 98 then Some 8
  else if c =? 102 then Some 12
  else if c =? 110 then Some 10
  else if c =? 114 then Some 13
  else if c =? 116 then Some 9
  else None.

Definition hex4 (a b c d : char) : option char :=
  match hex_value a, hex_value b, hex_value c, hex_value d with
  | Some w, Some x, Some y, Some z => Some (((w * 16 + x) * 16 + y) * 16 + z)
  | _, _, _, _ => None
  end.

(** The characters of a string literal after its opening quote, up to
    and including the closing quote. *)
Fixpoint parse_string_body (s : jsstring) : option (jsstring * jsstring) :=
  match s with
  | [] => None
  | c :: s' =>
      if c =? 34 then Some ([], s')
      else if c =? 92 then
        match s' with
        | e :: s2 =>
            match unescape e with
            | Some x =>
                match parse_string_body s2 with
                | Some (r, rest) => Some (x :: r, rest)
                | None => None
                end
            | None =>
                if e =? 117 then
                  match s2 with
                  | h1 :: h2 :: h3 :: h4 :: s6 =>
                      match hex4 h1 h2 h3 h4 with
                      | Some x =>
                          match parse_string_body s6 with
                          | Some (r, rest) => Some (x :: r, rest)
                          | None => None
                          end
                      | None => None
                      end
                  | _ => None
                  end
                else None
            end
        | [] => None
        end
      else if c <? 32 then None
      else
        match parse_string_body s' with
        | Some (r, rest) => Some (c :: r, rest)
        | None => None
        end
  end.

(** One more character in front of a parsed string. *)
Definition consed (c : char) (r : option (jsstring * jsstring))
  : option (jsstring * jsstring) :=
  match r with
  | Some (s, rest) => Some (c :: s, rest)
  | None => None
  end.

Fixpoint take_digits (s : jsstring) : list digit * jsstring :=
  match s with
  | c :: s' =>
      match char_digit c with
      | Some d => let (ds, r) := take_digits s' in (d :: ds, r)
      | None => ([], s)
      end
  | [] => ([], [])
  end.

(** The fraction of a number literal: nothing, or a dot and at least one
    digit. *)
Definition parse_fraction (s : jsstring) : option (list digit * jsstring) :=
  match s with
  | c :: s' =>
      if c =? 46 then
        match take_digits s' with
        | ([], _) => None
        | (fp, r) => Some (fp, r)
        end
      else Some ([], s)
  | [] => Some ([], s)
  end.

(** The exponent of a number literal: nothing, or [e] or [E], an
    optional sign and at least one digit. *)
Definition parse_exponent (s : jsstring) : option (Z * jsstring) :=
  match s with
  | c :: s0 =>
      if (c =? 101) || (c =? 69) then
        let (negative, s1) :=
          match s0 with
          | d :: r =>
              if d =? 45 then (true, r)
              else if d =? 43 then (false, r)
              else (false, s0)
          | [] => (false, s0)
          end in
        match take_digits s1 with
        | ([], _) => None
        | (ds, r) =>
            let x := Z.of_N (digits_nat ds) in
            Some (if negative then (- x)%Z else x, r)
        end
      else Some (0%Z, s)
  | [] => Some (0%Z, s)
  end.

Definition parse_number (s : jsstring) : option (number * jsstring) :=
  let (negative, s1) :=
    match s with
    | c :: r => if c =? 45 then (true, r) else (false, s)
    | [] => (false, s)
    end in
  match take_digits s1 with
  | ([], _) => None
  | (d0 :: _ :: _, _) => None
  | (ip, s2) =>
      match parse_fraction s2 with
      | Some (fp, s3) =>
          match parse_exponent s3 with
          | Some (ex, s4) => Some (of_literal negative ip fp ex, s4)
          | None => None
          end
      | None => None
      end
  end.

(** [closing c s]: what follows the character [c] at the head of [s]. *)
Definition closing (c : char) (s : jsstring) : option jsstring :=
  match s with
  | d :: r => if d =? c then Some r else None
  | [] => None
  end.

(** A value, the elements of an array after its opening bracket, and the
    members of an object after its opening brace.  Every call spends one
    unit of [fuel]. *)
Fixpoint parse_value (fuel : nat) (s : jsstring) : option (jsval * jsstring) :=
  match fuel with
  | O => None
  | S fuel' =>
      match skip_ws s with
      | [] => None
      | c :: r =>
          if c =? 34 then
            match parse_string_body r with
            | Some (str, r') => Some (VString str, r')
            | None => None
            end
          else if c =? 91 then
            match closing 93 (skip_ws r) with
            | Some r' => Some (VArray [], r')
            | None =>
                match parse_elements fuel' r with
                | Some (vs, r') => Some (VArray vs, r')
                | None => None
                end
            end
          else if c =? 123 then
            match closing 125 (skip_ws r) with
            | Some r' => Some (VObject [], r')
            | None =>
                match parse_members fuel' r [] with
                | Some (o, r') => Some (VObject o, r')
                | None => None
                end
            end
          else
            match strip_prefix (js "null") (c :: r) with
            | Some r' => Some (VNull, r')
            | None =>
            match strip_prefix (js "true") (c :: r) with
            | Some r' => Some (VBool true, r')
            | None =>
            match strip_prefix (js "false") (c :: r) with
            | Some r' => Some (VBool false, r')
            | None =>
            match parse_number (c :: r) with
            | Some (x, r') => Some (VNumber x, r')
            | None => None
            end end end end
      end
  end
with parse_elements (fuel : nat) (s : jsstring)
  : option (list jsval * jsstring) :=
  match fuel with
  | O => None
  | S fuel' =>
      match parse_value fuel' s with
      | Some (v, r) =>
          match skip_ws r with
          | c :: r' =>
              if c =? 44 then
                match parse_elements fuel' r' with
                | Some (vs, r'') => Some (v :: vs, r'')
                | None => None
                end
              else if c =? 93 then Some ([v], r')
              else None
          | [] => None
          end
      | None => None
      end
  end
with parse_members (fuel : nat) (s : jsstring) (acc : object)
  : option (object * jsstring) :=
  match fuel with
  | O => None
  | S fuel' =>
      match closing 34 (skip_ws s) with
      | Some r =>
          match parse_string_body r with
          | Some (k, r1) =>
              match closing 58 (skip_ws r1) with
              | Some r2 =>
                  match parse_value fuel' r2 with
                  | Some (v, r3) =>
                      match skip_ws r3 with
                      | c :: r4 =>
                          if c =? 44
                          then parse_members fuel' r4 (Obj.set acc k v)
                          else if c =? 125 then Some (Obj.set acc k v, r4)
                          else None
                      | [] => None
                      end
                  | None => None
                  end
              | None => None
              end
          | None => None
          end
      | None => None
      end
  end.

(** One unfolding of each of the three parsers, over the parsers that
    have one unit of fuel less. *)
Definition value_step
  (elements : jsstring -> option (list jsval * jsstring))
  (members : jsstring -> object -> option (object * jsstring))
  (s : jsstring) : option (jsval * jsstring) :=
  match skip_ws s with
  | [] => None
  | c :: r =>
      if c =? 34 then
        match parse_string_body r with
        | Some (str, r') => Some (VString str, r')
        | None => None
        end
      else if c =? 91 then
        match closing 93 (skip_ws r) with
        | Some r' => Some (VArray [], r')
        | None =>
            match elements r with
            | Some (vs, r') => Some (VArray vs, r')
            | None => None
            end
        end
      else if c =? 123 then
        match closing 125 (skip_ws r) with
        | Some r' => Some (VObject [], r')
        | None =>
            match members r [] with
            | Some (o, r') => Some (VObject o, r')
            | None => None
            end
        end
      else
        match strip_prefix (js "null") (c :: r) with
        | Some r' => Some (VNull, r')
        | None =>
        match strip_prefix (js "true") (c :: r) with
        | Some r' => Some (VBool true, r')
        | None =>
        match strip_prefix (js "false") (c :: r) with
        | Some r' => Some (VBool false, r')
        | None =>
        match parse_number (c :: r) with
        | Some (x, r') => Some (VNumber x, r')
        | None => None
        end end end end
  end.

Definition elements_step
  (value_ : jsstring -> option (jsval * jsstring))
  (elements : jsstring -> option (list jsval * jsstring))
  (s : jsstring) : option (list jsval * jsstring) :=
  match value_ s with
  | Some (v, r) =>
      match skip_ws r with
      | c :: r' =>
          if c =? 44 then
            match elements r' with
            | Some (vs, r'') => Some (v :: vs, r'')
            | None => None
            end
          else if c =? 93 then Some ([v], r')
          else None
      | [] => None
      end
  | None => None
  end.

Definition members_step
  (value_ : jsstring -> option (jsval * jsstring))
  (members : jsstring -> object -> option (object * jsstring))
  (s : jsstring) (acc : object) : option (object * jsstring) :=
  match closing 34 (skip_ws s) with
  | Some r =>
      match parse_string_body r with
      | Some (k, r1) =>
          match closing 58 (skip_ws r1) with
          | Some r2 =>
              match value_ r2 with
              | Some (v, r3) =>
                  match skip_ws r3 with
                  | c :: r4 =>
                      if c =? 44 then members r4 (Obj.set acc k v)
                      else if c =? 125 then Some (Obj.set acc k v, r4)
                      else None
                  | [] => None
                  end
              | None => None
              end
          | None => None
          end
      | None => None
      end
  | None => None
  end.

(** What may follow a value inside a JSON text: nothing, a comma, a
    closing bracket or a closing brace. *)
Definition delimited (rest : jsstring) : bool :=
  match rest with
  | [] => true
  | c :: _ => (c =? 44) || (c =? 93) || (c =? 125)
  end.

(** The first character of the text of a value. *)
Definition text_head (c : char) : Prop :=
  c = 34 \/ c = 91 \/ c = 123 \/ c = 110 \/ c = 116 \/ c = 102
  \/ c = 45 \/ 48 <= c <= 57.

(** The text does not go on with a digit. *)
Definition no_digit_head (rest : jsstring) : bool :=
  match rest with
  | [] => true
  | c :: _ =>
      match char_digit c with
      | Some _ => false
      | None => true
      end
  end.

(** [JSON.parse(text)]: one value between optional white space. *)
Definition parse (text : jsstring) : result jsval :=
  match parse_value (S (length text)) text with
  | Some (v, rest) =>
      match skip_ws rest with
      | [] => Ok v
      | _ => Throw SyntaxError
      end
  | None => Throw SyntaxError
  end.

End JSON.

(** ** JSON-compatible values *)

(** The finite numbers in canonical form, negative zero excepted. *)
Definition json_number (x : number) : bool :=
  match x with
  | Finite negative ds _ =>
      canonical x
      && negb (negative && match ds with [] => true | _ => false end)
  | _ => false
  end.

Fixpoint keys_eqb (a b : list jsstring) : bool :=
  match a, b with
  | [], [] => true
  | x :: a', y :: b' => eqb x y && keys_eqb a' b'
  | _, _ => false
  end.

(** The properties are listed in the order of an ordinary object:
    assigning them one by one to an empty object gives the same list. *)
Definition property_order (o : object) : bool :=
  keys_eqb (Obj.keys (Obj.spread [] o)) (Obj.keys o).

(** The values that [JSON.parse] can return, as the model holds them:
    strings of code units, canonical finite numbers, properties in order. *)
Fixpoint json_compatible (v : jsval) : bool :=
  match v with
  | VNull | VBool _ => true
  | VNumber x => json_number x
  | VString s => forallb code_unit s
  | VArray l => forallb json_compatible l
  | VObject o =>
      forallb (fun kv => forallb code_unit (fst kv) && json_compatible (snd kv)) o
      && property_order o
  | _ => false
  end.

(** The text of a JSON-compatible value parses back to the value, with
    fuel for the length of the text, whatever delimiter follows. *)
Definition parses_back (v : jsval) : Prop :=
  json_compatible v = true ->
  exists text,
    JSON.serialize v = Ok (Some text)
    /\ (exists c t, text = c :: t /\ JSON.text_head c)
    /\ forall fuel rest,
        (length text <= fuel)%nat -> JSON.delimited rest = true ->
        JSON.parse_value fuel (text ++ rest) = Some (v, rest).

(** ** utils.ts *)

(** [encodeValue]: strings go out unquoted, numbers and booleans through
    their [toString], arrays, objects and [null] through [JSON.stringify]. *)
Definition encodeValue (value : jsval) : result jsstring :=
  match value with
  | VString (c :: s) => encodeURIComponent (c :: s)
  | VNumber x => encodeURIComponent (toString x)
  | VBool b => encodeURIComponent (if b then js "true" else js "false")
  | VArray _ | VObject _ | VNull =>
      t <- JSON.stringify value ;;
      encodeURIComponent (match t with
                          | Some text => text
                          | None => js "undefined"
                          end)
  | VString [] | VUndefined | VFunction | VSymbol | VBigInt =>
      Throw InvalidValue
  end.



Definition param (kv : jsstring * jsval) : result jsstring :=
  let (key, value) := kv in
  match value with
  | VUndefined => Ok key
  | _ => e <- encodeValue value ;; Ok (key ++ js "=" ++ e)
  end.

Definition generateParamStringFromSearchParamObj (obj : object)
  : result jsstring :=
  params <- mapM param obj ;;
  let finalString := js "?" ++ join (js "&") params in
  Ok (if eqb finalString (js "?") then [] else finalString).

Definition safeJSONParse (value : option jsstring) : result jsval :=
  match value with
  | None => Ok VUndefined
  | Some value =>
      try_catch (text <- decodeURIComponent value ;; JSON.parse text)
                (Ok (VString value))
  end.

(** What the host router hands over for one key:
    [string | string[] | undefined]. *)
Inductive raw :=
| RUndefined
| RString (s : jsstring)
| RStrings (l : list jsstring).

Definition parseOrMapParse (obj : raw) : result jsval :=
  match obj with
  | RStrings l => vs <- mapM (fun s => safeJSONParse (Some s)) l ;; Ok (VArray vs)
  | RString s => safeJSONParse (Some s)
  | RUndefined => safeJSONParse None
  end.

Definition query_object := Obj.props raw.

(** [query[name]]. *)
Definition query_get (query : query_object) (name : jsstring) : raw :=
  match Obj.lookup query name with
  | Some r => r
  | None => RUndefined
  end.

Fixpoint parseTopLevelObject_from (obj : query_object) (result_ : object)
  : result object :=
  match obj with
  | [] => Ok result_
  | (key, value) :: obj' =>
      v <- parseOrMapParse value ;;
      parseTopLevelObject_from obj' (Obj.set result_ key v)
  end.

Definition parseTopLevelObject (obj : query_object) : result object :=
  parseTopLevelObject_from obj [].

Definition is_dynamic_segment (segment : jsstring) : bool :=
  startsWith segment (js "[") && endsWith segment (js "]")
  && negb (includes segment (js "...")).

Definition is_optionalCatchAll_segment (segment : jsstring) : bool :=
  startsWith segment (js "[[") && endsWith segment (js "]]")
  && includes segment (js "...").

Definition is_catchAll_segment (segment : jsstring) : bool :=
  startsWith segment (js "[") && endsWith segment (js "]")
  && includes segment (js "...").

(** No bracket rule of the classifier applies to the segment. *)
Definition no_bracket_rule (s : jsstring) : bool :=
  negb (is_optionalCatchAll_segment s) && negb (is_catchAll_segment s)
  && negb (is_dynamic_segment s).

(** The value [parseOrMapParse] returns, and the wrapping of a decoded
    catch-all value: [Array.isArray(result) ? result : [result]]. *)
Definition parsed (obj : raw) : jsval :=
  match parseOrMapParse obj with
  | Ok v => v
  | Throw _ => VUndefined
  end.

Definition wrap (result_ : jsval) : jsval :=
  match result_ with
  | VArray _ => result_
  | _ => VArray [result_]
  end.

(** The loop over [allCatchAllNames]. *)
Fixpoint parseCatchAll (query : query_object) (names : list jsstring)
  (parsedCatchAll : object) : result object :=
  match names with
  | [] => Ok parsedCatchAll
  | name :: names' =>
      let value := query_get query name in
      result_ <- parseOrMapParse value ;;
      parseCatchAll query names'
        (Obj.set parsedCatchAll name
           (match result_ with
            | VArray _ => result_
            | _ => VArray [result_]
            end))
  end.

(** The loop over [dynamicParamNames]. *)
Fixpoint parseNonCatchAll (query : query_object) (names : list jsstring)
  (parsedNonCatchAll : object) : result object :=
  match names with
  | [] => Ok parsedNonCatchAll
  | name :: names' =>
      let value := query_get query name in
      v <- parseOrMapParse value ;;
      parseNonCatchAll query names' (Obj.set parsedNonCatchAll name v)
  end.

Definition dynamicParamNames (segments : list jsstring) : list jsstring :=
  map (fun segment => slice segment 1 (-1)) (filter is_dynamic_segment segments).

Definition optionalCatchAllParamNames (segments : list jsstring)
  : list jsstring :=
  map (fun segment => slice segment 5 (-2))
      (filter is_optionalCatchAll_segment segments).

Definition catchAllParamNames (segments : list jsstring) : list jsstring :=
  map (fun segment => slice segment 4 (-1)) (filter is_catchAll_segment segments).

Definition getDynamicRouteParams (path : jsstring) (query : query_object)
  : result object :=
  let segments := split 47%N path in
  let allCatchAllNames :=
    optionalCatchAllParamNames segments ++ catchAllParamNames segments in
  parsedCatchAll <- parseCatchAll query allCatchAllNames [] ;;
  parsedNonCatchAll <- parseNonCatchAll query (dynamicParamNames segments) [] ;;
  Ok (Obj.spread (Obj.spread [] parsedNonCatchAll) parsedCatchAll).

(** One turn of the loop of [encodeAndFillRoute]: the parts a segment
    pushes. *)
Definition fillSegment (routeParams : object) (segment : Segment)
  : result (list jsstring) :=
  match type segment with
  | static => Ok [value segment]
  | dynamic =>
      match read routeParams (value segment) with
      | VUndefined => Throw (MissingDynamic (value segment))
      | paramValue => e <- encodeValue paramValue ;; Ok [e]
      end
  | catchAll =>
      match read routeParams (value segment) with
      | VArray l => mapM encodeValue l
      | VUndefined => Throw (MissingCatchAll (value segment))
      | paramValue => e <- encodeValue paramValue ;; Ok [e]
      end
  | optionalCatchAll =>
      match read routeParams (value segment) with
      | VArray l => mapM encodeValue l
      | VUndefined => Ok []
      | paramValue => e <- encodeValue paramValue ;; Ok [e]
      end
  end.

(** A dynamic or catch-all segment whose parameter reads as [undefined] in
    [routeParams]. *)
Definition missing (routeParams : object) (segment : Segment) : bool :=
  match type segment, read routeParams (value segment) with
  | (dynamic | catchAll), VUndefined => true
  | _, _ => false
  end.

Fixpoint fillSegments (routeParams : object) (parsed : list Segment)
  (parts : list jsstring) : result (list jsstring) :=
  match parsed with
  | [] => Ok parts
  | segment :: parsed' =>
      pushed <- fillSegment routeParams segment ;;
      fillSegments routeParams parsed' (parts ++ pushed)
  end.

Definition encodeAndFillRoute (route : jsstring) (routeParams : object)
  : result jsstring :=
  let segments := split 47%N route in
  let parsed := map parseSegment segments in
  parts <- fillSegments routeParams parsed [] ;;
  Ok (join (js "/") parts).

(** ** index.ts *)

(** [$path({ route, searchParams, routeParams })]; an option that is left
    out is [None]. *)
Definition dollar_path (route : jsstring)
  (searchParams routeParams : option object) : result jsstring :=
  match searchParams, routeParams with
  | Some searchParams, Some routeParams =>
      searchString <- generateParamStringFromSearchParamObj searchParams ;;
      routeString <- encodeAndFillRoute route routeParams ;;
      Ok (routeString ++ searchString)
  | None, Some routeParams => encodeAndFillRoute route routeParams
  | Some searchParams, None =>
      searchString <- generateParamStringFromSearchParamObj searchParams ;;
      Ok (route ++ searchString)
  | None, None => Ok route
  end.

(** ** utils.ts, the query decoders *)

(** A [URLSearchParams]: its list of name-value pairs, in [forEach] order. *)
Definition url_params := list (jsstring * jsstring).

(** [query_get] and [Obj.set] read and write own properties.  With a name
    inherited from [Object.prototype], [result[key]] reads the inherited
    value and an assignment to [__proto__] creates no property, so what is
    proved about an object built by [result[key] = ...] is stated for the
    names that are not inherited. *)

(** No name of the search parameters is an inherited one. *)
Definition own_names (params : url_params) : bool :=
  forallb (fun kv => negb (inherited (fst kv))) params.

(** No key of the object is an inherited name. *)
Definition own_keys (V : Type) (o : Obj.props V) : bool :=
  forallb (fun kv => negb (inherited (fst kv))) o.

(** One call of the [forEach] callback of [handleSearchParamMultipleKeys]:
    an array is pushed to, a non-empty string becomes a pair, and anything
    falsy (no value yet, or the empty string) is overwritten. *)
Definition multipleKeys_step (result_ : query_object)
  (kv : jsstring * jsstring) : query_object :=
  let (key, value) := kv in
  match query_get result_ key with
  | RStrings l => Obj.set result_ key (RStrings (l ++ [value]))
  | RString (c :: s) => Obj.set result_ key (RStrings [c :: s; value])
  | RString [] | RUndefined => Obj.set result_ key (RString value)
  end.

Definition handleSearchParamMultipleKeys (urlParams : url_params)
  : query_object :=
  fold_left multipleKeys_step urlParams [].

Definition parseObjectFromReadonlyURLParams (params : url_params)
  : result object :=
  parseTopLevelObject (handleSearchParamMultipleKeys params).

Definition parseObjectFromUseParams (params : query_object) : result object :=
  parseTopLevelObject params.

(** The values given to a key, in order. *)
Definition values_of (key : jsstring) (params : url_params) : list jsstring :=
  map snd (filter (fun kv => eqb (fst kv) key) params).

Fixpoint drop_empty (l : list jsstring) : list jsstring :=
  match l with
  | [] :: l' => drop_empty l'
  | _ => l
  end.

(** What [handleSearchParamMultipleKeys] keeps of the values of one key:
    the empty strings in front are lost. *)
Definition collapse (l : list jsstring) : raw :=
  match l with
  | [] => RUndefined
  | _ :: _ =>
      match drop_empty l with
      | [] => RString []
      | [x] => RString x
      | xs => RStrings xs
      end
  end.

(** The state of one key after one more value. *)
Definition absorb (state : raw) (value : jsstring) : raw :=
  match state with
  | RStrings l => RStrings (l ++ [value])
  | RString (c :: s) => RStrings [c :: s; value]
  | RString [] | RUndefined => RString value
  end.

(** The same keys in the same order, every value through [g]. *)
Definition map_values (V W : Type) (g : V -> W) (o : Obj.props V)
  : Obj.props W :=
  map (fun kv => (fst kv, g (snd kv))) o.

(** The keys of a query object are listed in the order of an ordinary
    object. *)
Definition query_order (q : query_object) : bool :=
  keys_eqb (Obj.keys (Obj.spread [] q)) (Obj.keys q).

(** The values [handleSearchParamMultipleKeys] can bind a key to: a string,
    or an array of two strings or more that starts with a non-empty one. *)
Definition collapsed (r : raw) : bool :=
  match r with
  | RString _ => true
  | RStrings ((_ :: _) :: _ :: _) => true
  | _ => false
  end.

(** ** utils.ts, the parts of a filled route *)

(** The parts that the segments of a pattern push, segment by segment. *)
Definition pushes (routeParams : object) (segments : list jsstring)
  (pushed : list (list jsstring)) : Prop :=
  Forall2 (fun segment parts =>
             fillSegment routeParams (parseSegment segment) = Ok parts)
          segments pushed.

(** The pattern has static and dynamic segments only. *)
Definition no_catchAll (segments : list jsstring) : bool :=
  forallb (fun segment =>
             match type (parseSegment segment) with
             | static | dynamic => true
             | _ => false
             end) segments.

(** The pattern has static segments only. *)
Definition all_static (segments : list jsstring) : bool :=
  forallb no_bracket_rule segments.

(** ** index.ts, the characters of a path *)


(** ** utils.ts, the names [getDynamicRouteParams] reads *)

Definition allParamNames (segments : list jsstring) : list jsstring :=
  optionalCatchAllParamNames segments ++ catchAllParamNames segments
  ++ dynamicParamNames segments.

(** No parameter name that [getDynamicRouteParams] collects from the path
    is a name inherited from [Object.prototype]. *)
Definition own_params (path : jsstring) : bool :=
  forallb (fun name => negb (inherited name))
          (allParamNames (split 47%N path)).

(** ** [URLSearchParams] *)

(** [new URLSearchParams(init)] for a string [init], after the URL and
    Encoding standards: the string is converted to scalar values (a lone
    surrogate becomes U+FFFD), a leading question mark is removed, the rest
    is encoded in UTF-8 and parsed as [application/x-www-form-urlencoded]:
    split at the ampersands, each non-empty piece split at its first equals
    sign, plus signs turned into spaces, percent escapes decoded where they
    are well formed and left alone where not, and the bytes decoded as
    UTF-8 with U+FFFD in place of every malformed sequence. *)
Module URLSearchParams.

Local Open Scope N_scope.

(** The conversion to a [USVString]. *)
Fixpoint scalar_values (s : jsstring) : list N :=
  match s with
  | [] => []
  | c :: s' =>
      if is_high_surrogate c then
        match s' with
        | d :: s'' =>
            if is_low_surrogate d
            then pair_code_point c d :: scalar_values s''
            else 0xFFFD :: scalar_values s'
        | [] => [0xFFFD]
        end
      else if is_low_surrogate c then 0xFFFD :: scalar_values s'
      else c :: scalar_values s'
  end.

(** UTF-8 encode. *)
Definition utf8_encode_string (cps : list N) : list N :=
  flat_map utf8_encode cps.

(** Percent-decode a byte sequence. *)
Fixpoint percent_decode (input : list N) : list N :=
  match input with
  | [] => []
  | byte :: rest =>
      if byte =? 0x25 then
        match rest with
        | h :: l :: rest' =>
            match hex_value h, hex_value l with
            | Some x, Some y => (16 * x + y) :: percent_decode rest'
            | _, _ => byte :: percent_decode rest
            end
        | _ => byte :: percent_decode rest
        end
      else byte :: percent_decode rest
  end.

(** The state of the UTF-8 decoder. *)
Record decoder := mkDecoder {
  code_point : N;
  bytes_seen : N;
  bytes_needed : N;
  lower_boundary : N;
  upper_boundary : N
}.

Definition initial : decoder :=
  {| code_point := 0; bytes_seen := 0; bytes_needed := 0;
     lower_boundary := 0x80; upper_boundary := 0xBF |}.

(** The handler on a byte when no byte is needed: the next state and the
    code points emitted. *)
Definition lead (byte : N) : decoder * list N :=
  if byte <=? 0x7F then (initial, [byte])
  else if (0xC2 <=? byte) && (byte <=? 0xDF) then
    ({| code_point := N.land byte 0x1F; bytes_seen := 0; bytes_needed := 1;
        lower_boundary := 0x80; upper_boundary := 0xBF |}, [])
  else if (0xE0 <=? byte) && (byte <=? 0xEF) then
    ({| code_point := N.land byte 0xF; bytes_seen := 0; bytes_needed := 2;
        lower_boundary := if byte =? 0xE0 then 0xA0 else 0x80;
        upper_boundary := if byte =? 0xED then 0x9F else 0xBF |}, [])
  else if (0xF0 <=? byte) && (byte <=? 0xF4) then
    ({| code_point := N.land byte 0x7; bytes_seen := 0; bytes_needed := 3;
        lower_boundary := if byte =? 0xF0 then 0x90 else 0x80;
        upper_boundary := if byte =? 0xF4 then 0x8F else 0xBF |}, [])
  else (initial, [0xFFFD]).

(** The handler on a byte: a byte outside the boundaries ends the sequence
    with an error and is read again from the initial state. *)
Definition handler (st : decoder) (byte : N) : decoder * list N :=
  if bytes_needed st =? 0 then lead byte
  else if negb ((lower_boundary st <=? byte) && (byte <=? upper_boundary st))
  then let (st', out) := lead byte in (st', 0xFFFD :: out)
  else
    let cp := N.lor (N.shiftl (code_point st) 6) (N.land byte 0x3F) in
    if bytes_seen st + 1 =? bytes_needed st then (initial, [cp])
    else ({| code_point := cp; bytes_seen := bytes_seen st + 1;
             bytes_needed := bytes_needed st;
             lower_boundary := 0x80; upper_boundary := 0xBF |}, []).

(** The decoder run to the end of the bytes, with replacement. *)
Fixpoint run (st : decoder) (bytes : list N) : list N :=
  match bytes with
  | [] => if bytes_needed st =? 0 then [] else [0xFFFD]
  | byte :: bytes' =>
      let (st', out) := handler st byte in out ++ run st' bytes'
  end.

(** UTF-8 decode without BOM, to a JavaScript string. *)
Definition utf8_decode (bytes : list N) : jsstring :=
  flat_map utf16_encode (run initial bytes).

(** The bytes before the first [=] and the bytes after it. *)
Fixpoint name_value (bytes : list N) : list N * list N :=
  match bytes with
  | [] => ([], [])
  | byte :: bytes' =>
      if byte =? 0x3D then ([], bytes')
      else let (name, value) := name_value bytes' in (byte :: name, value)
  end.

Definition plus_to_space (bytes : list N) : list N :=
  map (fun byte => if byte =? 0x2B then 0x20 else byte) bytes.

Definition decode_string (bytes : list N) : jsstring :=
  utf8_decode (percent_decode (plus_to_space bytes)).

(** The [application/x-www-form-urlencoded] parser. *)
Definition parse (input : list N) : list (jsstring * jsstring) :=
  flat_map
    (fun bytes =>
       match bytes with
       | [] => []
       | _ :: _ =>
           let (name, value) := name_value bytes in
           [(decode_string name, decode_string value)]
       end)
    (split 0x26 input).

Definition of_string (init : jsstring) : list (jsstring * jsstring) :=
  let init := scalar_values init in
  let init := match init with
              | c :: rest => if c =? 0x3F then rest else init
              | [] => init
              end in
  parse (utf8_encode_string init).

End URLSearchParams.

Definition parseObjectFromParamString (paramString : jsstring)
  : result object :=
  let params := URLSearchParams.of_string paramString in
  let handledParams := handleSearchParamMultipleKeys params in
  parseTopLevelObject handledParams.

(** The token of one scalar value under [encodeURIComponent]. *)
Definition token (cp : N) : jsstring :=
  if unreserved cp then [cp] else escape_code_point cp.

(** ** The query string read back *)

(** The text [encodeValue] hands to [encodeURIComponent]. *)
Definition plain_text (value : jsval) : result jsstring :=
  match value with
  | VString (c :: s) => Ok (c :: s)
  | VNumber x => Ok (toString x)
  | VBool b => Ok (if b then js "true" else js "false")
  | VArray _ | VObject _ | VNull =>
      t <- JSON.stringify value ;;
      Ok (match t with
          | Some text => text
          | None => js "undefined"
          end)
  | _ => Throw InvalidValue
  end.

(** What the search parameters hold for a property of the object: the
    text of its value, and the empty string when the value is
    [undefined]. *)
Definition param_text (value : jsval) : jsstring :=
  match value with
  | VUndefined => []
  | _ => match plain_text value with
         | Ok text => text
         | Throw _ => []
         end
  end.

(** The characters that a key must not hold to be read back as it is:
    [% & + =]. *)
Definition special (c : char) : bool :=
  (c =? 37)%N || (c =? 38)%N || (c =? 43)%N || (c =? 61)%N.

(** The keys that are read back as they are: not empty, well formed,
    without special character, and not an inherited name. *)
Definition safe_key (k : jsstring) : bool :=
  match k with
  | [] => false
  | _ :: _ =>
      well_formed k && forallb code_unit k
      && forallb (fun c => negb (special c)) k
      && negb (inherited k)
  end.

(** A string is the bytes of its UTF-8 encoding. *)
Definition utf8 (s : jsstring) : list N :=
  URLSearchParams.utf8_encode_string (URLSearchParams.scalar_values s).

(** The name-value pair of one piece of the input of the form parser. *)
Definition entry (bytes : list N) : list (jsstring * jsstring) :=
  match bytes with
  | [] => []
  | _ :: _ =>
      let (name, value) := URLSearchParams.name_value bytes in
      [(URLSearchParams.decode_string name,
        URLSearchParams.decode_string value)]
  end.

(** What [URLSearchParams] holds for the properties of an object. *)
Definition search_params (obj : object) : url_params :=
  map (fun kv => (fst kv, param_text (snd kv))) obj.

(** The value read back for a property of the object: what [safeJSONParse]
    returns for the text of the value. *)
Definition read_back (value : jsval) : jsval :=
  parsed (RString (param_text value)).

Definition no_percent (s : jsstring) : bool :=
  forallb (fun c => negb (c =? 37)%N) s.

(** No string inside the value, and no key, holds a percent sign. *)
Fixpoint percent_free (value : jsval) : bool :=
  match value with
  | VString s => no_percent s
  | VArray l => forallb percent_free l
  | VObject o =>
      forallb (fun kv => no_percent (fst kv) && percent_free (snd kv)) o
  | _ => true
  end.

(** The values that come back from the query string as they are: the
    JSON-compatible values other than strings in which no string holds a
    percent sign, and the non-empty well-formed strings that are not, once
    percent-decoded, a JSON text. *)
Definition round_trips (value : jsval) : bool :=
  json_compatible value
  && match value with
     | VString [] => false
     | VString s =>
         well_formed s
         && match (text <- decodeURIComponent s ;; JSON.parse text) with
            | Ok _ => false
            | Throw _ => true
            end
     | _ => percent_free value
     end.

(** * Properties *)

(** ** Strings *)

Section Strings.

Lemma eqb_eq (a b : jsstring) : eqb a b = true <-> a = b.
Proof.
  revert b. induction a as [|c a IH]; intros [|d b]; simpl;
    try (split; [discriminate|discriminate]); [tauto|].
  rewrite andb_true_iff, N.eqb_eq, IH.
  split; [intros [-> ->]; reflexivity|intros [= -> ->]; auto].
Qed.

Lemma eqb_refl (a : jsstring) : eqb a a = true.
Proof. now apply eqb_eq. Qed.

Lemma eqb_neq (a b : jsstring) : eqb a b = false <-> a <> b.
Proof.
  rewrite <- eqb_eq. destruct (eqb a b); split; congruence.
Qed.

Lemma is_prefix_iff (p s : jsstring) :
  is_prefix p s = true <-> exists r, s = p ++ r.
Proof.
  revert s. induction p as [|c p IH]; intros s; simpl.
  - split; [intros _; now exists s|reflexivity].
  - destruct s as [|d s].
    + split; [discriminate|intros [r [=]]].
    + rewrite andb_true_iff, N.eqb_eq, IH. split.
      * intros [-> [r ->]]. now exists r.
      * intros [r [= -> ->]]. split; [reflexivity|now exists r].
Qed.

Lemma startsWith_iff (s p : jsstring) :
  startsWith s p = true <-> exists r, s = p ++ r.
Proof. apply is_prefix_iff. Qed.

Lemma endsWith_iff (s p : jsstring) :
  endsWith s p = true <-> exists r, s = r ++ p.
Proof.
  unfold endsWith. rewrite is_prefix_iff. split.
  - intros [r H]. exists (rev r).
    rewrite <- (rev_involutive s), H, rev_app_distr, rev_involutive.
    reflexivity.
  - intros [r ->]. exists (rev r). apply rev_app_distr.
Qed.

Lemma includes_iff (s p : jsstring) :
  includes s p = true <-> exists a b, s = a ++ p ++ b.
Proof.
  induction s as [|c s IH].
  - simpl. rewrite orb_false_r, is_prefix_iff. split.
    + intros [r H]. now exists [], r.
    + intros [a [b H]]. destruct a; [now exists b|discriminate].
  - cbn [includes]. rewrite orb_true_iff, is_prefix_iff, IH. split.
    + intros [[r H]|[a [b H]]].
      * now exists [], r.
      * exists (c :: a), b. now rewrite H.
    + intros [[|d a] [b H]].
      * left. now exists b.
      * right. injection H as _ H. now exists a, b.
Qed.

Lemma split_nonempty (sep : char) (s : jsstring) : split sep s <> [].
Proof.
  destruct s as [|c s]; simpl; [discriminate|].
  destruct (N.eqb c sep); [discriminate|].
  destruct (split sep s); discriminate.
Qed.

End Strings.

(** ** The segment classifier *)

Section Classifier.

Lemma strip_firstn (a b : nat) (s : jsstring) :
  strip a b s = firstn (length s - a - b) (skipn a s).
Proof.
  unfold strip.
  rewrite skipn_rev, rev_involutive, length_skipn.
  reflexivity.
Qed.

(** [slice(a, -b)] removes [a] code units in front and [b] behind. *)
Lemma slice_strip (a b : nat) (s : jsstring) :
  (0 < b)%nat ->
  slice s (Z.of_nat a) (- Z.of_nat b) = strip a b s.
Proof.
  intros Hb. rewrite strip_firstn. unfold slice.
  destruct (Z.ltb_spec (Z.of_nat a) 0) as [Ha|_]; [lia|].
  destruct (Z.ltb_spec (- Z.of_nat b) 0) as [_|Hb']; [|lia].
  destruct (Nat.le_gt_cases a (length s)) as [Hle|Hgt].
  - replace (Z.to_nat (Z.min (Z.of_nat a) (Z.of_nat (length s)))) with a by lia.
    f_equal. lia.
  - rewrite !skipn_all2 by lia. now rewrite !firstn_nil.
Qed.

Lemma strip_length (a b : nat) (s : jsstring) :
  length (strip a b s) = (length s - a - b)%nat.
Proof.
  rewrite strip_firstn, length_firstn, length_skipn. lia.
Qed.

Lemma strip_app (p name q : jsstring) :
  strip (length p) (length q) (p ++ name ++ q) = name.
Proof.
  rewrite strip_firstn, skipn_app, skipn_all, Nat.sub_diag. simpl.
  rewrite !length_app.
  replace (length p + (length name + length q) - length p - length q)%nat
    with (length name + 0)%nat by lia.
  rewrite firstn_app_2. simpl. apply app_nil_r.
Qed.

Ltac slices :=
  change 1%Z with (Z.of_nat 1); change 4%Z with (Z.of_nat 4);
  change 5%Z with (Z.of_nat 5);
  change (-1)%Z with (- Z.of_nat 1)%Z; change (-2)%Z with (- Z.of_nat 2)%Z;
  rewrite !slice_strip by lia.

Ltac tests s :=
  destruct (startsWith s (js "[")), (endsWith s (js "]")),
    (includes s (js "...")), (startsWith s (js "[[")),
    (endsWith s (js "]]")).

Lemma parseSegment_classify (s : jsstring) : parseSegment s = classify s.
Proof.
  unfold parseSegment, classify. slices. tests s; reflexivity.
Qed.

Lemma parseSegment_static (s : jsstring) :
  no_bracket_rule s = true ->
  parseSegment s = {| type := static; value := s |}.
Proof.
  unfold no_bracket_rule, is_optionalCatchAll_segment, is_catchAll_segment,
    is_dynamic_segment, parseSegment.
  tests s; simpl; congruence.
Qed.

Lemma parseSegment_static_iff (s : jsstring) :
  type (parseSegment s) = static <-> no_bracket_rule s = true.
Proof.
  unfold no_bracket_rule, is_optionalCatchAll_segment, is_catchAll_segment,
    is_dynamic_segment, parseSegment.
  tests s; simpl; split; congruence.
Qed.

(** The three kinds of bracketed segment in terms of the filters of
    [getDynamicRouteParams]. *)
Lemma parseSegment_dynamic (s : jsstring) :
  type (parseSegment s) = dynamic <-> is_dynamic_segment s = true.
Proof.
  unfold is_dynamic_segment, parseSegment.
  tests s; simpl; split; congruence.
Qed.

Lemma parseSegment_optionalCatchAll (s : jsstring) :
  type (parseSegment s) = optionalCatchAll
  <-> is_optionalCatchAll_segment s = true.
Proof.
  unfold is_optionalCatchAll_segment, parseSegment.
  tests s; simpl; split; congruence.
Qed.

Lemma parseSegment_catchAll (s : jsstring) :
  type (parseSegment s) = catchAll
  <-> is_catchAll_segment s = true /\ is_optionalCatchAll_segment s = false.
Proof.
  unfold is_catchAll_segment, is_optionalCatchAll_segment, parseSegment.
  tests s; simpl; intuition congruence.
Qed.

Lemma parseSegment_value (s : jsstring) :
  value (parseSegment s) =
    match type (parseSegment s) with
    | static => s
    | dynamic => strip 1 1 s
    | catchAll => strip 4 1 s
    | optionalCatchAll => strip 5 2 s
    end.
Proof.
  unfold parseSegment. slices. tests s; reflexivity.
Qed.

Lemma includes_dots (a b : jsstring) :
  includes (a ++ js "..." ++ b) (js "...") = true.
Proof. apply includes_iff. now exists a, b. Qed.

Lemma endsWith_app (a p : jsstring) : endsWith (a ++ p) p = true.
Proof. apply endsWith_iff. now exists a. Qed.

Lemma parseSegment_optional_name (name : jsstring) :
  parseSegment (js "[[..." ++ name ++ js "]]")
  = {| type := optionalCatchAll; value := name |}.
Proof.
  pose proof (includes_dots (js "[[") (name ++ js "]]")) as Hi.
  pose proof (endsWith_app (js "[[..." ++ name) (js "]]")) as He.
  rewrite <- app_assoc in He.
  unfold parseSegment. slices.
  change (js "[[" ++ js "..." ++ name ++ js "]]")
    with (js "[[..." ++ name ++ js "]]") in Hi.
  rewrite Hi, He. rewrite !andb_false_r. cbn [negb andb].
  replace (startsWith (js "[[..." ++ name ++ js "]]") (js "[[")) with true
    by reflexivity.
  cbn [andb]. f_equal. apply (strip_app (js "[[...") name (js "]]")).
Qed.

Lemma parseSegment_catchAll_name (name : jsstring) :
  parseSegment (js "[..." ++ name ++ js "]")
  = {| type := catchAll; value := name |}.
Proof.
  pose proof (includes_dots (js "[") (name ++ js "]")) as Hi.
  pose proof (endsWith_app (js "[..." ++ name) (js "]")) as He.
  rewrite <- app_assoc in He.
  unfold parseSegment. slices.
  change (js "[" ++ js "..." ++ name ++ js "]")
    with (js "[..." ++ name ++ js "]") in Hi.
  rewrite Hi, He. rewrite !andb_false_r. cbn [negb andb].
  replace (startsWith (js "[..." ++ name ++ js "]") (js "[[")) with false
    by reflexivity.
  replace (startsWith (js "[..." ++ name ++ js "]") (js "[")) with true
    by reflexivity.
  cbn [andb]. f_equal. apply (strip_app (js "[...") name (js "]")).
Qed.

End Classifier.

(** C7. [parseSegment] is total and agrees on every string with the
    classifier of section 4.1, whose rules are tried in the order optional
    catch-all, catch-all, dynamic, static; a segment is static, and then
    returned verbatim, exactly when no bracket rule applies; the name of a
    segment written [[[...name]]] or [[...name]] is [name]; and the four
    documented examples hold. *)
Theorem C7_classify_total :
  (forall s, parseSegment s = classify s)
  /\ (forall s, type (parseSegment s) = static <-> no_bracket_rule s = true)
  /\ (forall s, type (parseSegment s) = static -> value (parseSegment s) = s)
  /\ (forall name, parseSegment (js "[[..." ++ name ++ js "]]")
                   = {| type := optionalCatchAll; value := name |})
  /\ (forall name, parseSegment (js "[..." ++ name ++ js "]")
                   = {| type := catchAll; value := name |})
  /\ parseSegment (js "foo") = {| type := static; value := js "foo" |}
  /\ parseSegment (js "[id]") = {| type := dynamic; value := js "id" |}
  /\ parseSegment (js "[...ids]") = {| type := catchAll; value := js "ids" |}
  /\ parseSegment (js "[[...ids]]")
     = {| type := optionalCatchAll; value := js "ids" |}.
Proof.
  split; [exact parseSegment_classify|].
  split; [exact parseSegment_static_iff|].
  split.
  { intros s H. apply parseSegment_static_iff in H.
    now rewrite (parseSegment_static s H). }
  split; [exact parseSegment_optional_name|].
  split; [exact parseSegment_catchAll_name|].
  repeat split; reflexivity.
Qed.

(** ** Names of bracketed segments *)

Section Names.

Lemma head_app_neq (c d : char) (r a t : jsstring) :
  c <> d -> c :: r = a ++ d :: t ->
  exists a', a = c :: a' /\ r = a' ++ d :: t.
Proof.
  intros Hne H. destruct a as [|x a]; simpl in H.
  - congruence.
  - injection H as -> ->. now exists a.
Qed.

Lemma tail_app_neq (c d : char) (r t b : jsstring) :
  c <> d -> r ++ [c] = t ++ d :: b ->
  exists b', b = b' ++ [c] /\ r = t ++ d :: b'.
Proof.
  intros Hne H. apply (f_equal (@rev _)) in H.
  rewrite !rev_app_distr in H. simpl in H. rewrite <- app_assoc in H.
  simpl in H. apply head_app_neq in H as [a' [Hb Hr]]; [|assumption].
  exists (rev a'). split.
  - rewrite <- (rev_involutive b), Hb. reflexivity.
  - rewrite <- (rev_involutive r), Hr, rev_app_distr. simpl.
    rewrite rev_involutive, <- app_assoc. reflexivity.
Qed.

Lemma bracketed_length (s : jsstring) :
  startsWith s (js "[") = true -> endsWith s (js "]") = true ->
  (2 <= length s)%nat /\ (length s = 2%nat -> s = js "[]").
Proof.
  intros [r ->]%startsWith_iff [q H]%endsWith_iff.
  change (js "[" ++ r) with (91%N :: r) in *.
  destruct q as [|x q]; [discriminate|].
  injection H as <- ->. rewrite length_cons, length_app. simpl.
  split; [lia|]. intros Hl. destruct q; [reflexivity|simpl in Hl; lia].
Qed.

Lemma catchAll_length (s : jsstring) :
  startsWith s (js "[") = true -> endsWith s (js "]") = true ->
  includes s (js "...") = true ->
  (5 <= length s)%nat /\ (length s = 5%nat -> s = js "[...]").
Proof.
  intros [r ->]%startsWith_iff [q Hq]%endsWith_iff
         [a [b Hi]]%includes_iff.
  change (js "[" ++ r) with (91%N :: r) in *.
  change (js "..." ++ b) with (46%N :: 46%N :: 46%N :: b) in Hi.
  apply head_app_neq in Hi as [a' [-> ->]]; [|discriminate].
  assert (Hq' : q ++ [93%N] = (91%N :: a' ++ [46%N; 46%N]) ++ 46%N :: b).
  { change [93%N] with (js "]"). rewrite <- Hq. simpl.
    now rewrite <- app_assoc. }
  apply tail_app_neq in Hq' as [b' [-> _]]; [|discriminate].
  rewrite length_cons, !length_app. simpl. rewrite length_app. simpl.
  split; [lia|]. intros Hl.
  destruct a'; [|simpl in Hl; lia]. destruct b'; [|simpl in Hl; lia].
  reflexivity.
Qed.

Lemma optionalCatchAll_length (s : jsstring) :
  startsWith s (js "[[") = true -> endsWith s (js "]]") = true ->
  includes s (js "...") = true ->
  (7 <= length s)%nat /\ (length s = 7%nat -> s = js "[[...]]").
Proof.
  intros [r ->]%startsWith_iff [q Hq]%endsWith_iff
         [a [b Hi]]%includes_iff.
  change (js "[[" ++ r) with (91%N :: 91%N :: r) in *.
  change (js "..." ++ b) with (46%N :: 46%N :: 46%N :: b) in Hi.
  apply head_app_neq in Hi as [a1 [-> Hi]]; [|discriminate].
  apply head_app_neq in Hi as [a2 [-> ->]]; [|discriminate].
  assert (Hq' : (q ++ [93%N]) ++ [93%N]
                = (91%N :: 91%N :: a2 ++ [46%N; 46%N]) ++ 46%N :: b).
  { rewrite <- app_assoc. change ([93%N] ++ [93%N]) with (js "]]").
    rewrite <- Hq. simpl. now rewrite <- app_assoc. }
  apply tail_app_neq in Hq' as [b1 [-> Hq']]; [|discriminate].
  apply tail_app_neq in Hq' as [b2 [-> _]]; [|discriminate].
  rewrite !length_cons, !length_app. simpl. rewrite !length_app. simpl.
  split; [lia|]. intros Hl.
  destruct a2; [|simpl in Hl; lia]. destruct b2; [|simpl in Hl; lia].
  reflexivity.
Qed.

Lemma strip_nil (a b : nat) (s : jsstring) :
  (a + b <= length s)%nat -> strip a b s = [] -> length s = (a + b)%nat.
Proof.
  intros Hle H. apply (f_equal (@length _)) in H.
  rewrite strip_length in H. simpl in H. lia.
Qed.

Lemma empty_name (s : jsstring) :
  type (parseSegment s) <> static ->
  value (parseSegment s) = []
  <-> s = js "[]" \/ s = js "[...]" \/ s = js "[[...]]".
Proof.
  intros Hns. split.
  - rewrite parseSegment_value.
    destruct (type (parseSegment s)) eqn:Ht; [congruence| | |].
    + apply parseSegment_dynamic in Ht. unfold is_dynamic_segment in Ht.
      apply andb_prop in Ht as [[H1 H2]%andb_prop _].
      destruct (bracketed_length s H1 H2) as [Hl Hs].
      intros H%strip_nil; [|simpl; lia]. left. now apply Hs.
    + apply parseSegment_catchAll in Ht as [Ht _].
      unfold is_catchAll_segment in Ht.
      apply andb_prop in Ht as [[H1 H2]%andb_prop H3].
      destruct (catchAll_length s H1 H2 H3) as [Hl Hs].
      intros H%strip_nil; [|simpl; lia]. right; left. now apply Hs.
    + apply parseSegment_optionalCatchAll in Ht.
      unfold is_optionalCatchAll_segment in Ht.
      apply andb_prop in Ht as [[H1 H2]%andb_prop H3].
      destruct (optionalCatchAll_length s H1 H2 H3) as [Hl Hs].
      intros H%strip_nil; [|simpl; lia]. right; right. now apply Hs.
  - intros [->|[->| ->]]; reflexivity.
Qed.

End Names.

(** C9 (as stated, refuted).  The segment ["[]"] is classified as dynamic
    and its name is the empty string; likewise ["[...]"] and ["[[...]]"]. *)
Lemma C9_empty_name_counterexample :
  parseSegment (js "[]") = {| type := dynamic; value := [] |}
  /\ parseSegment (js "[...]") = {| type := catchAll; value := [] |}
  /\ parseSegment (js "[[...]]") = {| type := optionalCatchAll; value := [] |}.
Proof. repeat split; reflexivity. Qed.

(** C9 (amended).  For every string classified as dynamic, catch-all or
    optional catch-all, the extracted name is empty exactly when the
    segment consists of the bracket delimiters alone, that is, when it is
    ["[]"], ["[...]"] or ["[[...]]"]; for every other bracketed segment the
    name is non-empty. *)
Theorem C9_name_nonempty_unless_bare (s : jsstring) :
  type (parseSegment s) <> static ->
  value (parseSegment s) = []
  <-> s = js "[]" \/ s = js "[...]" \/ s = js "[[...]]".
Proof. apply empty_name. Qed.

Lemma C9_name_nonempty_witness :
  value (parseSegment (js "[id]")) = []
  <-> js "[id]" = js "[]" \/ js "[id]" = js "[...]" \/ js "[id]" = js "[[...]]".
Proof.
  apply (C9_name_nonempty_unless_bare (js "[id]")).
  simpl. discriminate.
Defined.

(** ** Values *)

Section ValueInduction.

Variable P : jsval -> Prop.
Hypothesis Hundefined : P VUndefined.
Hypothesis Hnull : P VNull.
Hypothesis Hbool : forall b, P (VBool b).
Hypothesis Hnumber : forall x, P (VNumber x).
Hypothesis Hstring : forall s, P (VString s).
Hypothesis Harray : forall l, Forall P l -> P (VArray l).
Hypothesis Hobject :
  forall o, Forall (fun kv => P (snd kv)) o -> P (VObject o).
Hypothesis Hfunction : P VFunction.
Hypothesis Hsymbol : P VSymbol.
Hypothesis Hbigint : P VBigInt.

Fixpoint jsval_ind (v : jsval) : P v :=
  match v with
  | VUndefined => Hundefined
  | VNull => Hnull
  | VBool b => Hbool b
  | VNumber x => Hnumber x
  | VString s => Hstring s
  | VArray l =>
      Harray ((fix all (l : list jsval) : Forall P l :=
                 match l with
                 | [] => Forall_nil _
                 | x :: l' => Forall_cons x (jsval_ind x) (all l')
                 end) l)
  | VObject o =>
      Hobject ((fix all (o : list (jsstring * jsval))
                  : Forall (fun kv => P (snd kv)) o :=
                  match o with
                  | [] => Forall_nil _
                  | kv :: o' => Forall_cons kv (jsval_ind (snd kv)) (all o')
                  end) o)
  | VFunction => Hfunction
  | VSymbol => Hsymbol
  | VBigInt => Hbigint
  end.

End ValueInduction.

(** ** What can be thrown *)

Section Thrown.

Lemma bind_throw {A B} (r : result A) (k : A -> result B) (e : error) :
  bind r k = Throw e ->
  r = Throw e \/ exists a, r = Ok a /\ k a = Throw e.
Proof. destruct r as [a|e']; simpl; [right; now exists a|left; congruence]. Qed.

Lemma bind_ok {A B} (r : result A) (k : A -> result B) (b : B) :
  bind r k = Ok b -> exists a, r = Ok a /\ k a = Ok b.
Proof. destruct r as [a|e']; simpl; [now exists a|discriminate]. Qed.

Lemma encode_throws (s : jsstring) (e : error) :
  URI.encode s = Throw e -> e = URIError.
Proof.
  revert e. induction s as [s IH] using (induction_ltof1 _ (@length _)).
  unfold ltof in IH. intros e. destruct s as [|c s]; simpl; [discriminate|].
  destruct (unreserved c).
  { intros [H|[a [_ H]]]%bind_throw; [|discriminate].
    apply IH in H; simpl; auto. }
  destruct (is_high_surrogate c).
  { destruct s as [|d s]; [congruence|].
    destruct (is_low_surrogate d); [|congruence].
    intros [H|[a [_ H]]]%bind_throw; [|discriminate].
    apply IH in H; simpl; auto. }
  destruct (is_low_surrogate c); [congruence|].
  intros [H|[a [_ H]]]%bind_throw; [|discriminate].
  apply IH in H; simpl; auto.
Qed.

Lemma serialize_throws (v : jsval) (e : error) :
  JSON.serialize v = Throw e -> e = TypeError.
Proof.
  revert e. induction v as [| |b|x|s|l IH|o IH| | |] using jsval_ind;
    intros e; simpl; try discriminate; try congruence.
  - destruct b; discriminate.
  - intros [H|[a [_ H]]]%bind_throw; [|discriminate].
    revert e H. induction IH as [|x l Hx _ IHl]; intros e; [discriminate|].
    intros [H|[p [_ H]]]%bind_throw; [now apply Hx|].
    apply bind_throw in H as [H|[ps [_ H]]]; [now apply IHl|discriminate].
  - intros [H|[a [_ H]]]%bind_throw; [|discriminate].
    revert e H. induction IH as [|[k x] o Hx _ IHo]; intros e; [discriminate|].
    intros [H|[p [_ H]]]%bind_throw; [now apply Hx|].
    apply bind_throw in H as [H|[ps [_ H]]]; [now apply IHo|discriminate].
Qed.

Lemma encodeValue_throws (v : jsval) (e : error) :
  encodeValue v = Throw e ->
  e = InvalidValue \/ e = URIError \/ e = TypeError.
Proof.
  assert (Hs : forall w, (t <- JSON.stringify w ;;
                          encodeURIComponent (match t with
                                              | Some text => text
                                              | None => js "undefined"
                                              end)) = Throw e ->
                         e = InvalidValue \/ e = URIError \/ e = TypeError).
  { intros w [H|[a [_ H]]]%bind_throw;
      [apply serialize_throws in H|apply encode_throws in H]; auto. }
  destruct v as [| |b|x|[|c s]|l|o| | |]; unfold encodeValue;
    try apply Hs;
    try (intros H; injection H as <-; auto; fail);
    intros H%encode_throws; auto.
Qed.

Lemma mapM_throws {A B} (f : A -> result B) (l : list A) (e : error) :
  mapM f l = Throw e -> exists a, In a l /\ f a = Throw e.
Proof.
  induction l as [|a l IH]; simpl; [discriminate|].
  intros [H|[b [_ H]]]%bind_throw; [exists a; auto|].
  apply bind_throw in H as [H|[bs [_ H]]]; [|discriminate].
  destruct (IH H) as [a' [? ?]]. exists a'; auto.
Qed.

Lemma generateParamString_throws (obj : object) (e : error) :
  generateParamStringFromSearchParamObj obj = Throw e ->
  e = InvalidValue \/ e = URIError \/ e = TypeError.
Proof.
  unfold generateParamStringFromSearchParamObj.
  intros [H|[a [_ H]]]%bind_throw; [|discriminate].
  apply mapM_throws in H as [[k v] [_ H]]. unfold param in H.
  destruct v; try discriminate;
    (apply bind_throw in H as [H|[a [_ H]]];
     [now apply encodeValue_throws in H|discriminate]).
Qed.

End Thrown.

(** C10. Without [routeParams], [$path] returns the route pattern verbatim,
    followed by the query string when [searchParams] is supplied: no
    segment is classified or filled, so a pattern with dynamic or catch-all
    segments comes back unchanged and an error, if any, is never about a
    missing route parameter. *)
Theorem C10_path_without_routeParams :
  (forall route, dollar_path route None None = Ok route)
  /\ (forall route searchParams,
        dollar_path route (Some searchParams) None
        = (searchString <- generateParamStringFromSearchParamObj searchParams ;;
           Ok (route ++ searchString)))
  /\ (forall route searchParams e,
        dollar_path route searchParams None = Throw e ->
        isMissingRouteParam e = false)
  /\ dollar_path (js "/product/[productID]/[...rest]") None None
     = Ok (js "/product/[productID]/[...rest]")
  /\ dollar_path (js "/product/[productID]")
       (Some [(js "bar", VBool true)]) None
     = Ok (js "/product/[productID]?bar=true").
Proof.
  split; [reflexivity|]. split; [reflexivity|]. split.
  - intros route [sp|] e; simpl; [|discriminate].
    intros [H|[a [_ H]]]%bind_throw; [|discriminate].
    apply generateParamString_throws in H as [->|[->| ->]]; reflexivity.
  - split; reflexivity.
Qed.

(** C2.  The code at the documented example: the key whose value is
    [undefined] is emitted as a bare key, so the result is ["/?foo&bar=true"]
    and not the documented ["/?bar=true"]. *)
Theorem C2_undefined_key_emitted_bare :
  dollar_path (js "/")
    (Some [(js "foo", VUndefined); (js "bar", VBool true)]) None
  = Ok (js "/?foo&bar=true")
  /\ generateParamStringFromSearchParamObj [(js "foo", VUndefined)]
     = Ok (js "?foo").
Proof. split; reflexivity. Qed.

Lemma safeJSONParse_cases (t : jsstring) :
  safeJSONParse (Some t)
  = match decodeURIComponent t with
    | Ok text =>
        match JSON.parse text with
        | Ok v => Ok v
        | Throw _ => Ok (VString t)
        end
    | Throw _ => Ok (VString t)
    end.
Proof.
  unfold safeJSONParse, try_catch, bind.
  destruct (decodeURIComponent t) as [text|e]; [|reflexivity].
  destruct (JSON.parse text); reflexivity.
Qed.

(** C3 (as stated, refuted).  The token ["hello%20world"] percent-decodes
    to ["hello world"], which is not JSON, and the result is the token
    itself, still percent-encoded. *)
Lemma C3_raw_token_counterexample :
  decodeURIComponent (js "hello%20world") = Ok (js "hello world")
  /\ JSON.parse (js "hello world") = Throw SyntaxError
  /\ safeJSONParse (Some (js "hello%20world"))
     = Ok (VString (js "hello%20world"))
  /\ js "hello%20world" <> js "hello world".
Proof. repeat split; try reflexivity. discriminate. Qed.

(** C3 (amended).  For every defined token [t], [safeJSONParse] first
    percent-decodes [t] and then attempts a JSON parse of the decoded text;
    when the percent-decoding or the parse fails, the result is exactly
    the token [t] as it was passed in, not its percent-decoded form. *)
Theorem C3_decode_then_parse_else_token (t : jsstring) :
  safeJSONParse (Some t)
  = match decodeURIComponent t with
    | Ok text =>
        match JSON.parse text with
        | Ok v => Ok v
        | Throw _ => Ok (VString t)
        end
    | Throw _ => Ok (VString t)
    end.
Proof. apply safeJSONParse_cases. Qed.

Section NeverRaises.

Lemma safeJSONParse_ok (value : option jsstring) :
  exists v, safeJSONParse value = Ok v.
Proof.
  destruct value as [t|]; [|now exists VUndefined].
  rewrite safeJSONParse_cases.
  destruct (decodeURIComponent t) as [text|e]; [|now eexists].
  destruct (JSON.parse text); now eexists.
Qed.

End NeverRaises.

Section NeverRaisesMore.

Lemma mapM_total {A B} (f : A -> result B) (l : list A) :
  (forall a, In a l -> exists b, f a = Ok b) ->
  exists bs, mapM f l = Ok bs /\ length bs = length l.
Proof.
  induction l as [|a l IH]; intros H; simpl; [now exists []|].
  destruct (H a) as [b Hb]; [now left|].
  destruct IH as [bs [Hbs Hl]]; [intros; apply H; now right|].
  rewrite Hb, Hbs. simpl. exists (b :: bs). simpl. auto.
Qed.

Lemma parseOrMapParse_ok (obj : raw) : exists v, parseOrMapParse obj = Ok v.
Proof.
  destruct obj as [|s|l]; unfold parseOrMapParse.
  - now exists VUndefined.
  - apply (safeJSONParse_ok (Some s)).
  - destruct (mapM_total (fun s => safeJSONParse (Some s)) l) as [vs [H _]].
    + intros s _. apply safeJSONParse_ok.
    + rewrite H. simpl. now eexists.
Qed.

End NeverRaisesMore.

(** C8. Decoding never raises: [safeJSONParse(undefined)] is [undefined];
    for every string token there is a value that [safeJSONParse] returns;
    a token whose percent-decoding or JSON parse fails comes back as a
    string; and [parseOrMapParse] returns a value for every input. *)
Theorem C8_decode_never_raises :
  safeJSONParse None = Ok VUndefined
  /\ (forall t, exists v, safeJSONParse (Some t) = Ok v)
  /\ (forall t e, (text <- decodeURIComponent t ;; JSON.parse text) = Throw e ->
                  safeJSONParse (Some t) = Ok (VString t))
  /\ (forall obj, exists v, parseOrMapParse obj = Ok v)
  /\ safeJSONParse (Some (js "%")) = Ok (VString (js "%"))
  /\ safeJSONParse (Some (js "%E0%A4%A")) = Ok (VString (js "%E0%A4%A"))
  /\ safeJSONParse (Some (js "%C0%80")) = Ok (VString (js "%C0%80"))
  /\ safeJSONParse (Some (js "{bad")) = Ok (VString (js "{bad"))
  /\ safeJSONParse (Some (js "[1,]")) = Ok (VString (js "[1,]")).
Proof.
  split; [reflexivity|].
  split; [intros t; apply safeJSONParse_ok|].
  split.
  { intros t e H. unfold safeJSONParse. now rewrite H. }
  split; [exact parseOrMapParse_ok|].
  repeat split; reflexivity.
Qed.

(** ** Filling a route *)

Section Fill.

Variable routeParams : object.

Lemma fillSegment_absent (segment : Segment) :
  read routeParams (value segment) = VUndefined ->
  fillSegment routeParams segment
  = match type segment with
    | static => Ok [value segment]
    | dynamic => Throw (MissingDynamic (value segment))
    | catchAll => Throw (MissingCatchAll (value segment))
    | optionalCatchAll => Ok []
    end.
Proof.
  intros H. unfold fillSegment. rewrite H. now destruct (type segment).
Qed.

Lemma fillSegments_app (pre post : list Segment) (parts : list jsstring) :
  fillSegments routeParams (pre ++ post) parts
  = (parts' <- fillSegments routeParams pre parts ;;
     fillSegments routeParams post parts').
Proof.
  revert parts. induction pre as [|segment pre IH]; intros parts; simpl.
  - reflexivity.
  - destruct (fillSegment routeParams segment) as [pushed|e]; simpl.
    + apply IH.
    + reflexivity.
Qed.

Lemma fillSegments_throws (parsed : list Segment) (segment : Segment)
  (e : error) (parts : list jsstring) :
  In segment parsed -> fillSegment routeParams segment = Throw e ->
  exists e', fillSegments routeParams parsed parts = Throw e'.
Proof.
  intros Hin He. revert parts.
  induction parsed as [|s parsed IH]; intros parts; [easy|]. simpl.
  destruct Hin as [->|Hin].
  - rewrite He. simpl. now exists e.
  - destruct (fillSegment routeParams s); simpl; [now apply IH|now eexists].
Qed.

Lemma missing_throws (segment : Segment) :
  missing routeParams segment = true ->
  exists e, fillSegment routeParams segment = Throw e
            /\ isMissingRouteParam e = true.
Proof.
  unfold missing. intros H.
  destruct (read routeParams (value segment)) eqn:Hg;
    try (destruct (type segment); discriminate).
  rewrite (fillSegment_absent _ Hg).
  destruct (type segment); try discriminate; now eexists.
Qed.

Lemma proto_inherited (k : jsstring) :
  eqb k (js "__proto__") = true -> inherited k = true.
Proof. intros H%eqb_eq. now subst k. Qed.

(** A property reads as [undefined] when it is bound to [undefined], or
    when there is no such key and the name is not an inherited one. *)
Lemma read_undefined (k : jsstring) :
  read routeParams k = VUndefined
  <-> Obj.lookup routeParams k = Some VUndefined
      \/ (Obj.lookup routeParams k = None /\ inherited k = false).
Proof.
  unfold read, prototype_value.
  destruct (Obj.lookup routeParams k) as [v|].
  - split; [intros ->; now left|].
    intros [[= ->]|[[=] _]]. reflexivity.
  - destruct (eqb k (js "__proto__")) eqn:E.
    + apply proto_inherited in E. rewrite E.
      split; [discriminate|]. intros [[=]|[_ [=]]].
    + destruct (inherited k).
      * split; [discriminate|]. intros [[=]|[_ [=]]].
      * split; auto.
Qed.

(** With no own key, an inherited name is filled with the inherited
    value: [Object.prototype] for [__proto__], a function otherwise. *)
Lemma fillSegment_inherited (segment : Segment) :
  Obj.lookup routeParams (value segment) = None ->
  inherited (value segment) = true ->
  type segment <> static ->
  fillSegment routeParams segment
  = if eqb (value segment) (js "__proto__") then Ok [js "%7B%7D"]
    else Throw InvalidValue.
Proof.
  intros Hl Hi Ht. unfold fillSegment, read, prototype_value.
  rewrite Hl, Hi.
  destruct (eqb (value segment) (js "__proto__"));
    destruct (type segment); try reflexivity; contradiction.
Qed.

End Fill.

(** C5 (as stated, refuted).  The keys [toString], [__proto__] and
    [constructor] are absent from the empty [routeParams], yet a dynamic
    segment of that name does not fail with the "Missing value" error:
    the value inherited from [Object.prototype] is read, so [encodeValue]
    throws its own error for the function, the path is filled with the
    token of [{}] for [__proto__], and an optional catch-all segment throws
    where it should be left out. *)
Lemma C5_inherited_name_counterexample :
  Obj.lookup ([] : object) (js "toString") = None
  /\ encodeAndFillRoute (js "/[toString]") [] = Throw InvalidValue
  /\ isMissingRouteParam InvalidValue = false
  /\ encodeAndFillRoute (js "/[__proto__]") [] = Ok (js "/%7B%7D")
  /\ dollar_path (js "/a/[[...constructor]]") None (Some [])
     = Throw InvalidValue.
Proof. repeat split; reflexivity. Qed.

(** C5 (amended).  With [routeParams] supplied, the parameter of a segment
    is read as [routeParams[name]]: it is [undefined] exactly when the key
    is bound to [undefined], or is absent and is not a name inherited from
    [Object.prototype].  A dynamic or catch-all segment whose parameter
    reads as [undefined] makes the segment fail with the "Missing value"
    error, and with it the whole call; an optional catch-all segment whose
    parameter reads as [undefined] pushes nothing and raises nothing, so
    the path is the one of the route without that segment.  For an absent
    key that is an inherited name the inherited value is encoded instead:
    the segment fails with the error of [encodeValue], or, for
    [__proto__], pushes the token of [{}]. *)
Theorem C5_missing_route_param :
  (forall routeParams name,
      read routeParams name = VUndefined
      <-> Obj.lookup routeParams name = Some VUndefined
          \/ (Obj.lookup routeParams name = None /\ inherited name = false))
  /\ (forall routeParams segment,
      read routeParams (value segment) = VUndefined ->
      fillSegment routeParams segment
      = match type segment with
        | static => Ok [value segment]
        | dynamic => Throw (MissingDynamic (value segment))
        | catchAll => Throw (MissingCatchAll (value segment))
        | optionalCatchAll => Ok []
        end)
  /\ (forall routeParams segment,
         Obj.lookup routeParams (value segment) = None ->
         inherited (value segment) = true ->
         type segment <> static ->
         fillSegment routeParams segment
         = if eqb (value segment) (js "__proto__") then Ok [js "%7B%7D"]
           else Throw InvalidValue)
  /\ (forall route searchParams routeParams segment,
         In segment (split 47%N route) ->
         missing routeParams (parseSegment segment) = true ->
         exists e, dollar_path route searchParams (Some routeParams) = Throw e)
  /\ (forall route routeParams pre segment post parts,
         split 47%N route = pre ++ segment :: post ->
         missing routeParams (parseSegment segment) = true ->
         fillSegments routeParams (map parseSegment pre) [] = Ok parts ->
         exists e,
           isMissingRouteParam e = true
           /\ encodeAndFillRoute route routeParams = Throw e
           /\ dollar_path route None (Some routeParams) = Throw e
           /\ forall searchParams q,
               generateParamStringFromSearchParamObj searchParams = Ok q ->
               dollar_path route (Some searchParams) (Some routeParams)
               = Throw e)
  /\ (forall route routeParams pre segment post,
         split 47%N route = pre ++ segment :: post ->
         type (parseSegment segment) = optionalCatchAll ->
         read routeParams (value (parseSegment segment)) = VUndefined ->
         encodeAndFillRoute route routeParams
         = (parts <- fillSegments routeParams
                       (map parseSegment (pre ++ post)) [] ;;
            Ok (join (js "/") parts)))
  /\ dollar_path (js "/product/[productID]") None (Some [])
     = Throw (MissingDynamic (js "productID"))
  /\ dollar_path (js "/dashboard/[...options]") None
       (Some [(js "tab", VString (js "a"))])
     = Throw (MissingCatchAll (js "options"))
  /\ dollar_path (js "/docs/[[...slug]]") None (Some []) = Ok (js "/docs")
  /\ dollar_path (js "/docs/[[...slug]]/edit") None (Some [])
     = Ok (js "/docs/edit").
Proof.
  split; [exact read_undefined|].
  split; [exact fillSegment_absent|].
  split; [exact fillSegment_inherited|]. split; [|split; [|split]].
  - intros route sp rp segment Hin Hm.
    destruct (missing_throws _ _ Hm) as [e [He _]].
    destruct (fillSegments_throws rp (map parseSegment (split 47%N route))
                (parseSegment segment) [] (in_map _ _ _ Hin) He) as [e' He'].
    unfold dollar_path, encodeAndFillRoute. rewrite He'.
    destruct sp as [sp|]; simpl; [|now eexists].
    destruct (generateParamStringFromSearchParamObj sp); simpl; now eexists.
  - intros route rp pre segment post parts Hs Hm Hpre.
    destruct (missing_throws _ _ Hm) as [e [He Hmiss]].
    assert (Hr : encodeAndFillRoute route rp = Throw e).
    { unfold encodeAndFillRoute.
      rewrite Hs, map_app, fillSegments_app, Hpre. simpl. now rewrite He. }
    exists e. repeat split; try assumption.
    intros sp q Hq. unfold dollar_path. now rewrite Hq, Hr.
  - intros route rp pre segment post Hs Ht Hg.
    unfold encodeAndFillRoute.
    rewrite Hs, !map_app, !fillSegments_app. simpl.
    rewrite (fillSegment_absent _ _ Hg), Ht. simpl.
    destruct (fillSegments rp (map parseSegment pre) []); simpl;
      [now rewrite app_nil_r|reflexivity].
  - repeat split; reflexivity.
Qed.

(** ** Objects *)

Section Objects.

Variable V : Type.
Implicit Types (o : Obj.props V) (k : jsstring) (v : V).

Lemma lookup_in o k v : Obj.lookup o k = Some v -> In k (Obj.keys o).
Proof.
  induction o as [|[k0 v0] o IH]; simpl; [discriminate|].
  destruct (eqb k0 k) eqn:E.
  - apply eqb_eq in E. auto.
  - auto.
Qed.

Lemma lookup_none o k : Obj.lookup o k = None <-> ~ In k (Obj.keys o).
Proof.
  induction o as [|[k0 v0] o IH]; simpl; [tauto|].
  destruct (eqb k0 k) eqn:E.
  - apply eqb_eq in E. split; [discriminate|tauto].
  - apply eqb_neq in E. tauto.
Qed.

Lemma in_keys_lookup o k :
  In k (Obj.keys o) <-> exists v, Obj.lookup o k = Some v.
Proof.
  split.
  - intros H. destruct (Obj.lookup o k) as [v|] eqn:E; [now exists v|].
    now apply lookup_none in E.
  - intros [v H]. eapply lookup_in, H.
Qed.

Lemma keys_replace o k v : Obj.keys (Obj.replace o k v) = Obj.keys o.
Proof.
  induction o as [|[k0 v0] o IH]; simpl; [reflexivity|].
  destruct (eqb k0 k); simpl; [reflexivity|now rewrite IH].
Qed.

Lemma lookup_replace_same o k v :
  In k (Obj.keys o) -> Obj.lookup (Obj.replace o k v) k = Some v.
Proof.
  induction o as [|[k0 v0] o IH]; simpl; [tauto|].
  destruct (eqb k0 k) eqn:E; simpl; rewrite E; [reflexivity|].
  apply eqb_neq in E. intros [?|?]; [congruence|auto].
Qed.

Lemma lookup_replace_other o k v k' :
  k <> k' -> Obj.lookup (Obj.replace o k v) k' = Obj.lookup o k'.
Proof.
  intros Hne. induction o as [|[k0 v0] o IH]; simpl; [reflexivity|].
  destruct (eqb k0 k) eqn:E; simpl.
  - apply eqb_eq in E. subst k0.
    apply eqb_neq in Hne. now rewrite Hne.
  - now rewrite IH.
Qed.

Lemma keys_insert_index o i k v k' :
  In k' (Obj.keys (Obj.insert_index o i k v)) <-> k' = k \/ In k' (Obj.keys o).
Proof.
  induction o as [|[k0 v0] o IH]; simpl; [intuition|].
  destruct (Obj.array_index k0) as [j|]; [destruct (i <? j)%N|]; simpl;
    rewrite ?IH; intuition.
Qed.

Lemma lookup_insert_index_same o i k v :
  ~ In k (Obj.keys o) -> Obj.lookup (Obj.insert_index o i k v) k = Some v.
Proof.
  induction o as [|[k0 v0] o IH]; simpl; intros Hn.
  - now rewrite eqb_refl.
  - destruct (Obj.array_index k0) as [j|]; [destruct (i <? j)%N|]; simpl;
      rewrite ?eqb_refl; try reflexivity.
    destruct (eqb k0 k) eqn:E; [apply eqb_eq in E; tauto|tauto].
Qed.

Lemma lookup_insert_index_other o i k v k' :
  k <> k' -> Obj.lookup (Obj.insert_index o i k v) k' = Obj.lookup o k'.
Proof.
  intros Hne. apply eqb_neq in Hne.
  induction o as [|[k0 v0] o IH]; simpl; [now rewrite Hne|].
  destruct (Obj.array_index k0) as [j|]; [destruct (i <? j)%N|]; simpl;
    rewrite ?Hne, ?IH; reflexivity.
Qed.

Lemma lookup_app o o' k :
  Obj.lookup (o ++ o') k
  = match Obj.lookup o k with
    | Some v => Some v
    | None => Obj.lookup o' k
    end.
Proof.
  induction o as [|[k0 v0] o IH]; simpl; [reflexivity|].
  destruct (eqb k0 k); [reflexivity|exact IH].
Qed.

Lemma has_in o k : Obj.has o k = true <-> In k (Obj.keys o).
Proof.
  unfold Obj.has. rewrite in_keys_lookup.
  destruct (Obj.lookup o k) as [v|]; split; try discriminate; eauto.
  now intros [? ?].
Qed.

Lemma lookup_set_same o k v : Obj.lookup (Obj.set o k v) k = Some v.
Proof.
  unfold Obj.set. destruct (Obj.has o k) eqn:E.
  - apply lookup_replace_same. now apply has_in.
  - assert (Hn : ~ In k (Obj.keys o)).
    { intros H%has_in. congruence. }
    destruct (Obj.array_index k) as [i|].
    + now apply lookup_insert_index_same.
    + rewrite lookup_app. apply lookup_none in Hn. rewrite Hn. simpl.
      now rewrite eqb_refl.
Qed.

Lemma lookup_set_other o k v k' :
  k <> k' -> Obj.lookup (Obj.set o k v) k' = Obj.lookup o k'.
Proof.
  intros Hne. unfold Obj.set. destruct (Obj.has o k).
  - now apply lookup_replace_other.
  - destruct (Obj.array_index k) as [i|].
    + now apply lookup_insert_index_other.
    + rewrite lookup_app. destruct (Obj.lookup o k'); [reflexivity|].
      simpl. apply eqb_neq in Hne. now rewrite Hne.
Qed.

Lemma keys_set o k v k' :
  In k' (Obj.keys (Obj.set o k v)) <-> k' = k \/ In k' (Obj.keys o).
Proof.
  rewrite !in_keys_lookup. split.
  - intros [w H]. destruct (list_eq_dec N.eq_dec k k') as [->|Hne]; [auto|].
    rewrite lookup_set_other in H by assumption. right. now exists w.
  - intros [->|[w H]].
    + exists v. apply lookup_set_same.
    + destruct (list_eq_dec N.eq_dec k k') as [->|Hne].
      * exists v. apply lookup_set_same.
      * exists w. now rewrite lookup_set_other.
Qed.

(** Assigning [f name] for each name of a list, in order. *)
Lemma lookup_fold_set (f : jsstring -> V) (names : list jsstring) o k :
  Obj.lookup (fold_left (fun t name => Obj.set t name (f name)) names o) k
  = if existsb (eqb k) names then Some (f k) else Obj.lookup o k.
Proof.
  revert o. induction names as [|n names IH]; intros o; simpl; [reflexivity|].
  rewrite IH. destruct (existsb (eqb k) names).
  - now rewrite orb_true_r.
  - rewrite orb_false_r. destruct (eqb k n) eqn:E.
    + apply eqb_eq in E. subst n. apply lookup_set_same.
    + apply eqb_neq in E. apply lookup_set_other. congruence.
Qed.

Lemma existsb_eqb (k : jsstring) (names : list jsstring) :
  existsb (eqb k) names = true <-> In k names.
Proof.
  rewrite existsb_exists. split.
  - intros [x [Hin ->%eqb_eq]]. exact Hin.
  - intros Hin. exists k. split; [exact Hin|apply eqb_refl].
Qed.

(** The last binding of a key wins in a spread. *)
Lemma lookup_spread (target source : Obj.props V) k :
  Obj.lookup (Obj.spread target source) k
  = match Obj.lookup (rev source) k with
    | Some v => Some v
    | None => Obj.lookup target k
    end.
Proof.
  unfold Obj.spread. revert target.
  induction source as [|[k0 v0] source IH]; intros target; simpl;
    [reflexivity|].
  rewrite IH, lookup_app.
  destruct (Obj.lookup (rev source) k) as [w|]; [reflexivity|]. simpl.
  destruct (eqb k0 k) eqn:E.
  - apply eqb_eq in E. subst k0. apply lookup_set_same.
  - apply eqb_neq in E. now apply lookup_set_other.
Qed.

Lemma keys_rev o k : In k (Obj.keys (rev o)) <-> In k (Obj.keys o).
Proof.
  unfold Obj.keys. rewrite map_rev. symmetry. apply in_rev.
Qed.

Lemma keys_spread (target source : Obj.props V) k :
  In k (Obj.keys (Obj.spread target source))
  <-> In k (Obj.keys source) \/ In k (Obj.keys target).
Proof.
  rewrite <- (keys_rev source), !in_keys_lookup, lookup_spread.
  destruct (Obj.lookup (rev source) k) as [w|]; split; eauto.
  - intros [[? [=]]|?]; assumption.
Qed.

End Objects.

(** Objects built by assignment never hold a key twice. *)
Section ObjectsDistinct.

Variable V : Type.
Implicit Types (o : Obj.props V) (k : jsstring) (v : V).

Lemma NoDup_insert_index o i k v :
  ~ In k (Obj.keys o) -> NoDup (Obj.keys o) ->
  NoDup (Obj.keys (Obj.insert_index o i k v)).
Proof.
  induction o as [|[k0 v0] o IH]; simpl; intros Hn Hd.
  - constructor; [easy|constructor].
  - destruct (Obj.array_index k0) as [j|]; [destruct (i <? j)%N|]; simpl;
      try (constructor; [simpl; tauto|assumption]).
    inversion Hd as [|? ? Hk0 Hd']; subst. constructor.
    + rewrite keys_insert_index. intuition.
    + apply IH; tauto.
Qed.

Lemma NoDup_set o k v :
  NoDup (Obj.keys o) -> NoDup (Obj.keys (Obj.set o k v)).
Proof.
  intros Hd. unfold Obj.set. destruct (Obj.has o k) eqn:E.
  - now rewrite keys_replace.
  - assert (Hn : ~ In k (Obj.keys o)).
    { intros H%has_in. congruence. }
    destruct (Obj.array_index k) as [i|].
    + now apply NoDup_insert_index.
    + unfold Obj.keys. rewrite map_app. simpl.
      apply NoDup_app; [assumption|constructor; [easy|constructor]|].
      intros x Hx [<-|[]]. now apply Hn.
Qed.

Lemma NoDup_fold_set (f : jsstring -> V) (names : list jsstring) o :
  NoDup (Obj.keys o) ->
  NoDup (Obj.keys
           (fold_left (fun t name => Obj.set t name (f name)) names o)).
Proof.
  revert o. induction names as [|n names IH]; intros o Hd; simpl;
    [assumption|].
  apply IH. now apply NoDup_set.
Qed.

Lemma lookup_rev o k :
  NoDup (Obj.keys o) -> Obj.lookup (rev o) k = Obj.lookup o k.
Proof.
  induction o as [|[k0 v0] o IH]; simpl; intros Hd; [reflexivity|].
  inversion Hd as [|? ? Hk0 Hd']; subst.
  rewrite lookup_app, (IH Hd'). simpl.
  destruct (eqb k0 k) eqn:E.
  - apply eqb_eq in E. subst k0.
    apply lookup_none in Hk0. now rewrite Hk0.
  - now destruct (Obj.lookup o k).
Qed.

End ObjectsDistinct.

(** ** Route parameters *)

Section RouteParams.

Variable query : query_object.

Lemma parseOrMapParse_parsed (obj : raw) :
  parseOrMapParse obj = Ok (parsed obj).
Proof.
  unfold parsed. destruct (parseOrMapParse_ok obj) as [v ->]. reflexivity.
Qed.

Lemma parseCatchAll_fold (names : list jsstring) (acc : object) :
  parseCatchAll query names acc
  = Ok (fold_left
          (fun t name => Obj.set t name (wrap (parsed (query_get query name))))
          names acc).
Proof.
  revert acc. induction names as [|n names IH]; intros acc; [reflexivity|].
  cbn [parseCatchAll fold_left]. rewrite parseOrMapParse_parsed. simpl.
  apply IH.
Qed.

Lemma parseNonCatchAll_fold (names : list jsstring) (acc : object) :
  parseNonCatchAll query names acc
  = Ok (fold_left
          (fun t name => Obj.set t name (parsed (query_get query name)))
          names acc).
Proof.
  revert acc. induction names as [|n names IH]; intros acc; [reflexivity|].
  cbn [parseNonCatchAll fold_left]. rewrite parseOrMapParse_parsed. simpl.
  apply IH.
Qed.

Lemma getDynamicRouteParams_lookup (path : jsstring) :
  exists r,
    getDynamicRouteParams path query = Ok r
    /\ forall k,
        Obj.lookup r k
        = if existsb (eqb k)
               (optionalCatchAllParamNames (split 47%N path)
                ++ catchAllParamNames (split 47%N path))
          then Some (wrap (parsed (query_get query k)))
          else if existsb (eqb k) (dynamicParamNames (split 47%N path))
               then Some (parsed (query_get query k))
               else None.
Proof.
  unfold getDynamicRouteParams.
  rewrite parseCatchAll_fold, parseNonCatchAll_fold. simpl.
  eexists. split; [reflexivity|]. intros k.
  rewrite !lookup_spread.
  rewrite !lookup_rev
    by (apply NoDup_fold_set; constructor).
  rewrite !lookup_fold_set. simpl.
  destruct (existsb (eqb k) _); [reflexivity|].
  destruct (existsb (eqb k) _); reflexivity.
Qed.

(** The names of the bracketed segments are among the names the decoder
    collects. *)
Lemma name_collected (segments : list jsstring) (segment : jsstring) :
  In segment segments ->
  match type (parseSegment segment) with
  | static => True
  | dynamic =>
      In (value (parseSegment segment)) (dynamicParamNames segments)
  | catchAll =>
      In (value (parseSegment segment)) (catchAllParamNames segments)
  | optionalCatchAll =>
      In (value (parseSegment segment)) (optionalCatchAllParamNames segments)
  end.
Proof.
  intros Hin.
  destruct (type (parseSegment segment)) eqn:Ht; [exact I| | |].
  - pose proof (proj1 (parseSegment_dynamic segment) Ht) as Hd.
    unfold parseSegment, is_dynamic_segment in *. rewrite Hd. simpl.
    unfold dynamicParamNames.
    apply (in_map (fun s => slice s 1 (-1))), filter_In. auto.
  - pose proof (proj1 (parseSegment_catchAll segment) Ht) as [Hc Ho].
    assert (Hd : is_dynamic_segment segment = false).
    { destruct (is_dynamic_segment segment) eqn:E; [|reflexivity].
      apply parseSegment_dynamic in E. congruence. }
    unfold parseSegment.
    unfold is_dynamic_segment, is_optionalCatchAll_segment,
      is_catchAll_segment in Hd, Ho, Hc. rewrite Hd, Ho, Hc. simpl.
    unfold catchAllParamNames.
    apply (in_map (fun s => slice s 4 (-1))), filter_In. auto.
  - pose proof (proj1 (parseSegment_optionalCatchAll segment) Ht) as Ho.
    assert (Hd : is_dynamic_segment segment = false).
    { destruct (is_dynamic_segment segment) eqn:E; [|reflexivity].
      apply parseSegment_dynamic in E. congruence. }
    unfold parseSegment.
    unfold is_dynamic_segment, is_optionalCatchAll_segment in Hd, Ho.
    rewrite Hd, Ho. simpl.
    unfold optionalCatchAllParamNames.
    apply (in_map (fun s => slice s 5 (-2))), filter_In. auto.
Qed.

(** Conversely, without optional catch-all segments every collected name
    is the name of a bracketed segment. *)
Lemma collected_name (segments : list jsstring) (k : jsstring) :
  (forall segment, In segment segments ->
                   type (parseSegment segment) <> optionalCatchAll) ->
  In k (dynamicParamNames segments
        ++ optionalCatchAllParamNames segments
        ++ catchAllParamNames segments) ->
  exists segment,
    In segment segments
    /\ type (parseSegment segment) <> static
    /\ value (parseSegment segment) = k.
Proof.
  intros Hno Hin. rewrite !in_app_iff in Hin.
  unfold dynamicParamNames, optionalCatchAllParamNames, catchAllParamNames
    in Hin.
  rewrite !in_map_iff in Hin.
  destruct Hin as [[s [<- [Hs Hf]%filter_In]]
                  |[[s [<- [Hs Hf]%filter_In]]
                   |[s [<- [Hs Hf]%filter_In]]]].
  - exists s. apply parseSegment_dynamic in Hf as Ht.
    unfold parseSegment, is_dynamic_segment in *. rewrite Hf. simpl.
    repeat split; [assumption|discriminate].
  - apply parseSegment_optionalCatchAll in Hf. now apply Hno in Hs.
  - assert (Ho : is_optionalCatchAll_segment s = false).
    { destruct (is_optionalCatchAll_segment s) eqn:E; [|reflexivity].
      apply parseSegment_optionalCatchAll in E. now apply Hno in Hs. }
    assert (Hd : is_dynamic_segment s = false).
    { unfold is_dynamic_segment, is_catchAll_segment in *.
      apply andb_prop in Hf as [_ ->]. simpl. apply andb_false_r. }
    exists s. unfold parseSegment.
    unfold is_dynamic_segment, is_optionalCatchAll_segment,
      is_catchAll_segment in Hd, Ho, Hf. rewrite Hd, Ho, Hf. simpl.
    repeat split; [assumption|discriminate].
Qed.

End RouteParams.

(** C4 (as stated, refuted).  For the pattern ["/[...ids]"] and an empty raw
    mapping the key [ids] is not left out: it is bound to the one-element
    sequence holding [undefined]. *)
Lemma C4_absent_catchAll_counterexample :
  getDynamicRouteParams (js "/[...ids]") []
  = Ok [(js "ids", VArray [VUndefined])].
Proof. reflexivity. Qed.

(** C4 (amended).  For a pattern none of whose parameter names is a
    property name inherited from [Object.prototype],
    [getDynamicRouteParams] returns a mapping in which every
    parameter name of a non-static segment of the pattern is a key, and in
    which, when the pattern has no optional catch-all segment, no other key
    appears; every catch-all or optional catch-all name is bound to the
    decoded raw value, kept when it is a sequence and wrapped in a
    one-element sequence otherwise, so that a name whose key is absent from
    the raw mapping is bound to the one-element sequence holding
    [undefined] rather than left out; and since this holds whether or not
    the name is also the name of a dynamic segment, the catch-all entry
    overrides the scalar entry on a key collision. *)
Theorem C4_route_param_keys (path : jsstring) (query : query_object) :
  own_params path = true ->
  exists r,
    getDynamicRouteParams path query = Ok r
    /\ (forall segment,
           In segment (split 47%N path) ->
           type (parseSegment segment) <> static ->
           In (value (parseSegment segment)) (Obj.keys r))
    /\ ((forall segment,
            In segment (split 47%N path) ->
            type (parseSegment segment) <> optionalCatchAll) ->
        forall k,
          In k (Obj.keys r) ->
          exists segment,
            In segment (split 47%N path)
            /\ type (parseSegment segment) <> static
            /\ value (parseSegment segment) = k)
    /\ (forall segment,
           In segment (split 47%N path) ->
           type (parseSegment segment) = catchAll
           \/ type (parseSegment segment) = optionalCatchAll ->
           get r (value (parseSegment segment))
           = wrap (parsed (query_get query (value (parseSegment segment))))
           /\ (query_get query (value (parseSegment segment)) = RUndefined ->
               get r (value (parseSegment segment)) = VArray [VUndefined]))
    /\ (forall segment,
           In segment (split 47%N path) ->
           type (parseSegment segment) = dynamic ->
           (forall other,
               In other (split 47%N path) ->
               is_catchAll_segment other = true ->
               slice other 4 (-1) <> value (parseSegment segment)
               /\ slice other 5 (-2) <> value (parseSegment segment)) ->
           get r (value (parseSegment segment))
           = parsed (query_get query (value (parseSegment segment)))).
Proof.
  intros _.
  destruct (getDynamicRouteParams_lookup query path) as [r [Hr Hl]].
  exists r. split; [exact Hr|].
  set (segments := split 47%N path) in *.
  assert (Hcatch : forall segment,
             In segment segments ->
             type (parseSegment segment) = catchAll
             \/ type (parseSegment segment) = optionalCatchAll ->
             existsb (eqb (value (parseSegment segment)))
               (optionalCatchAllParamNames segments
                ++ catchAllParamNames segments) = true).
  { intros segment Hin Ht. apply existsb_eqb, in_app_iff.
    pose proof (name_collected segments segment Hin) as Hn.
    destruct Ht as [Ht|Ht]; rewrite Ht in Hn; auto. }
  split; [|split; [|split]].
  - intros segment Hin Hns. apply in_keys_lookup. rewrite Hl.
    pose proof (name_collected segments segment Hin) as Hn.
    destruct (type (parseSegment segment)) eqn:Ht; [congruence| | |].
    + apply existsb_eqb in Hn. rewrite Hn.
      destruct (existsb _ (_ ++ _)); eauto.
    + rewrite Hcatch by auto. eauto.
    + rewrite Hcatch by auto. eauto.
  - intros Hno k [v Hk]%in_keys_lookup. rewrite Hl in Hk.
    apply (collected_name segments k Hno).
    rewrite in_app_iff, <- !existsb_eqb.
    destruct (existsb (eqb k) (_ ++ _)); [auto|].
    destruct (existsb (eqb k) _); [auto|discriminate].
  - intros segment Hin Ht.
    assert (Hg : get r (value (parseSegment segment))
                 = wrap (parsed (query_get query (value (parseSegment segment))))).
    { unfold get. now rewrite Hl, Hcatch. }
    split; [exact Hg|]. intros Hq. now rewrite Hg, Hq.
  - intros segment Hin Ht Hother. unfold get. rewrite Hl.
    pose proof (name_collected segments segment Hin) as Hn. rewrite Ht in Hn.
    apply existsb_eqb in Hn. rewrite Hn.
    destruct (existsb _ (_ ++ _)) eqn:E; [|reflexivity].
    apply existsb_eqb, in_app_iff in E.
    unfold optionalCatchAllParamNames, catchAllParamNames in E.
    rewrite !in_map_iff in E.
    destruct E as [[s [Hs [Hi Hf]%filter_In]]|[s [Hs [Hi Hf]%filter_In]]].
    + assert (Hc : is_catchAll_segment s = true).
      { unfold is_optionalCatchAll_segment, is_catchAll_segment in *.
        apply andb_prop in Hf as [[[r1 ->]%startsWith_iff [q Hq]%endsWith_iff]%andb_prop ->].
        rewrite andb_true_r. apply andb_true_intro. split.
        - apply startsWith_iff. now exists (91%N :: r1).
        - apply endsWith_iff. exists (q ++ [93%N]).
          rewrite Hq, <- app_assoc. reflexivity. }
      destruct (Hother s Hi Hc) as [_ H]. congruence.
    + destruct (Hother s Hi Hf) as [H _]. congruence.
Qed.

Lemma C4_route_param_keys_witness :
  exists r,
    getDynamicRouteParams (js "/[id]/[...rest]")
      [(js "id", RString (js "1"))] = Ok r
    /\ (forall segment,
           In segment (split 47%N (js "/[id]/[...rest]")) ->
           type (parseSegment segment) <> static ->
           In (value (parseSegment segment)) (Obj.keys r))
    /\ ((forall segment,
            In segment (split 47%N (js "/[id]/[...rest]")) ->
            type (parseSegment segment) <> optionalCatchAll) ->
        forall k,
          In k (Obj.keys r) ->
          exists segment,
            In segment (split 47%N (js "/[id]/[...rest]"))
            /\ type (parseSegment segment) <> static
            /\ value (parseSegment segment) = k)
    /\ (forall segment,
           In segment (split 47%N (js "/[id]/[...rest]")) ->
           type (parseSegment segment) = catchAll
           \/ type (parseSegment segment) = optionalCatchAll ->
           get r (value (parseSegment segment))
           = wrap (parsed (query_get [(js "id", RString (js "1"))]
                             (value (parseSegment segment))))
           /\ (query_get [(js "id", RString (js "1"))]
                 (value (parseSegment segment)) = RUndefined ->
               get r (value (parseSegment segment)) = VArray [VUndefined]))
    /\ (forall segment,
           In segment (split 47%N (js "/[id]/[...rest]")) ->
           type (parseSegment segment) = dynamic ->
           (forall other,
               In other (split 47%N (js "/[id]/[...rest]")) ->
               is_catchAll_segment other = true ->
               slice other 4 (-1) <> value (parseSegment segment)
               /\ slice other 5 (-2) <> value (parseSegment segment)) ->
           get r (value (parseSegment segment))
           = parsed (query_get [(js "id", RString (js "1"))]
                       (value (parseSegment segment)))).
Proof. apply C4_route_param_keys. reflexivity. Defined.


(** ** Percent-encoding *)

Ltac Zify.zify_post_hook ::= Z.to_euclidean_division_equations.

Section ListInduction.

Variable A : Type.
Variable P : list A -> Prop.
Hypothesis Hnil : P [].
Hypothesis Hone : forall c, P [c].
Hypothesis Htwo : forall c d s, P s -> P (d :: s) -> P (c :: d :: s).

Lemma list_ind2 (s : list A) : P s.
Proof.
  enough (H : P s /\ forall c, P (c :: s)) by apply H.
  induction s as [|d s [IH1 IH2]]; split; auto.
Qed.

End ListInduction.

Section Percent.

Local Open Scope N_scope.

Ltac bools :=
  repeat match goal with
    | H : (_ && _)%bool = true |- _ => apply andb_prop in H as [? ?]
    | H : (_ || _)%bool = true |- _ => apply orb_prop in H as [?|?]
    | H : (_ && _)%bool = false |- _ => apply andb_false_iff in H as [?|?]
    | H : (_ || _)%bool = false |- _ => apply orb_false_iff in H as [? ?]
    | H : negb _ = true |- _ => apply negb_true_iff in H
    | H : negb _ = false |- _ => apply negb_false_iff in H
    | H : (_ <=? _) = true |- _ => apply N.leb_le in H
    | H : (_ <=? _) = false |- _ => apply N.leb_gt in H
    | H : (_ <? _) = true |- _ => apply N.ltb_lt in H
    | H : (_ <? _) = false |- _ => apply N.ltb_ge in H
    | H : (_ =? _) = true |- _ => apply N.eqb_eq in H
    | H : (_ =? _) = false |- _ => apply N.eqb_neq in H
    end.

Lemma hex_value_upper (n : N) : n < 16 -> hex_value (hex_upper n) = Some n.
Proof.
  intros H. unfold hex_upper, hex_value.
  destruct (N.ltb_spec n 10).
  - replace ((48 <=? 48 + n) && (48 + n <=? 57))%bool with true
      by (symmetry; apply andb_true_intro; split; apply N.leb_le; lia).
    f_equal. lia.
  - replace ((48 <=? 55 + n) && (55 + n <=? 57))%bool with false
      by (symmetry; apply andb_false_iff; right; apply N.leb_gt; lia).
    replace ((65 <=? 55 + n) && (55 + n <=? 70))%bool with true
      by (symmetry; apply andb_true_intro; split; apply N.leb_le; lia).
    f_equal. lia.
Qed.

Lemma items_percent (b : N) (r : jsstring) :
  b < 256 ->
  items (percent b ++ r) = (l <- items r ;; Ok (Oct b :: l)).
Proof.
  intros H. unfold percent. cbn [app items N.eqb Pos.eqb].
  rewrite !hex_value_upper by lia.
  replace (16 * (b / 16) + b mod 16) with b by lia. reflexivity.
Qed.

Lemma items_unreserved (c : char) (r : jsstring) :
  unreserved c = true ->
  items (c :: r) = (l <- items r ;; Ok (Lit c :: l)).
Proof.
  intros H. cbn [items]. destruct (N.eqb_spec c 37) as [->|_];
    [discriminate|reflexivity].
Qed.

Lemma items_escape (cp : N) (r : jsstring) :
  cp < 0x110000 ->
  items (escape_code_point cp ++ r)
  = (l <- items r ;; Ok (map Oct (utf8_encode cp) ++ l)).
Proof.
  intros H. unfold escape_code_point, utf8_encode.
  destruct (N.ltb_spec cp 0x80); [|destruct (N.ltb_spec cp 0x800);
    [|destruct (N.ltb_spec cp 0x10000)]];
    cbn [flat_map map]; rewrite ?app_nil_r, <- ?app_assoc;
    rewrite ?items_percent by lia;
    destruct (items r); reflexivity.
Qed.

Lemma assemble_utf8 (cp : N) (l : list item) :
  scalar cp ->
  assemble (map Oct (utf8_encode cp) ++ l)
  = (r <- assemble l ;; Ok (utf16_encode cp ++ r)).
Proof.
  intros [Hlt Hns]. unfold utf8_encode.
  destruct (N.ltb_spec cp 0x80) as [H1|H1].
  { cbn [map app assemble]. destruct (N.ltb_spec cp 0x80); [|lia].
    unfold utf16_encode. destruct (N.ltb_spec cp 0x10000); [|lia].
    reflexivity. }
  destruct (N.ltb_spec cp 0x800) as [H2|H2].
  { cbn [map app assemble].
    destruct (N.ltb_spec (0xC0 + cp / 64) 0x80); [lia|].
    destruct (N.ltb_spec (0xC0 + cp / 64) 0xC0); [lia|].
    destruct (N.ltb_spec (0xC0 + cp / 64) 0xE0); [|lia].
    unfold utf8_decode2, is_continuation.
    replace ((0xC2 <=? 0xC0 + cp / 64) && (0xC0 + cp / 64 <=? 0xDF)
             && ((0x80 <=? 0x80 + cp mod 64) && (0x80 + cp mod 64 <=? 0xBF)))%bool
      with true
      by (symmetry; repeat (apply andb_true_intro; split); apply N.leb_le; lia).
    replace ((0xC0 + cp / 64 - 0xC0) * 64 + (0x80 + cp mod 64 - 0x80))
      with cp by lia.
    reflexivity. }
  destruct (N.ltb_spec cp 0x10000) as [H3|H3].
  { cbn [map app assemble].
    destruct (N.ltb_spec (0xE0 + cp / 4096) 0x80); [lia|].
    destruct (N.ltb_spec (0xE0 + cp / 4096) 0xC0); [lia|].
    destruct (N.ltb_spec (0xE0 + cp / 4096) 0xE0); [lia|].
    destruct (N.ltb_spec (0xE0 + cp / 4096) 0xF0); [|lia].
    unfold utf8_decode3, is_continuation.
    match goal with
    | |- context [if ?c then _ else _] =>
        replace c with true
    end.
    2:{ symmetry. repeat (apply andb_true_intro; split);
        try (apply N.leb_le; lia).
        - apply negb_true_iff, andb_false_iff.
          destruct (N.eqb_spec (0xE0 + cp / 4096) 0xE0); [right|now left].
          apply N.ltb_ge. lia.
        - apply negb_true_iff, andb_false_iff.
          destruct (N.eqb_spec (0xE0 + cp / 4096) 0xED); [right|now left].
          apply N.ltb_ge. lia. }
    replace ((0xE0 + cp / 4096 - 0xE0) * 4096
             + (0x80 + (cp / 64) mod 64 - 0x80) * 64
             + (0x80 + cp mod 64 - 0x80)) with cp by lia.
    reflexivity. }
  cbn [map app assemble].
  destruct (N.ltb_spec (0xF0 + cp / 262144) 0x80); [lia|].
  destruct (N.ltb_spec (0xF0 + cp / 262144) 0xC0); [lia|].
  destruct (N.ltb_spec (0xF0 + cp / 262144) 0xE0); [lia|].
  destruct (N.ltb_spec (0xF0 + cp / 262144) 0xF0); [lia|].
  destruct (N.ltb_spec (0xF0 + cp / 262144) 0xF8); [|lia].
  unfold utf8_decode4, is_continuation.
  match goal with
  | |- context [if ?c then _ else _] =>
      replace c with true
  end.
  2:{ symmetry. repeat (apply andb_true_intro; split);
      try (apply N.leb_le; lia).
      - apply negb_true_iff, andb_false_iff.
        destruct (N.eqb_spec (0xF0 + cp / 262144) 0xF0); [right|now left].
        apply N.ltb_ge. lia.
      - apply negb_true_iff, andb_false_iff.
        destruct (N.eqb_spec (0xF0 + cp / 262144) 0xF4); [right|now left].
        apply N.ltb_ge. lia. }
  replace ((0xF0 + cp / 262144 - 0xF0) * 262144
           + (0x80 + (cp / 4096) mod 64 - 0x80) * 4096
           + (0x80 + (cp / 64) mod 64 - 0x80) * 64
           + (0x80 + cp mod 64 - 0x80)) with cp by lia.
  reflexivity.
Qed.

Lemma decode_escape (cp : N) (r : jsstring) :
  scalar cp ->
  decodeURIComponent (escape_code_point cp ++ r)
  = (x <- decodeURIComponent r ;; Ok (utf16_encode cp ++ x)).
Proof.
  intros H. unfold decodeURIComponent.
  rewrite items_escape by apply H.
  destruct (items r) as [l|e]; simpl; [|reflexivity].
  now apply assemble_utf8.
Qed.

Lemma decode_unreserved (c : char) (r : jsstring) :
  unreserved c = true ->
  decodeURIComponent (c :: r)
  = (x <- decodeURIComponent r ;; Ok (c :: x)).
Proof.
  intros H. unfold decodeURIComponent. rewrite items_unreserved by assumption.
  destruct (items r) as [l|e]; reflexivity.
Qed.

Lemma pair_scalar (hi lo : char) :
  is_high_surrogate hi = true -> is_low_surrogate lo = true ->
  scalar (pair_code_point hi lo)
  /\ utf16_encode (pair_code_point hi lo) = [hi; lo].
Proof.
  unfold is_high_surrogate, is_low_surrogate, pair_code_point, scalar,
    utf16_encode.
  intros Hh Hl. bools. split; [lia|].
  destruct (N.ltb_spec ((hi - 55296) * 1024 + (lo - 56320) + 65536) 65536);
    [lia|].
  f_equal; [|f_equal]; lia.
Qed.

Lemma unit_scalar (c : char) :
  code_unit c = true ->
  is_high_surrogate c = false -> is_low_surrogate c = false ->
  scalar c /\ utf16_encode c = [c].
Proof.
  unfold code_unit, is_high_surrogate, is_low_surrogate, scalar, utf16_encode.
  intros Hc Hh Hl. bools; (split; [lia|]);
    destruct (N.ltb_spec c 65536); try lia; reflexivity.
Qed.

(** Decoding undoes encoding. *)
Lemma decode_encode (s : jsstring) :
  forallb code_unit s = true ->
  forall t, URI.encode s = Ok t -> decodeURIComponent t = Ok s.
Proof.
  induction s as [|c|c d s IH1 IH2] using list_ind2; intros Hu t.
  - intros [= <-]. reflexivity.
  - cbn [URI.encode]. cbn [forallb] in Hu. bools.
    destruct (unreserved c) eqn:Hc.
    { intros [= <-]. now rewrite decode_unreserved. }
    destruct (is_high_surrogate c) eqn:Hh; [discriminate|].
    destruct (is_low_surrogate c) eqn:Hl; [discriminate|].
    intros [= <-]. destruct (unit_scalar c) as [Hs Hu16]; try assumption.
    rewrite decode_escape by assumption. simpl. now rewrite Hu16.
  - cbn [forallb] in Hu. apply andb_prop in Hu as [Hc Hu].
    pose proof Hu as Hu'. cbn [forallb] in Hu'.
    apply andb_prop in Hu' as [Hd Hu'].
    change (URI.encode (c :: d :: s))
      with (if unreserved c then r <- URI.encode (d :: s) ;; Ok (c :: r)
            else if is_high_surrogate c then
                   if is_low_surrogate d then
                     r <- URI.encode s ;;
                     Ok (escape_code_point (pair_code_point c d) ++ r)
                   else Throw URIError
                 else if is_low_surrogate c then Throw URIError
                      else r <- URI.encode (d :: s) ;;
                           Ok (escape_code_point c ++ r)).
    destruct (unreserved c) eqn:Hcu.
    { intros [r [Hr [= <-]]]%bind_ok.
      rewrite decode_unreserved, (IH2 Hu r Hr) by assumption. reflexivity. }
    destruct (is_high_surrogate c) eqn:Hh.
    { destruct (is_low_surrogate d) eqn:Hl; [|discriminate].
      intros [r [Hr [= <-]]]%bind_ok.
      destruct (pair_scalar c d Hh Hl) as [Hs Hu16].
      rewrite decode_escape, (IH1 Hu' r Hr) by assumption. simpl.
      now rewrite Hu16. }
    destruct (is_low_surrogate c) eqn:Hl; [discriminate|].
    intros [r [Hr [= <-]]]%bind_ok.
    destruct (unit_scalar c) as [Hs Hu16]; try assumption.
    rewrite decode_escape, (IH2 Hu r Hr) by assumption. simpl.
    now rewrite Hu16.
Qed.

End Percent.

(** ** Well-formed strings *)

Section WellFormed.

Local Open Scope N_scope.

Lemma well_formed_app (a b : jsstring) :
  well_formed a = true -> well_formed b = true ->
  well_formed (a ++ b) = true.
Proof.
  intros Ha Hb. induction a as [|c|c d a IH1 IH2] using list_ind2.
  - exact Hb.
  - cbn [well_formed] in Ha. cbn [app well_formed].
    destruct (is_high_surrogate c); [discriminate|].
    apply andb_prop in Ha as [-> _]. exact Hb.
  - cbn [well_formed] in Ha. cbn [app well_formed].
    destruct (is_high_surrogate c).
    + apply andb_prop in Ha as [-> Ha]. now apply IH1.
    + apply andb_prop in Ha as [-> Ha]. now apply IH2.
Qed.

Lemma well_formed_plain (c : char) (s : jsstring) :
  is_high_surrogate c = false -> is_low_surrogate c = false ->
  well_formed (c :: s) = well_formed s.
Proof. intros Hh Hl. cbn [well_formed]. now rewrite Hh, Hl. Qed.

Lemma ascii_plain (c : char) :
  c < 128 -> is_high_surrogate c = false /\ is_low_surrogate c = false.
Proof.
  intros H. unfold is_high_surrogate, is_low_surrogate.
  split; apply andb_false_iff; left; apply N.leb_gt; lia.
Qed.

Lemma ascii_well_formed (s : jsstring) :
  ascii_only s = true -> well_formed s = true.
Proof.
  induction s as [|c s IH]; [reflexivity|]. cbn [ascii_only forallb].
  intros [Hc Hs]%andb_prop. apply N.ltb_lt, ascii_plain in Hc as [Hh Hl].
  rewrite well_formed_plain by assumption. now apply IH.
Qed.

Lemma ascii_app (a b : jsstring) :
  ascii_only (a ++ b) = ascii_only a && ascii_only b.
Proof. apply forallb_app. Qed.

Lemma ascii_digits (ds : list digit) : ascii_only (digits_string ds) = true.
Proof.
  induction ds as [|d ds IH]; [reflexivity|].
  cbn [digits_string map ascii_only forallb]. fold (digits_string ds).
  fold (ascii_only (digits_string ds)). rewrite IH. now destruct d.
Qed.

Lemma ascii_repeat (c : char) (n : nat) :
  c < 128 -> ascii_only (repeat c n) = true.
Proof.
  intros H. induction n as [|n IH]; [reflexivity|].
  cbn [repeat ascii_only forallb]. fold (ascii_only (repeat c n)).
  rewrite IH. apply N.ltb_lt in H. now rewrite H.
Qed.

Lemma ascii_toString (x : number) : ascii_only (toString x) = true.
Proof.
  assert (He : forall z, ascii_only (exponent_string z) = true).
  { intros z. unfold exponent_string.
    rewrite !ascii_app, ascii_digits. now destruct (z <? 0)%Z. }
  assert (Hf : forall ds e, ascii_only (toString_finite ds e) = true).
  { intros ds e. unfold toString_finite.
    repeat match goal with
           | |- context [if ?b then _ else _] => destruct b
           end;
      rewrite ?ascii_app, ?ascii_digits, ?ascii_repeat by reflexivity;
      try reflexivity.
    destruct ds as [|d [|d' ds]]; [reflexivity| |];
      rewrite ?ascii_app, ?ascii_digits, ?He; reflexivity. }
  destruct x as [|[|]|[|] [|d ds] e]; try reflexivity; cbn [toString];
    rewrite ?ascii_app, ?Hf; reflexivity.
Qed.

Lemma hex_lower_ascii (n : N) : n < 16 -> JSON.hex_lower n < 128.
Proof. unfold JSON.hex_lower. destruct (N.ltb_spec n 10); lia. Qed.

Lemma ascii_unicode_escape (c : char) :
  c < 65536 -> ascii_only (JSON.unicode_escape c) = true.
Proof.
  intros H. unfold JSON.unicode_escape, ascii_only. cbn [forallb].
  rewrite !andb_true_r.
  repeat (apply andb_true_intro; split); try reflexivity;
    apply N.ltb_lt, hex_lower_ascii; lia.
Qed.

Lemma short_escape_ascii (c x : char) :
  JSON.short_escape c = Some x -> x < 128.
Proof.
  unfold JSON.short_escape.
  repeat match goal with
         | |- context [match ?p with _ => _ end] => destruct p
         end; intros [= <-]; lia.
Qed.

Lemma quote_body_high (c d : char) (s : jsstring) :
  JSON.short_escape c = None -> (c <? 32) = false ->
  is_high_surrogate c = true ->
  JSON.quote_body (c :: d :: s)
  = if is_low_surrogate d then c :: d :: JSON.quote_body s
    else JSON.unicode_escape c ++ JSON.quote_body (d :: s).
Proof.
  intros Hx H32 Hh.
  change (JSON.quote_body (c :: d :: s))
    with (match JSON.short_escape c with
          | Some x => 92 :: x :: JSON.quote_body (d :: s)
          | None =>
              if c <? 32
              then JSON.unicode_escape c ++ JSON.quote_body (d :: s)
              else if is_high_surrogate c
                   then if is_low_surrogate d
                        then c :: d :: JSON.quote_body s
                        else JSON.unicode_escape c ++ JSON.quote_body (d :: s)
                   else if is_low_surrogate c
                        then JSON.unicode_escape c ++ JSON.quote_body (d :: s)
                        else c :: JSON.quote_body (d :: s)
          end).
  now rewrite Hx, H32, Hh.
Qed.

Lemma well_formed_quote_body (s : jsstring) :
  well_formed (JSON.quote_body s) = true.
Proof.
  assert (Hesc : forall c r, c < 65536 -> well_formed r = true ->
                             well_formed (JSON.unicode_escape c ++ r) = true).
  { intros c r Hc Hr. apply well_formed_app; [|exact Hr].
    now apply ascii_well_formed, ascii_unicode_escape. }
  assert (Hsh : forall c x r, JSON.short_escape c = Some x ->
                              well_formed r = true ->
                              well_formed (92 :: x :: r) = true).
  { intros c x r Hx Hr. apply short_escape_ascii, ascii_plain in Hx as [? ?].
    rewrite !well_formed_plain; auto. }
  assert (Hstep : forall c r,
             well_formed (JSON.quote_body r) = true ->
             is_high_surrogate c = false ->
             well_formed (JSON.quote_body (c :: r)) = true).
  { intros c r Hr Hh. cbn [JSON.quote_body].
    destruct (JSON.short_escape c) as [x|] eqn:Hx; [now apply (Hsh c)|].
    destruct (N.ltb_spec c 32); [apply Hesc; [lia|exact Hr]|].
    rewrite Hh. destruct (is_low_surrogate c) eqn:Hl.
    - apply Hesc; [|exact Hr]. unfold is_low_surrogate in Hl.
      apply andb_prop in Hl as [_ Hl%N.leb_le]. lia.
    - now rewrite well_formed_plain. }
  induction s as [|c|c d s IH1 IH2] using list_ind2.
  - reflexivity.
  - destruct (is_high_surrogate c) eqn:Hh; [|now apply Hstep].
    cbn [JSON.quote_body].
    destruct (JSON.short_escape c) as [x|] eqn:Hx; [now apply (Hsh c)|].
    rewrite Hh. unfold is_high_surrogate in Hh.
    apply andb_prop in Hh as [Hlo%N.leb_le Hhi%N.leb_le].
    destruct (N.ltb_spec c 32); [lia|].
    apply ascii_well_formed, ascii_unicode_escape. lia.
  - destruct (is_high_surrogate c) eqn:Hh; [|now apply Hstep].
    destruct (JSON.short_escape c) as [x|] eqn:Hx.
    { cbn [JSON.quote_body]. rewrite Hx. now apply (Hsh c). }
    pose proof Hh as Hh'. unfold is_high_surrogate in Hh'.
    apply andb_prop in Hh' as [Hlo%N.leb_le Hhi%N.leb_le].
    assert (H32 : (c <? 32) = false) by (apply N.ltb_ge; lia).
    rewrite (quote_body_high c d s Hx H32 Hh).
    destruct (is_low_surrogate d) eqn:Hl.
    + cbn [well_formed]. now rewrite Hh, Hl.
    + apply Hesc; [lia|exact IH2].
Qed.

Lemma well_formed_quote (s : jsstring) : well_formed (JSON.quote s) = true.
Proof.
  unfold JSON.quote. rewrite well_formed_plain by reflexivity.
  apply well_formed_app; [apply well_formed_quote_body|reflexivity].
Qed.

Lemma well_formed_join (sep : jsstring) (l : list jsstring) :
  well_formed sep = true -> forallb well_formed l = true ->
  well_formed (join sep l) = true.
Proof.
  intros Hsep. induction l as [|x l IH]; [reflexivity|].
  cbn [forallb]. intros [Hx Hl]%andb_prop. cbn [join].
  destruct l as [|y l]; [exact Hx|].
  apply well_formed_app; [exact Hx|].
  apply well_formed_app; [exact Hsep|now apply IH].
Qed.

(** A value without [BigInt] serializes, and to a well-formed text. *)
Lemma serialize_well_formed (v : jsval) :
  has_bigint v = false ->
  exists p, JSON.serialize v = Ok p
            /\ well_formed (JSON.or_null p) = true
            /\ match v with
               | VUndefined | VFunction | VSymbol => p = None
               | _ => p <> None
               end.
Proof.
  induction v as [| |b|x|s|l IH|o IH| | |] using jsval_ind; intros Hb;
    try discriminate;
    try (eexists; repeat split; reflexivity || discriminate).
  - destruct b; eexists; repeat split; reflexivity || discriminate.
  - eexists. split; [reflexivity|]. split; [|discriminate].
    cbn [JSON.or_null]. destruct (isFinite x); [|reflexivity].
    apply ascii_well_formed, ascii_toString.
  - eexists. split; [reflexivity|]. split; [|discriminate].
    apply well_formed_quote.
  - cbn [has_bigint] in Hb. cbn [JSON.serialize].
    match goal with
    | |- context [bind (?F l) _] =>
        assert (Hparts : exists parts, F l = Ok parts
                                       /\ forallb well_formed parts = true)
    end.
    { induction IH as [|x l Hx _ IHl]; [now exists []|].
      cbn [existsb] in Hb. apply orb_false_iff in Hb as [Hbx Hbl].
      destruct (Hx Hbx) as [p [Hp [Hw _]]].
      destruct (IHl Hbl) as [parts [Hparts Hws]].
      rewrite Hp. cbn [bind]. rewrite Hparts. cbn [bind].
      eexists. split; [reflexivity|]. cbn [forallb]. now rewrite Hw, Hws. }
    destruct Hparts as [parts [-> Hws]]. cbn [bind].
    eexists. split; [reflexivity|]. split; [|discriminate].
    cbn [JSON.or_null]. apply well_formed_app; [reflexivity|].
    apply well_formed_app; [|reflexivity].
    now apply well_formed_join.
  - cbn [has_bigint] in Hb. cbn [JSON.serialize].
    match goal with
    | |- context [bind (?F o) _] =>
        assert (Hparts : exists parts, F o = Ok parts
                                       /\ forallb well_formed parts = true)
    end.
    { induction IH as [|[k x] o Hx _ IHo]; [now exists []|].
      cbn [existsb snd] in Hb. apply orb_false_iff in Hb as [Hbx Hbo].
      destruct (Hx Hbx) as [p [Hp [Hw _]]]. cbn [snd] in Hp.
      destruct (IHo Hbo) as [parts [Hparts Hws]].
      rewrite Hp. cbn [bind]. rewrite Hparts. cbn [bind].
      eexists. split; [reflexivity|]. destruct p as [t|]; [|exact Hws].
      cbn [forallb]. rewrite Hws, andb_true_r.
      apply well_formed_app; [apply well_formed_quote|].
      apply well_formed_app; [reflexivity|exact Hw]. }
    destruct Hparts as [parts [-> Hws]]. cbn [bind].
    eexists. split; [reflexivity|]. split; [|discriminate].
    cbn [JSON.or_null]. apply well_formed_app; [reflexivity|].
    apply well_formed_app; [|reflexivity].
    now apply well_formed_join.
Qed.

Lemma unreserved_ascii (c : char) : unreserved c = true -> c < 128.
Proof.
  unfold unreserved, is_alpha, is_decimal_digit, is_mark. intros Hu.
  repeat match goal with
         | H : (_ || _)%bool = true |- _ => apply orb_prop in H as [H|H]
         | H : (_ && _)%bool = true |- _ => apply andb_prop in H as [? ?]
         | H : (_ <=? _) = true |- _ => apply N.leb_le in H
         | H : (_ =? _) = true |- _ => apply N.eqb_eq in H
         end; lia.
Qed.

Lemma encode_well_formed (s : jsstring) :
  well_formed s = true <-> exists t, URI.encode s = Ok t.
Proof.
  induction s as [|c|c d s IH1 IH2] using list_ind2.
  - split; [now exists []|reflexivity].
  - cbn [well_formed URI.encode].
    destruct (unreserved c) eqn:Hu.
    { pose proof (unreserved_ascii c Hu) as Hc.
      apply ascii_plain in Hc as [-> ->]. simpl. split; eauto. }
    destruct (is_high_surrogate c); [split; [discriminate|now intros [? ?]]|].
    destruct (is_low_surrogate c); simpl; split; eauto; try discriminate.
    now intros [? ?].
  - change (URI.encode (c :: d :: s))
      with (if unreserved c then r <- URI.encode (d :: s) ;; Ok (c :: r)
            else if is_high_surrogate c then
                   if is_low_surrogate d then
                     r <- URI.encode s ;;
                     Ok (escape_code_point (pair_code_point c d) ++ r)
                   else Throw URIError
                 else if is_low_surrogate c then Throw URIError
                      else r <- URI.encode (d :: s) ;;
                           Ok (escape_code_point c ++ r)).
    change (well_formed (c :: d :: s))
      with (if is_high_surrogate c then is_low_surrogate d && well_formed s
            else negb (is_low_surrogate c) && well_formed (d :: s))%bool.
    destruct (unreserved c) eqn:Hu.
    { pose proof (unreserved_ascii c Hu) as Hc.
      apply ascii_plain in Hc as [-> ->]. cbn [negb andb]. rewrite IH2.
      split; [intros [t ->]; simpl; eauto|].
      intros [t [r [Hr _]]%bind_ok]. eauto. }
    destruct (is_high_surrogate c).
    { destruct (is_low_surrogate d); cbn [andb];
        [|split; [discriminate|now intros [? ?]]].
      rewrite IH1. split; [intros [t ->]; simpl; eauto|].
      intros [t [r [Hr _]]%bind_ok]. eauto. }
    destruct (is_low_surrogate c); cbn [negb andb];
      [split; [discriminate|now intros [? ?]]|].
    rewrite IH2. split; [intros [t ->]; simpl; eauto|].
    intros [t [r [Hr _]]%bind_ok]. eauto.
Qed.

End WellFormed.

(** ** The encoder *)

Section Encoder.

Local Open Scope N_scope.




Lemma percent_chars (b : N) :
  b < 256 -> percent_encoded (percent b) = true.
Proof.
  intros H. unfold percent, percent_encoded, hex_upper. cbn [forallb].
  assert (Hx : forall n, n < 16 ->
               (unreserved (if n <? 10 then 48 + n else 55 + n)
                || ((if n <? 10 then 48 + n else 55 + n) =? 37))%bool = true).
  { intros n Hn. apply orb_true_intro. left.
    unfold unreserved, is_alpha, is_decimal_digit.
    destruct (N.ltb_spec n 10).
    - replace ((48 <=? 48 + n) && (48 + n <=? 57))%bool with true
        by (symmetry; apply andb_true_intro; split; apply N.leb_le; lia).
      now rewrite orb_true_r.
    - replace ((65 <=? 55 + n) && (55 + n <=? 90))%bool with true
        by (symmetry; apply andb_true_intro; split; apply N.leb_le; lia).
      reflexivity. }
  rewrite !Hx by lia. reflexivity.
Qed.

Lemma percent_encoded_app (a b : jsstring) :
  percent_encoded (a ++ b) = (percent_encoded a && percent_encoded b)%bool.
Proof. apply forallb_app. Qed.

Lemma escape_chars (cp : N) :
  cp < 0x110000 -> percent_encoded (escape_code_point cp) = true.
Proof.
  intros H. unfold escape_code_point, utf8_encode.
  destruct (N.ltb_spec cp 0x80); [|destruct (N.ltb_spec cp 0x800);
    [|destruct (N.ltb_spec cp 0x10000)]];
    cbn [flat_map]; rewrite ?percent_encoded_app, ?percent_chars by lia;
    reflexivity.
Qed.

Lemma encode_chars (s : jsstring) :
  forallb code_unit s = true ->
  forall t, URI.encode s = Ok t -> percent_encoded t = true.
Proof.
  induction s as [|c|c d s IH1 IH2] using list_ind2; intros Hu t.
  - intros [= <-]. reflexivity.
  - cbn [URI.encode]. cbn [forallb] in Hu.
    apply andb_prop in Hu as [Hc%N.ltb_lt _].
    destruct (unreserved c) eqn:Hcu.
    { intros [= <-]. cbn [percent_encoded forallb]. now rewrite Hcu. }
    destruct (is_high_surrogate c); [discriminate|].
    destruct (is_low_surrogate c); [discriminate|].
    intros [= <-]. rewrite app_nil_r. apply escape_chars. lia.
  - cbn [forallb] in Hu. apply andb_prop in Hu as [Hc Hu].
    pose proof Hu as Hu'. cbn [forallb] in Hu'.
    apply andb_prop in Hu' as [Hd Hu']. apply N.ltb_lt in Hc.
    change (URI.encode (c :: d :: s))
      with (if unreserved c then r <- URI.encode (d :: s) ;; Ok (c :: r)
            else if is_high_surrogate c then
                   if is_low_surrogate d then
                     r <- URI.encode s ;;
                     Ok (escape_code_point (pair_code_point c d) ++ r)
                   else Throw URIError
                 else if is_low_surrogate c then Throw URIError
                      else r <- URI.encode (d :: s) ;;
                           Ok (escape_code_point c ++ r)).
    destruct (unreserved c) eqn:Hcu.
    { intros [r [Hr [= <-]]]%bind_ok. cbn [percent_encoded forallb].
      rewrite Hcu. exact (IH2 Hu r Hr). }
    destruct (is_high_surrogate c) eqn:Hh.
    { destruct (is_low_surrogate d) eqn:Hl; [|discriminate].
      intros [r [Hr [= <-]]]%bind_ok.
      destruct (pair_scalar c d Hh Hl) as [[Hs _] _].
      rewrite percent_encoded_app, escape_chars, (IH1 Hu' r Hr) by assumption.
      reflexivity. }
    destruct (is_low_surrogate c); [discriminate|].
    intros [r [Hr [= <-]]]%bind_ok.
    rewrite percent_encoded_app, escape_chars, (IH2 Hu r Hr) by lia.
    reflexivity.
Qed.

End Encoder.

Section CodeUnits.

Local Open Scope N_scope.

Lemma ascii_code_units (s : jsstring) :
  ascii_only s = true -> forallb code_unit s = true.
Proof.
  unfold ascii_only. rewrite !forallb_forall. intros H c Hc.
  apply H, N.ltb_lt in Hc. apply N.ltb_lt. lia.
Qed.

Lemma code_units_quote_body (s : jsstring) :
  forallb code_unit s = true ->
  forallb code_unit (JSON.quote_body s) = true.
Proof.
  assert (Hesc : forall c, code_unit c = true ->
                           forallb code_unit (JSON.unicode_escape c) = true).
  { intros c Hc%N.ltb_lt. now apply ascii_code_units, ascii_unicode_escape. }
  induction s as [|c|c d s IH1 IH2] using list_ind2.
  - reflexivity.
  - cbn [forallb JSON.quote_body]. intros [Hc _]%andb_prop.
    destruct (JSON.short_escape c) as [x|] eqn:Hx.
    { apply short_escape_ascii in Hx. cbn [forallb].
      assert (code_unit x = true) as -> by (apply N.ltb_lt; lia).
      reflexivity. }
    repeat match goal with
           | |- context [if ?b then _ else _] => destruct b
           end; rewrite ?app_nil_r; try now apply Hesc.
    cbn [forallb]. now rewrite Hc.
  - intros Hu. pose proof Hu as Hu'. cbn [forallb] in Hu'.
    apply andb_prop in Hu' as [Hc [Hd Hs]%andb_prop].
    assert (Hds : forallb code_unit (d :: s) = true)
      by (cbn [forallb]; now rewrite Hd, Hs).
    specialize (IH1 Hs). specialize (IH2 Hds).
    change (JSON.quote_body (c :: d :: s))
      with (match JSON.short_escape c with
            | Some x => 92 :: x :: JSON.quote_body (d :: s)
            | None =>
                if c <? 32
                then JSON.unicode_escape c ++ JSON.quote_body (d :: s)
                else if is_high_surrogate c
                     then if is_low_surrogate d
                          then c :: d :: JSON.quote_body s
                          else JSON.unicode_escape c ++ JSON.quote_body (d :: s)
                     else if is_low_surrogate c
                          then JSON.unicode_escape c ++ JSON.quote_body (d :: s)
                          else c :: JSON.quote_body (d :: s)
            end).
    destruct (JSON.short_escape c) as [x|] eqn:Hx.
    { apply short_escape_ascii in Hx. cbn [forallb]. rewrite IH2.
      assert (code_unit x = true) as -> by (apply N.ltb_lt; lia).
      reflexivity. }
    repeat match goal with
           | |- context [if ?b then _ else _] => destruct b
           end; rewrite ?forallb_app, ?Hesc by assumption;
      cbn [forallb]; rewrite ?Hc, ?Hd, ?IH1, ?IH2; reflexivity.
Qed.

Lemma code_units_quote (s : jsstring) :
  forallb code_unit s = true -> forallb code_unit (JSON.quote s) = true.
Proof.
  intros H. unfold JSON.quote. cbn [forallb].
  rewrite forallb_app, code_units_quote_body by assumption. reflexivity.
Qed.

Lemma code_units_join (sep : jsstring) (l : list jsstring) :
  forallb code_unit sep = true ->
  forallb (forallb code_unit) l = true ->
  forallb code_unit (join sep l) = true.
Proof.
  intros Hsep. induction l as [|x l IH]; [reflexivity|].
  cbn [forallb]. intros [Hx Hl]%andb_prop. cbn [join].
  destruct l as [|y l]; [exact Hx|].
  rewrite !forallb_app, Hx, Hsep, IH by assumption. reflexivity.
Qed.

Lemma serialize_code_units (v : jsval) :
  code_units v = true ->
  forall p, JSON.serialize v = Ok p ->
            forallb code_unit (JSON.or_null p) = true.
Proof.
  induction v as [| |b|x|s|l IH|o IH| | |] using jsval_ind; intros Hu p;
    try (intros [= <-]; reflexivity); try discriminate.
  - destruct b; intros [= <-]; reflexivity.
  - intros [= <-]. cbn [JSON.or_null].
    destruct (isFinite x); [|reflexivity].
    apply ascii_code_units, ascii_toString.
  - intros [= <-]. now apply code_units_quote.
  - cbn [code_units] in Hu. cbn [JSON.serialize].
    intros [parts [Hparts [= <-]]]%bind_ok. cbn [JSON.or_null].
    cbn [forallb]. rewrite forallb_app.
    cbn [forallb js map list_ascii_of_string].
    rewrite andb_true_r. apply code_units_join; [reflexivity|].
    revert parts Hparts.
    induction IH as [|x l Hx _ IHl]; intros parts; [now intros [= <-]|].
    cbn [forallb] in Hu. apply andb_prop in Hu as [Hux Hul].
    intros H. cbn -[bind JSON.serialize JSON.or_null JSON.quote] in H.
    apply bind_ok in H as [q [Hq H]].
    apply bind_ok in H as [qs [Hqs [= <-]]].
    cbn [forallb]. now rewrite (Hx Hux q Hq), (IHl Hul qs Hqs).
  - cbn [code_units] in Hu. cbn [JSON.serialize].
    intros [parts [Hparts [= <-]]]%bind_ok. cbn [JSON.or_null].
    cbn [forallb]. rewrite forallb_app.
    cbn [forallb js map list_ascii_of_string].
    rewrite andb_true_r. apply code_units_join; [reflexivity|].
    revert parts Hparts.
    induction IH as [|[k x] o Hx _ IHo]; intros parts; [now intros [= <-]|].
    cbn [forallb fst snd] in Hu, Hx.
    apply andb_prop in Hu as [[Huk Hux]%andb_prop Huo].
    intros H. cbn -[bind JSON.serialize JSON.or_null JSON.quote] in H.
    apply bind_ok in H as [q [Hq H]].
    apply bind_ok in H as [qs [Hqs [= <-]]].
    specialize (Hx Hux q Hq). specialize (IHo Huo qs Hqs).
    destruct q as [t|]; [|exact IHo]. cbn [forallb].
    rewrite IHo, !forallb_app, code_units_quote_body by assumption.
    cbn [JSON.or_null] in Hx. cbn [forallb]. now rewrite Hx.
Qed.

Lemma encodeValue_chars (v : jsval) (t : jsstring) :
  code_units v = true -> encodeValue v = Ok t -> percent_encoded t = true.
Proof.
  intros Hu.
  assert (Hs : (p <- JSON.stringify v ;;
                encodeURIComponent (match p with
                                    | Some text => text
                                    | None => js "undefined"
                                    end)) = Ok t ->
               percent_encoded t = true).
  { intros [p [Hp Ht]]%bind_ok. apply (serialize_code_units v Hu) in Hp.
    destruct p as [text|]; [now apply (encode_chars _ Hp)|].
    now apply (encode_chars (js "undefined")). }
  destruct v as [| |b|x|[|c s]|l|o| | |]; unfold encodeValue;
    try discriminate; try exact Hs.
  - apply encode_chars. now destruct b.
  - apply encode_chars, ascii_code_units, ascii_toString.
  - now apply encode_chars.
Qed.

End CodeUnits.



(** ** Number literals *)

Section Numbers.

Local Open Scope N_scope.

Lemma char_digit_char (d : digit) : char_digit (digit_char d) = Some d.
Proof. now destruct d. Qed.

Lemma to_of_uint (u : Decimal.uint) : to_uint (of_uint u) = u.
Proof. induction u; simpl; now rewrite ?IHu. Qed.

Lemma digits_nat_digits (n : N) : digits_nat (nat_digits n) = n.
Proof.
  unfold digits_nat, nat_digits. rewrite to_of_uint.
  apply DecimalN.Unsigned.of_to.
Qed.

Lemma nat_digits_nonempty (n : N) : nat_digits n <> [].
Proof.
  unfold nat_digits. destruct n as [|p]; [discriminate|].
  cbn [N.to_uint]. pose proof (DecimalPos.Unsigned.to_uint_nonnil p) as H.
  destruct (Pos.to_uint p); [congruence|discriminate..].
Qed.

Lemma take_digits_string (ds : list digit) (r : jsstring) :
  JSON.no_digit_head r = true ->
  JSON.take_digits (digits_string ds ++ r) = (ds, r).
Proof.
  intros Hr. induction ds as [|d ds IH].
  - destruct r as [|c r]; [reflexivity|]. cbn [app digits_string map].
    cbn [JSON.take_digits]. cbn [JSON.no_digit_head] in Hr.
    now destruct (char_digit c).
  - cbn [digits_string map app JSON.take_digits].
    rewrite char_digit_char. fold (digits_string ds). now rewrite IH.
Qed.

Lemma repeat_zero (n : nat) : repeat 48 n = digits_string (repeat d0 n).
Proof. induction n as [|n IH]; [reflexivity|]. simpl. now rewrite IH. Qed.

Lemma digits_string_app (a b : list digit) :
  digits_string (a ++ b) = digits_string a ++ digits_string b.
Proof. apply map_app. Qed.

Lemma strip_zeros_repeat (n : nat) (ds : list digit) :
  strip_zeros (repeat d0 n ++ ds) = strip_zeros ds.
Proof. induction n as [|n IH]; [reflexivity|exact IH]. Qed.

Lemma strip_zeros_head (d : digit) (ds : list digit) :
  is_d0 d = false -> strip_zeros (d :: ds) = d :: ds.
Proof. now destruct d. Qed.

Lemma rev_repeat {A} (a : A) (n : nat) : rev (repeat a n) = repeat a n.
Proof.
  induction n as [|n IH]; [reflexivity|]. cbn [repeat rev]. rewrite IH.
  clear IH. induction n as [|n IH]; [reflexivity|].
  cbn [repeat app]. now rewrite IH.
Qed.

Lemma significant_rev (ds : list digit) :
  significant ds -> strip_zeros (rev ds) = rev ds /\ rev ds <> [].
Proof.
  intros [d [ds' [-> [_ Hl]]]].
  destruct (exists_last (l := d :: ds')) as [l [x Hx]]; [discriminate|].
  rewrite Hx in *. rewrite last_last in Hl. rewrite rev_app_distr. simpl.
  split; [now apply strip_zeros_head|discriminate].
Qed.

Lemma of_literal_significant (negative : bool) (ip fp ds : list digit)
  (ex : Z) (z : nat) :
  significant ds ->
  strip_zeros (ip ++ fp) = ds ++ repeat d0 z ->
  of_literal negative ip fp ex
  = Finite negative ds (ex - Z.of_nat (length fp) + Z.of_nat z).
Proof.
  intros Hs Hz. destruct (significant_rev Hs) as [Hr Hne].
  unfold of_literal. rewrite Hz, rev_app_distr, rev_repeat.
  rewrite strip_zeros_repeat, Hr.
  destruct (rev ds) as [|x l] eqn:E; [congruence|].
  rewrite <- E, rev_involutive, length_rev, length_app, repeat_length.
  f_equal. lia.
Qed.

Lemma parse_fraction_none (s : jsstring) :
  match s with c :: _ => c <> 46 | [] => True end ->
  JSON.parse_fraction s = Some ([], s).
Proof.
  unfold JSON.parse_fraction. destruct s as [|c s]; [reflexivity|].
  now destruct (N.eqb_spec c 46).
Qed.

Lemma parse_fraction_some (fp : list digit) (r : jsstring) :
  fp <> [] -> JSON.no_digit_head r = true ->
  JSON.parse_fraction (js "." ++ digits_string fp ++ r) = Some (fp, r).
Proof.
  intros Hne Hr. cbn [js map list_ascii_of_string app N_of_ascii].
  change (N_of_ascii ".") with 46. unfold JSON.parse_fraction.
  rewrite take_digits_string by assumption.
  destruct fp; [congruence|reflexivity].
Qed.


Lemma parse_exponent_none (s : jsstring) :
  match s with c :: _ => c <> 101 /\ c <> 69 | [] => True end ->
  JSON.parse_exponent s = Some (0%Z, s).
Proof.
  unfold JSON.parse_exponent. destruct s as [|c s]; [reflexivity|].
  intros [H1 H2].
  destruct (N.eqb_spec c 101); [congruence|].
  destruct (N.eqb_spec c 69); [congruence|]. reflexivity.
Qed.

Lemma parse_exponent_some (z : Z) (r : jsstring) :
  JSON.no_digit_head r = true ->
  JSON.parse_exponent (exponent_string z ++ r) = Some (z, r).
Proof.
  intros Hr. unfold exponent_string.
  pose proof (nat_digits_nonempty (Z.abs_N z)) as Hne.
  set (nd := nat_digits (Z.abs_N z)) in *.
  assert (Hx : Z.of_N (digits_nat nd) = Z.abs z).
  { subst nd. rewrite digits_nat_digits. lia. }
  destruct (Z.ltb_spec z 0) as [Hz|Hz].
  - change ((js "e" ++ js "-" ++ digits_string nd) ++ r)
      with (101 :: 45 :: digits_string nd ++ r).
    unfold JSON.parse_exponent. cbn [N.eqb Pos.eqb orb].
    rewrite take_digits_string by assumption.
    destruct nd as [|x l] eqn:E; [congruence|]. rewrite Hx.
    f_equal. f_equal. lia.
  - change ((js "e" ++ js "+" ++ digits_string nd) ++ r)
      with (101 :: 43 :: digits_string nd ++ r).
    unfold JSON.parse_exponent. cbn [N.eqb Pos.eqb orb].
    rewrite take_digits_string by assumption.
    destruct nd as [|x l] eqn:E; [congruence|]. rewrite Hx.
    f_equal. f_equal. lia.
Qed.

Lemma parse_number_parts (negative : bool) (d : digit)
  (ip' fp : list digit) (ex : Z) (s2 s3 s4 : jsstring) :
  is_d0 d = false \/ ip' = [] ->
  JSON.no_digit_head s2 = true ->
  JSON.parse_fraction s2 = Some (fp, s3) ->
  JSON.parse_exponent s3 = Some (ex, s4) ->
  JSON.parse_number
    ((if negative then js "-" else []) ++ digits_string (d :: ip') ++ s2)
  = Some (of_literal negative (d :: ip') fp ex, s4).
Proof.
  intros Hd Hs2 Hf He. unfold JSON.parse_number.
  assert (Hip : match d :: ip' with
                | [] => None
                | d0 :: _ :: _ => None
                | _ => Some (of_literal negative (d :: ip') fp ex, s4)
                end = Some (of_literal negative (d :: ip') fp ex, s4)).
  { destruct Hd as [Hd| ->]; destruct d; try discriminate; reflexivity. }
  destruct negative.
  - change (js "-" ++ digits_string (d :: ip') ++ s2)
      with (45 :: digits_string (d :: ip') ++ s2).
    cbn [N.eqb Pos.eqb].
    rewrite take_digits_string, Hf, He by assumption.
    destruct Hd as [Hd| ->]; destruct d; try discriminate; reflexivity.
  - change ([] ++ digits_string (d :: ip') ++ s2)
      with (digit_char d :: digits_string ip' ++ s2).
    assert (H45 : (digit_char d =? 45) = false) by now destruct d.
    cbv beta iota. rewrite H45.
    change (digit_char d :: digits_string ip' ++ s2)
      with (digits_string (d :: ip') ++ s2).
    rewrite take_digits_string, Hf, He by assumption.
    destruct Hd as [Hd| ->]; destruct d; try discriminate; reflexivity.
Qed.

Lemma delimited_head (rest : jsstring) :
  JSON.delimited rest = true ->
  JSON.no_digit_head rest = true
  /\ match rest with
     | c :: _ => c <> 46 /\ c <> 101 /\ c <> 69 /\ JSON.is_ws c = false
     | [] => True
     end.
Proof.
  destruct rest as [|c rest]; [easy|]. cbn [JSON.delimited].
  intros [[->%N.eqb_eq| ->%N.eqb_eq]%orb_prop| ->%N.eqb_eq]%orb_prop;
    repeat split; discriminate.
Qed.

Lemma significant_canonical (negative : bool) (d : digit)
  (ds : list digit) (e : Z) :
  canonical (Finite negative (d :: ds) e) = true -> significant (d :: ds).
Proof.
  cbn [canonical]. intros [H1 H2]%andb_prop.
  apply negb_true_iff in H1, H2. now exists d, ds.
Qed.

(** Reading back what [Number::toString] printed. *)
Lemma parse_toString_finite (negative : bool) (d : digit)
  (ds : list digit) (e : Z) (rest : jsstring) :
  canonical (Finite negative (d :: ds) e) = true ->
  JSON.delimited rest = true ->
  JSON.parse_number
    ((if negative then js "-" else []) ++ toString_finite (d :: ds) e ++ rest)
  = Some (Finite negative (d :: ds) e, rest).
Proof.
  intros Hc Hrest. pose proof (significant_canonical _ _ _ _ Hc) as Hs.
  destruct (delimited_head rest Hrest) as [Hnd Hhead].
  assert (Hd : is_d0 d = false).
  { destruct Hs as [d' [ds' [[= <- <-] [H _]]]]. exact H. }
  assert (Hfn : JSON.parse_fraction rest = Some ([], rest)).
  { apply parse_fraction_none. destruct rest; tauto. }
  assert (Hen : JSON.parse_exponent rest = Some (0%Z, rest)).
  { apply parse_exponent_none. destruct rest; tauto. }
  unfold toString_finite.
  set (k := Z.of_nat (length (d :: ds))).
  assert (Hk : (1 <= k)%Z) by (subst k; cbn [length]; lia).
  destruct ((k <=? k + e)%Z && (k + e <=? 21)%Z)%bool eqn:HA.
  { (* digits followed by zeros *)
    apply andb_prop in HA as [H1%Z.leb_le H2%Z.leb_le].
    rewrite repeat_zero, <- app_assoc, (app_assoc (digits_string _)),
      <- digits_string_app.
    cbn [app]. rewrite (@parse_number_parts negative d
                          (ds ++ repeat d0 (Z.to_nat (k + e - k)))
                          [] 0%Z rest rest rest); auto.
    f_equal. f_equal.
    rewrite (@of_literal_significant negative _ _ _ 0%Z
               (Z.to_nat (k + e - k)) Hs).
    - f_equal. cbn [length]. lia.
    - rewrite app_nil_r. cbn [app]. now apply strip_zeros_head. }
  destruct ((0 <? k + e)%Z && (k + e <=? 21)%Z)%bool eqn:HB.
  { (* a decimal point inside the digits *)
    apply andb_prop in HB as [H1%Z.ltb_lt H2%Z.leb_le].
    apply andb_false_iff in HA as [HA%Z.leb_gt|HA%Z.leb_gt]; [|lia].
    remember (Z.to_nat (k + e)) as n eqn:En.
    assert (Hn : (1 <= n < length (d :: ds))%nat) by (subst n k; lia).
    destruct n as [|m]; [lia|]. cbn [firstn].
    rewrite <- !app_assoc.
    rewrite (@parse_number_parts negative d (firstn m ds)
               (skipn (S m) (d :: ds)) 0%Z _ rest rest); auto.
    - f_equal. f_equal.
      rewrite (@of_literal_significant negative _ _ _ 0%Z 0%nat Hs).
      + f_equal. rewrite length_skipn. lia.
      + cbn [skipn repeat]. rewrite app_nil_r.
        change ((d :: firstn m ds) ++ skipn m ds)
          with (d :: (firstn m ds ++ skipn m ds)).
        rewrite firstn_skipn. now apply strip_zeros_head.
    - apply parse_fraction_some; [|assumption].
      intros H%(f_equal (@length _)). rewrite length_skipn in H.
      cbn [length] in *. lia. }
  destruct ((-6 <? k + e)%Z && (k + e <=? 0)%Z)%bool eqn:HC.
  { (* zero, point, zeros, digits *)
    apply andb_prop in HC as [H1%Z.ltb_lt H2%Z.leb_le].
    change (js "0.") with (digits_string [d0] ++ js ".").
    rewrite repeat_zero, <- !app_assoc.
    rewrite (app_assoc (digits_string (repeat d0 _))),
      <- digits_string_app.
    rewrite (@parse_number_parts negative d0 []
               (repeat d0 (Z.to_nat (- (k + e))) ++ d :: ds) 0%Z
               _ rest rest); auto.
    - f_equal. f_equal.
      rewrite (@of_literal_significant negative _ _ _ 0%Z 0%nat Hs).
      + f_equal. rewrite length_app, repeat_length. fold k. lia.
      + cbn [app repeat strip_zeros]. rewrite app_nil_r.
        rewrite strip_zeros_repeat. now apply strip_zeros_head.
    - apply parse_fraction_some; [|assumption].
      now destruct (repeat d0 (Z.to_nat (- (k + e)))). }
  (* scientific notation *)
  assert (Hexp : JSON.no_digit_head (exponent_string (k + e - 1) ++ rest)
                 = true) by reflexivity.
  destruct ds as [|d' ds].
  - rewrite <- app_assoc.
    rewrite (@parse_number_parts negative d [] [] (k + e - 1)%Z
               _ (exponent_string (k + e - 1) ++ rest) rest); auto.
    + f_equal. f_equal.
      rewrite (@of_literal_significant negative _ _ _ _ 0%nat Hs);
        [|apply strip_zeros_head; assumption].
      f_equal. subst k. cbn [length]. lia.
    + now apply parse_exponent_some.
  - rewrite <- !app_assoc.
    rewrite (@parse_number_parts negative d [] (d' :: ds) (k + e - 1)%Z
               _ (exponent_string (k + e - 1) ++ rest) rest); auto.
    + f_equal. f_equal.
      rewrite (@of_literal_significant negative _ _ _ _ 0%nat Hs).
      * f_equal. subst k. cbn [length]. lia.
      * cbn [app repeat]. rewrite app_nil_r. now apply strip_zeros_head.
    + apply parse_fraction_some; [discriminate|exact Hexp].
    + now apply parse_exponent_some.
Qed.

End Numbers.

(** ** String literals *)

Section StringLiterals.

Local Open Scope N_scope.

Lemma hex_value_lower (n : N) :
  n < 16 -> hex_value (JSON.hex_lower n) = Some n.
Proof.
  intros H. unfold JSON.hex_lower, hex_value.
  destruct (N.ltb_spec n 10).
  - replace ((48 <=? 48 + n) && (48 + n <=? 57))%bool with true
      by (symmetry; apply andb_true_intro; split; apply N.leb_le; lia).
    f_equal. lia.
  - replace ((48 <=? 87 + n) && (87 + n <=? 57))%bool with false
      by (symmetry; apply andb_false_iff; right; apply N.leb_gt; lia).
    replace ((65 <=? 87 + n) && (87 + n <=? 70))%bool with false
      by (symmetry; apply andb_false_iff; right; apply N.leb_gt; lia).
    replace ((97 <=? 87 + n) && (87 + n <=? 102))%bool with true
      by (symmetry; apply andb_true_intro; split; apply N.leb_le; lia).
    f_equal. lia.
Qed.

Lemma parse_string_plain (c : char) (s : jsstring) :
  c <> 34 -> c <> 92 -> 32 <= c ->
  JSON.parse_string_body (c :: s) = JSON.consed c (JSON.parse_string_body s).
Proof.
  intros H1 H2 H3. cbn [JSON.parse_string_body].
  destruct (N.eqb_spec c 34); [congruence|].
  destruct (N.eqb_spec c 92); [congruence|].
  destruct (N.ltb_spec c 32); [lia|]. reflexivity.
Qed.

Lemma short_escape_cases (c x : char) :
  JSON.short_escape c = Some x ->
  (c = 8 /\ x = 98) \/ (c = 9 /\ x = 116) \/ (c = 10 /\ x = 110)
  \/ (c = 12 /\ x = 102) \/ (c = 13 /\ x = 114) \/ (c = 34 /\ x = 34)
  \/ (c = 92 /\ x = 92).
Proof.
  unfold JSON.short_escape.
  repeat match goal with
         | |- context [?a =? ?b] => destruct (N.eqb_spec a b)
         end; intros [= <-]; tauto.
Qed.

Lemma short_escape_none (c : char) :
  JSON.short_escape c = None -> c <> 34 /\ c <> 92.
Proof.
  unfold JSON.short_escape.
  repeat match goal with
         | |- context [?a =? ?b] => destruct (N.eqb_spec a b)
         end; try discriminate. auto.
Qed.

Lemma parse_string_short (c x : char) (s : jsstring) :
  JSON.short_escape c = Some x ->
  JSON.parse_string_body (92 :: x :: s)
  = JSON.consed c (JSON.parse_string_body s).
Proof.
  intros H. apply short_escape_cases in H.
  destruct H as [[-> ->]|[[-> ->]|[[-> ->]|[[-> ->]|[[-> ->]|[[-> ->]|[-> ->]]]]]]];
    reflexivity.
Qed.

Lemma parse_string_unicode (c : char) (s : jsstring) :
  c < 65536 ->
  JSON.parse_string_body (JSON.unicode_escape c ++ s)
  = JSON.consed c (JSON.parse_string_body s).
Proof.
  intros H. unfold JSON.unicode_escape.
  cbn [app JSON.parse_string_body N.eqb Pos.eqb].
  change (JSON.unescape 117) with (@None char). cbv beta iota.
  unfold JSON.hex4. rewrite !hex_value_lower by lia.
  replace (((c / 4096 * 16 + c / 256 mod 16) * 16 + c / 16 mod 16) * 16
           + c mod 16) with c by lia.
  reflexivity.
Qed.

Lemma parse_string_end (rest : jsstring) :
  JSON.parse_string_body (34 :: rest) = Some ([], rest).
Proof. reflexivity. Qed.

Lemma surrogate_plain (c : char) :
  is_high_surrogate c = true \/ is_low_surrogate c = true ->
  c <> 34 /\ c <> 92 /\ 32 <= c.
Proof.
  unfold is_high_surrogate, is_low_surrogate.
  intros [[H _]%andb_prop|[H _]%andb_prop]; apply N.leb_le in H; lia.
Qed.

(** Reading back what [QuoteJSONString] wrote. *)
Lemma parse_quote_body (s rest : jsstring) :
  forallb code_unit s = true ->
  JSON.parse_string_body (JSON.quote_body s ++ 34 :: rest) = Some (s, rest).
Proof.
  assert (Hstep : forall c r,
             code_unit c = true -> is_high_surrogate c = false ->
             JSON.parse_string_body (JSON.quote_body r ++ 34 :: rest)
             = Some (r, rest) ->
             JSON.parse_string_body (JSON.quote_body (c :: r) ++ 34 :: rest)
             = Some (c :: r, rest)).
  { intros c r Hc%N.ltb_lt Hh Hr. cbn [JSON.quote_body].
    destruct (JSON.short_escape c) as [x|] eqn:Hx.
    { cbn [app]. now rewrite (@parse_string_short c x _ Hx), Hr. }
    destruct (N.ltb_spec c 32).
    { now rewrite <- app_assoc, parse_string_unicode, Hr. }
    rewrite Hh. destruct (is_low_surrogate c).
    { now rewrite <- app_assoc, parse_string_unicode, Hr. }
    apply short_escape_none in Hx as [? ?]. cbn [app].
    now rewrite parse_string_plain, Hr. }
  induction s as [|c|c d s IH1 IH2] using list_ind2; intros Hu.
  - reflexivity.
  - cbn [forallb] in Hu. apply andb_prop in Hu as [Hc _].
    destruct (is_high_surrogate c) eqn:Hh; [|now apply Hstep].
    cbn [JSON.quote_body].
    destruct (JSON.short_escape c) as [x|] eqn:Hx.
    { apply short_escape_cases in Hx. unfold is_high_surrogate in Hh.
      apply andb_prop in Hh as [Hh%N.leb_le _]. lia. }
    destruct (surrogate_plain c (or_introl Hh)) as [_ [_ H32]].
    destruct (N.ltb_spec c 32); [lia|]. rewrite Hh.
    apply N.ltb_lt in Hc. now rewrite parse_string_unicode.
  - pose proof Hu as Hu'. cbn [forallb] in Hu'.
    apply andb_prop in Hu' as [Hc [Hd Hs]%andb_prop].
    assert (Hds : forallb code_unit (d :: s) = true)
      by (cbn [forallb]; now rewrite Hd, Hs).
    destruct (is_high_surrogate c) eqn:Hh; [|now apply Hstep; auto].
    destruct (JSON.short_escape c) as [x|] eqn:Hx.
    { apply short_escape_cases in Hx. unfold is_high_surrogate in Hh.
      apply andb_prop in Hh as [Hh%N.leb_le _]. lia. }
    destruct (surrogate_plain c (or_introl Hh)) as [H34 [H92 H32]].
    assert (Hlt : (c <? 32) = false) by (apply N.ltb_ge; lia).
    rewrite (@quote_body_high c d s Hx Hlt Hh).
    destruct (is_low_surrogate d) eqn:Hl.
    + destruct (surrogate_plain d (or_intror Hl)) as [? [? ?]].
      cbn [app]. rewrite !parse_string_plain by assumption.
      now rewrite (IH1 Hs).
    + apply N.ltb_lt in Hc.
      now rewrite <- app_assoc, parse_string_unicode, (IH2 Hds).
Qed.

Lemma parse_quote (s rest : jsstring) :
  forallb code_unit s = true ->
  exists body, JSON.quote s ++ rest = 34 :: body
               /\ JSON.parse_string_body body = Some (s, rest).
Proof.
  intros H. exists (JSON.quote_body s ++ 34 :: rest). split.
  - unfold JSON.quote. cbn [app]. now rewrite <- app_assoc.
  - now apply parse_quote_body.
Qed.

End StringLiterals.

(** ** Fuel *)

(** The parser of [JSON.parse] never fails for want of fuel: a parse that
    succeeds with some fuel succeeds with the fuel [JSON.parse] gives. *)
Section Fuel.

Local Open Scope N_scope.

Lemma parse_value_S (fuel : nat) (s : jsstring) :
  JSON.parse_value (S fuel) s
  = JSON.value_step (JSON.parse_elements fuel) (JSON.parse_members fuel) s.
Proof. reflexivity. Qed.

Lemma parse_elements_S (fuel : nat) (s : jsstring) :
  JSON.parse_elements (S fuel) s
  = JSON.elements_step (JSON.parse_value fuel) (JSON.parse_elements fuel) s.
Proof. reflexivity. Qed.

Lemma parse_members_S (fuel : nat) (s : jsstring) (acc : object) :
  JSON.parse_members (S fuel) s acc
  = JSON.members_step (JSON.parse_value fuel) (JSON.parse_members fuel) s acc.
Proof. reflexivity. Qed.

Lemma value_step_mono elements elements' members members' s r :
  (forall s r, elements s = Some r -> elements' s = Some r) ->
  (forall s acc r, members s acc = Some r -> members' s acc = Some r) ->
  JSON.value_step elements members s = Some r ->
  JSON.value_step elements' members' s = Some r.
Proof.
  intros He Hm. unfold JSON.value_step.
  destruct (JSON.skip_ws s) as [|c t]; [discriminate|].
  destruct (N.eqb c 34); [easy|].
  destruct (N.eqb c 91).
  { destruct (JSON.closing 93 (JSON.skip_ws t)); [easy|].
    destruct (elements t) as [[vs r']|] eqn:E; [|discriminate].
    now rewrite (He _ _ E). }
  destruct (N.eqb c 123); [|easy].
  destruct (JSON.closing 125 (JSON.skip_ws t)); [easy|].
  destruct (members t []) as [[o r']|] eqn:E; [|discriminate].
  now rewrite (Hm _ _ _ E).
Qed.

Lemma elements_step_mono value_ value_' elements elements' s r :
  (forall s r, value_ s = Some r -> value_' s = Some r) ->
  (forall s r, elements s = Some r -> elements' s = Some r) ->
  JSON.elements_step value_ elements s = Some r ->
  JSON.elements_step value_' elements' s = Some r.
Proof.
  intros Hv He. unfold JSON.elements_step.
  destruct (value_ s) as [[v t]|] eqn:E; [|discriminate].
  rewrite (Hv _ _ E).
  destruct (JSON.skip_ws t) as [|c t']; [discriminate|].
  destruct (N.eqb c 44); [|easy].
  destruct (elements t') as [[vs r']|] eqn:E'; [|discriminate].
  now rewrite (He _ _ E').
Qed.

Lemma members_step_mono value_ value_' members members' s acc r :
  (forall s r, value_ s = Some r -> value_' s = Some r) ->
  (forall s acc r, members s acc = Some r -> members' s acc = Some r) ->
  JSON.members_step value_ members s acc = Some r ->
  JSON.members_step value_' members' s acc = Some r.
Proof.
  intros Hv Hm. unfold JSON.members_step.
  destruct (JSON.closing 34 (JSON.skip_ws s)) as [t|]; [|discriminate].
  destruct (JSON.parse_string_body t) as [[k t1]|]; [|discriminate].
  destruct (JSON.closing 58 (JSON.skip_ws t1)) as [t2|]; [|discriminate].
  destruct (value_ t2) as [[v t3]|] eqn:E; [|discriminate].
  rewrite (Hv _ _ E).
  destruct (JSON.skip_ws t3) as [|c t4]; [discriminate|].
  destruct (N.eqb c 44); [|easy]. apply Hm.
Qed.

Lemma parse_fuel_S (fuel : nat) :
  (forall s r, JSON.parse_value fuel s = Some r ->
               JSON.parse_value (S fuel) s = Some r)
  /\ (forall s r, JSON.parse_elements fuel s = Some r ->
                  JSON.parse_elements (S fuel) s = Some r)
  /\ (forall s acc r, JSON.parse_members fuel s acc = Some r ->
                      JSON.parse_members (S fuel) s acc = Some r).
Proof.
  induction fuel as [|fuel [IHv [IHe IHm]]].
  { repeat split; intros; discriminate. }
  repeat split.
  - intros s r. rewrite !parse_value_S. now apply value_step_mono.
  - intros s r. rewrite !parse_elements_S. now apply elements_step_mono.
  - intros s acc r. rewrite !parse_members_S. now apply members_step_mono.
Qed.

Lemma parse_fuel_le (fuel fuel' : nat) :
  (fuel <= fuel')%nat ->
  (forall s r, JSON.parse_value fuel s = Some r ->
               JSON.parse_value fuel' s = Some r)
  /\ (forall s r, JSON.parse_elements fuel s = Some r ->
                  JSON.parse_elements fuel' s = Some r)
  /\ (forall s acc r, JSON.parse_members fuel s acc = Some r ->
                      JSON.parse_members fuel' s acc = Some r).
Proof.
  induction 1 as [|fuel' _ [IHv [IHe IHm]]]; [auto|].
  destruct (parse_fuel_S fuel') as [Hv [He Hm]].
  repeat split; intros; auto.
Qed.

Lemma skip_ws_length (s : jsstring) :
  (length (JSON.skip_ws s) <= length s)%nat.
Proof.
  induction s as [|c s IH]; [reflexivity|]. cbn [JSON.skip_ws].
  destruct (JSON.is_ws c); cbn [length]; lia.
Qed.

Lemma closing_length (c : char) (s r : jsstring) :
  JSON.closing c s = Some r -> length s = S (length r).
Proof.
  destruct s as [|d s]; [discriminate|]. cbn [JSON.closing].
  destruct (d =? c); [|discriminate]. now intros [= ->].
Qed.

Lemma strip_prefix_length (p s r : jsstring) :
  JSON.strip_prefix p s = Some r -> length s = (length p + length r)%nat.
Proof.
  revert s. induction p as [|c p IH]; intros s; [now intros [= ->]|].
  destruct s as [|d s]; [discriminate|]. cbn [JSON.strip_prefix].
  destruct (c =? d); [|discriminate]. intros H%IH. cbn [length]. lia.
Qed.

Lemma consed_some (c : char) (r : option (jsstring * jsstring))
  (x rest : jsstring) :
  JSON.consed c r = Some (x, rest) ->
  exists y, r = Some (y, rest).
Proof.
  destruct r as [[y rest']|]; [|discriminate]. intros [= _ ->]. eauto.
Qed.

Lemma parse_string_body_length (s : jsstring) :
  forall x rest, JSON.parse_string_body s = Some (x, rest) ->
                 (length rest < length s)%nat.
Proof.
  induction s as [s IH] using (induction_ltof1 _ (@length _)).
  unfold ltof in IH. intros x rest.
  destruct s as [|c s]; [discriminate|]. cbn [JSON.parse_string_body].
  destruct (c =? 34); [intros [= _ ->]; cbn [length]; lia|].
  destruct (c =? 92).
  - destruct s as [|e s2]; [discriminate|].
    destruct (JSON.unescape e).
    + destruct (JSON.parse_string_body s2) as [[y r]|] eqn:E; [|discriminate].
      intros [= _ ->]. apply IH in E; cbn [length] in *; lia.
    + destruct (e =? 117); [|discriminate].
      destruct s2 as [|h1 [|h2 [|h3 [|h4 s6]]]]; try discriminate.
      destruct (JSON.hex4 h1 h2 h3 h4); [|discriminate].
      destruct (JSON.parse_string_body s6) as [[y r]|] eqn:E; [|discriminate].
      intros [= _ ->]. apply IH in E; cbn [length] in *; lia.
  - destruct (c <? 32); [discriminate|].
    destruct (JSON.parse_string_body s) as [[y r]|] eqn:E; [|discriminate].
    intros [= _ ->]. apply IH in E; cbn [length] in *; lia.
Qed.

Lemma take_digits_length (s : jsstring) :
  (length (snd (JSON.take_digits s)) + length (fst (JSON.take_digits s))
   = length s)%nat.
Proof.
  induction s as [|c s IH]; [reflexivity|]. cbn [JSON.take_digits].
  destruct (char_digit c); [|cbn [fst snd length]; lia].
  destruct (JSON.take_digits s) as [ds r]. cbn [fst snd length] in *. lia.
Qed.

Lemma parse_fraction_length (s : jsstring) (fp : list digit) (r : jsstring) :
  JSON.parse_fraction s = Some (fp, r) -> (length r <= length s)%nat.
Proof.
  unfold JSON.parse_fraction. destruct s as [|c s]; [now intros [= _ <-]|].
  destruct (c =? 46); [|now intros [= _ <-]].
  pose proof (take_digits_length s) as H.
  destruct (JSON.take_digits s) as [[|d ds] t]; [discriminate|].
  intros [= _ <-]. cbn [fst snd length] in *. lia.
Qed.

Lemma parse_exponent_length (s : jsstring) (ex : Z) (r : jsstring) :
  JSON.parse_exponent s = Some (ex, r) -> (length r <= length s)%nat.
Proof.
  unfold JSON.parse_exponent. destruct s as [|c s]; [now intros [= _ <-]|].
  destruct ((c =? 101) || (c =? 69))%bool; [|now intros [= _ <-]].
  assert (H : forall t, (length t <= length s)%nat ->
              match JSON.take_digits t with
              | ([], _) => True
              | (_ :: _, r') => (length r' <= length (c :: s))%nat
              end).
  { intros t Ht. pose proof (take_digits_length t) as H.
    destruct (JSON.take_digits t) as [[|d ds] r']; [exact I|].
    cbn [fst snd length] in *. lia. }
  destruct s as [|d s].
  - cbn. discriminate.
  - destruct (d =? 45); [|destruct (d =? 43)].
    + specialize (H s). cbn [length] in H.
      destruct (JSON.take_digits s) as [[|x ds] r']; [discriminate|].
      intros [= _ <-]. cbn [length]. apply H. lia.
    + specialize (H s). cbn [length] in H.
      destruct (JSON.take_digits s) as [[|x ds] r']; [discriminate|].
      intros [= _ <-]. cbn [length]. apply H. lia.
    + specialize (H (d :: s) (le_n _)).
      destruct (JSON.take_digits (d :: s)) as [[|x ds] r']; [discriminate|].
      intros [= _ <-]. exact H.
Qed.

Lemma parse_number_length (s : jsstring) (x : number) (rest : jsstring) :
  JSON.parse_number s = Some (x, rest) -> (length rest < length s)%nat.
Proof.
  unfold JSON.parse_number.
  assert (Hgen : forall negative t,
             (length t <= length s)%nat ->
             match JSON.take_digits t with
             | ([], _) => None
             | (d0 :: _ :: _, _) => None
             | (ip, s2) =>
                 match JSON.parse_fraction s2 with
                 | Some (fp, s3) =>
                     match JSON.parse_exponent s3 with
                     | Some (ex, s4) =>
                         Some (of_literal negative ip fp ex, s4)
                     | None => None
                     end
                 | None => None
                 end
             end = Some (x, rest) ->
             (length rest < length t)%nat).
  { intros negative t _. pose proof (take_digits_length t) as Ht.
    destruct (JSON.take_digits t) as [ip s2]. cbn [fst snd] in Ht.
    assert (Hk : forall ip',
               ip' <> [] -> length ip' = length ip ->
               match JSON.parse_fraction s2 with
               | Some (fp, s3) =>
                   match JSON.parse_exponent s3 with
                   | Some (ex, s4) =>
                       Some (of_literal negative ip' fp ex, s4)
                   | None => None
                   end
               | None => None
               end = Some (x, rest) -> (length rest < length t)%nat).
    { intros ip' Hne Hl.
      destruct (JSON.parse_fraction s2) as [[fp s3]|] eqn:Ef; [|discriminate].
      destruct (JSON.parse_exponent s3) as [[ex s4]|] eqn:Ee; [|discriminate].
      intros [= _ <-]. apply parse_fraction_length in Ef.
      apply parse_exponent_length in Ee.
      destruct ip; [now destruct ip'|]. cbn [length] in *. lia. }
    destruct ip as [|d [|d' ip]]; [discriminate| |].
    - destruct d; apply Hk; (discriminate || reflexivity).
    - destruct d; try discriminate; apply Hk; (discriminate || reflexivity). }
  destruct s as [|c s]; [discriminate|].
  destruct (c =? 45).
  - intros H. apply Hgen in H; cbn [length] in *; lia.
  - intros H. apply Hgen in H; cbn [length] in *; lia.
Qed.

(** With fuel for the characters it consumes, a parse gives the same
    result. *)
Lemma parse_fuel_consumed (fuel : nat) :
  (forall s v rest,
      JSON.parse_value fuel s = Some (v, rest) ->
      (length rest < length s)%nat
      /\ JSON.parse_value (length s - length rest) s = Some (v, rest))
  /\ (forall s vs rest,
         JSON.parse_elements fuel s = Some (vs, rest) ->
         (length rest < length s)%nat
         /\ JSON.parse_elements (length s - length rest) s = Some (vs, rest))
  /\ (forall s acc o rest,
         JSON.parse_members fuel s acc = Some (o, rest) ->
         (length rest < length s)%nat
         /\ JSON.parse_members (length s - length rest) s acc
            = Some (o, rest)).
Proof.
  induction fuel as [|fuel [IHv [IHe IHm]]].
  { repeat split; intros; discriminate. }
  split; [|split].
  - intros s v rest H. rewrite parse_value_S in H.
    assert (Hlt : (length rest < length s)%nat
                  /\ forall m, (length s - length rest <= S m)%nat ->
                               JSON.value_step (JSON.parse_elements m)
                                 (JSON.parse_members m) s = Some (v, rest)).
    { unfold JSON.value_step in *. pose proof (skip_ws_length s) as Hws.
      destruct (JSON.skip_ws s) as [|c t]; [discriminate|].
      cbn [length] in Hws.
      destruct (c =? 34).
      { destruct (JSON.parse_string_body t) as [[x r]|] eqn:E; [|discriminate].
        injection H as <- <-. apply parse_string_body_length in E.
        split; [lia|reflexivity]. }
      destruct (c =? 91).
      { pose proof (skip_ws_length t) as Hwt.
        destruct (JSON.closing 93 (JSON.skip_ws t)) as [r|] eqn:E.
        { injection H as <- <-. apply closing_length in E.
          split; [lia|reflexivity]. }
        destruct (JSON.parse_elements fuel t) as [[vs r]|] eqn:Ee;
          [|discriminate].
        injection H as <- <-. destruct (IHe _ _ _ Ee) as [Hl He].
        split; [lia|]. intros m Hm.
        destruct (@parse_fuel_le (length t - length r)%nat m) as [_ [Hle _]];
          [lia|].
        now rewrite (Hle _ _ He). }
      destruct (c =? 123).
      { pose proof (skip_ws_length t) as Hwt.
        destruct (JSON.closing 125 (JSON.skip_ws t)) as [r|] eqn:E.
        { injection H as <- <-. apply closing_length in E.
          split; [lia|reflexivity]. }
        destruct (JSON.parse_members fuel t []) as [[o r]|] eqn:Em;
          [|discriminate].
        injection H as <- <-. destruct (IHm _ _ _ _ Em) as [Hl Hm'].
        split; [lia|]. intros m Hm.
        destruct (@parse_fuel_le (length t - length r)%nat m) as [_ [_ Hle]];
          [lia|].
        now rewrite (Hle _ _ _ Hm'). }
      destruct (JSON.strip_prefix (js "null") (c :: t)) as [r|] eqn:E1.
      { injection H as <- <-. apply strip_prefix_length in E1.
        cbn [length js map list_ascii_of_string] in E1.
        split; [lia|reflexivity]. }
      destruct (JSON.strip_prefix (js "true") (c :: t)) as [r|] eqn:E2.
      { injection H as <- <-. apply strip_prefix_length in E2.
        cbn [length js map list_ascii_of_string] in E2.
        split; [lia|reflexivity]. }
      destruct (JSON.strip_prefix (js "false") (c :: t)) as [r|] eqn:E3.
      { injection H as <- <-. apply strip_prefix_length in E3.
        cbn [length js map list_ascii_of_string] in E3.
        split; [lia|reflexivity]. }
      destruct (JSON.parse_number (c :: t)) as [[x r]|] eqn:E4;
        [|discriminate].
      injection H as <- <-. apply parse_number_length in E4.
      cbn [length] in E4. split; [lia|reflexivity]. }
    destruct Hlt as [Hlt Hm]. split; [exact Hlt|].
    destruct (length s - length rest)%nat as [|m] eqn:En; [lia|].
    rewrite parse_value_S. apply Hm. lia.
  - intros s vs rest H. rewrite parse_elements_S in H.
    assert (Hlt : (length rest < length s)%nat
                  /\ forall m, (length s - length rest <= S m)%nat ->
                               JSON.elements_step (JSON.parse_value m)
                                 (JSON.parse_elements m) s = Some (vs, rest)).
    { unfold JSON.elements_step in *.
      destruct (JSON.parse_value fuel s) as [[v t]|] eqn:Ev; [|discriminate].
      destruct (IHv _ _ _ Ev) as [Hl Hv].
      pose proof (skip_ws_length t) as Hwt.
      destruct (JSON.skip_ws t) as [|c t'] eqn:Es; [discriminate|].
      cbn [length] in Hwt.
      destruct (c =? 44) eqn:Ec.
      - destruct (JSON.parse_elements fuel t') as [[ws r]|] eqn:Ee;
          [|discriminate].
        injection H as <- <-. destruct (IHe _ _ _ Ee) as [Hl' He].
        split; [lia|]. intros m Hm.
        destruct (@parse_fuel_le (length s - length t)%nat m) as [Hle _]; [lia|].
        rewrite (Hle _ _ Hv). cbv beta iota. rewrite Es, Ec.
        destruct (@parse_fuel_le (length t' - length r)%nat m) as [_ [Hle' _]];
          [lia|].
        now rewrite (Hle' _ _ He).
      - destruct (c =? 93) eqn:Ec'; [|discriminate]. injection H as <- <-.
        split; [lia|]. intros m Hm.
        destruct (@parse_fuel_le (length s - length t)%nat m) as [Hle _]; [lia|].
        rewrite (Hle _ _ Hv). cbv beta iota. now rewrite Es, Ec, Ec'. }
    destruct Hlt as [Hlt Hm]. split; [exact Hlt|].
    destruct (length s - length rest)%nat as [|m] eqn:En; [lia|].
    rewrite parse_elements_S. apply Hm. lia.
  - intros s acc o rest H. rewrite parse_members_S in H.
    assert (Hlt : (length rest < length s)%nat
                  /\ forall m, (length s - length rest <= S m)%nat ->
                               JSON.members_step (JSON.parse_value m)
                                 (JSON.parse_members m) s acc
                               = Some (o, rest)).
    { unfold JSON.members_step in *. pose proof (skip_ws_length s) as Hws.
      destruct (JSON.closing 34 (JSON.skip_ws s)) as [t|] eqn:E1;
        [|discriminate].
      apply closing_length in E1.
      destruct (JSON.parse_string_body t) as [[k t1]|] eqn:E2; [|discriminate].
      apply parse_string_body_length in E2.
      pose proof (skip_ws_length t1) as Hw1.
      destruct (JSON.closing 58 (JSON.skip_ws t1)) as [t2|] eqn:E3;
        [|discriminate].
      apply closing_length in E3.
      destruct (JSON.parse_value fuel t2) as [[v t3]|] eqn:Ev; [|discriminate].
      destruct (IHv _ _ _ Ev) as [Hl Hv].
      pose proof (skip_ws_length t3) as Hw3.
      destruct (JSON.skip_ws t3) as [|c t4] eqn:Es; [discriminate|].
      cbn [length] in Hw3.
      destruct (c =? 44) eqn:Ec.
      - destruct (IHm _ _ _ _ H) as [Hl' Hm'].
        split; [lia|]. intros m Hm.
        destruct (@parse_fuel_le (length t2 - length t3)%nat m) as [Hle _]; [lia|].
        rewrite (Hle _ _ Hv). cbv beta iota. rewrite Es, Ec.
        destruct (@parse_fuel_le (length t4 - length rest)%nat m) as [_ [_ Hle']];
          [lia|].
        now apply Hle'.
      - destruct (c =? 125) eqn:Ec'; [|discriminate]. injection H as <- <-.
        split; [lia|]. intros m Hm.
        destruct (@parse_fuel_le (length t2 - length t3)%nat m) as [Hle _]; [lia|].
        rewrite (Hle _ _ Hv). cbv beta iota. now rewrite Es, Ec, Ec'. }
    destruct Hlt as [Hlt Hm]. split; [exact Hlt|].
    destruct (length s - length rest)%nat as [|m] eqn:En; [lia|].
    rewrite parse_members_S. apply Hm. lia.
Qed.

(** [JSON.parse] gives a parse all the fuel it can use. *)
Theorem parse_fuel_enough (fuel : nat) (text : jsstring) (v : jsval)
  (rest : jsstring) :
  JSON.parse_value fuel text = Some (v, rest) ->
  JSON.parse_value (S (length text)) text = Some (v, rest).
Proof.
  intros H. destruct (parse_fuel_consumed fuel) as [Hv _].
  destruct (Hv _ _ _ H) as [Hl Hp].
  destruct (@parse_fuel_le (length text - length rest)%nat (S (length text)))
    as [Hle _]; [lia|].
  now apply Hle.
Qed.

End Fuel.

(** ** Parsing a serialized value *)

Section ParseSerialized.

Local Open Scope N_scope.

Lemma skip_ws_head (c : char) (r : jsstring) :
  JSON.is_ws c = false -> JSON.skip_ws (c :: r) = c :: r.
Proof. intros H. cbn [JSON.skip_ws]. now rewrite H. Qed.

Lemma strip_prefix_app (p r : jsstring) :
  JSON.strip_prefix p (p ++ r) = Some r.
Proof.
  induction p as [|c p IH]; [reflexivity|].
  cbn [app JSON.strip_prefix]. now rewrite N.eqb_refl.
Qed.

Lemma strip_prefix_head (p : jsstring) (d : char) (r : jsstring) :
  match p with c :: _ => c <> d | [] => False end ->
  JSON.strip_prefix p (d :: r) = None.
Proof.
  destruct p as [|c p]; [tauto|]. intros H.
  cbn [JSON.strip_prefix]. now destruct (N.eqb_spec c d).
Qed.

Lemma text_head_props (c : char) :
  JSON.text_head c ->
  JSON.is_ws c = false /\ c <> 93 /\ c <> 125 /\ c <> 44.
Proof.
  unfold JSON.text_head, JSON.is_ws. intros H.
  assert (Hc : c <> 9 /\ c <> 10 /\ c <> 13 /\ c <> 32) by lia.
  destruct Hc as [H1 [H2 [H3 H4]]].
  apply N.eqb_neq in H1, H2, H3, H4. rewrite H1, H2, H3, H4.
  repeat split; lia.
Qed.

Lemma delimited_cons (c : char) (r : jsstring) :
  c = 44 \/ c = 93 \/ c = 125 ->
  JSON.delimited (c :: r) = true /\ JSON.skip_ws (c :: r) = c :: r.
Proof. intros [->|[->| ->]]; split; reflexivity. Qed.

Lemma keys_eqb_eq (a b : list jsstring) : keys_eqb a b = true -> a = b.
Proof.
  revert b. induction a as [|x a IH]; intros [|y b]; simpl;
    try discriminate; [reflexivity|].
  intros [->%eqb_eq ->%IH]%andb_prop. reflexivity.
Qed.

(** Two objects with the same keys in the same order, none twice, and
    the same value under every key are the same object. *)
Lemma props_ext (V : Type) (a b : Obj.props V) :
  Obj.keys a = Obj.keys b -> NoDup (Obj.keys a) ->
  (forall k, Obj.lookup a k = Obj.lookup b k) -> a = b.
Proof.
  revert b. induction a as [|[k v] a IH]; intros [|[k' v'] b]; simpl;
    try discriminate; [reflexivity|].
  intros [= <- Hk] Hd Hl. inversion Hd as [|? ? Hnin Hd']; subst.
  pose proof (Hl k) as H. simpl in H. rewrite eqb_refl in H.
  injection H as <-. f_equal. apply IH; [assumption..|].
  intros k0. specialize (Hl k0). simpl in Hl.
  destruct (eqb k k0) eqn:E; [|exact Hl].
  apply eqb_eq in E. subst k0.
  assert (Ha : Obj.lookup a k = None) by now apply lookup_none.
  assert (Hb : Obj.lookup b k = None)
    by (apply lookup_none; now rewrite <- Hk).
  now rewrite Ha, Hb.
Qed.

Lemma NoDup_spread (V : Type) (target source : Obj.props V) :
  NoDup (Obj.keys target) -> NoDup (Obj.keys (Obj.spread target source)).
Proof.
  unfold Obj.spread. revert target.
  induction source as [|[k v] source IH]; intros target Hd; [exact Hd|].
  cbn [fold_left]. apply IH. now apply NoDup_set.
Qed.

Lemma property_order_spread (o : object) :
  property_order o = true -> Obj.spread [] o = o.
Proof.
  intros H%keys_eqb_eq.
  assert (Hd : NoDup (Obj.keys (Obj.spread [] o)))
    by (apply NoDup_spread; constructor).
  apply props_ext; [assumption..|]. intros k.
  rewrite lookup_spread. rewrite lookup_rev by now rewrite <- H.
  now destruct (Obj.lookup o k).
Qed.

Lemma digit_char_range (d : digit) : 48 <= digit_char d <= 57.
Proof. destruct d; cbn; lia. Qed.

Lemma toString_finite_head (d : digit) (ds : list digit) (e : Z) :
  exists c t, toString_finite (d :: ds) e = c :: t /\ 48 <= c <= 57.
Proof.
  pose proof (digit_char_range d) as Hd. unfold toString_finite.
  set (k := Z.of_nat (length (d :: ds))).
  destruct ((k <=? k + e)%Z && (k + e <=? 21)%Z)%bool.
  { cbn [digits_string map app]. eauto. }
  destruct ((0 <? k + e)%Z && (k + e <=? 21)%Z)%bool eqn:HB.
  { apply andb_prop in HB as [H1%Z.ltb_lt _].
    destruct (Z.to_nat (k + e)) as [|m] eqn:E; [lia|].
    cbn [firstn digits_string map app]. eauto. }
  destruct ((-6 <? k + e)%Z && (k + e <=? 0)%Z)%bool.
  { exists 48. eexists. split; [reflexivity|lia]. }
  destruct ds; cbn [digits_string map app]; eauto.
Qed.

Lemma number_head (x : number) :
  json_number x = true ->
  exists c t, toString x = c :: t /\ (c = 45 \/ 48 <= c <= 57).
Proof.
  destruct x as [| |negative [|d ds] e]; try discriminate; intros _.
  - exists 48. eexists. split; [destruct negative; reflexivity|lia].
  - destruct (toString_finite_head d ds e) as [c [t [Ht Hc]]].
    destruct negative; cbn [toString].
    + exists 45. eexists. split; [reflexivity|auto].
    + exists c, t. auto.
Qed.

Lemma parse_number_toString (x : number) (rest : jsstring) :
  json_number x = true -> JSON.delimited rest = true ->
  JSON.parse_number (toString x ++ rest) = Some (x, rest).
Proof.
  intros Hx Hrest.
  destruct x as [| |negative [|d ds] e]; try discriminate;
    cbn [json_number] in Hx; apply andb_prop in Hx as [Hc Hz].
  - cbn [canonical] in Hc. apply Z.eqb_eq in Hc. subst e.
    destruct negative; [discriminate|]. cbn [toString].
    destruct (delimited_head rest Hrest) as [Hnd Hhead].
    apply (@parse_number_parts false d0 [] [] 0%Z rest rest rest); auto.
    + apply parse_fraction_none. destruct rest; tauto.
    + apply parse_exponent_none. destruct rest; tauto.
  - pose proof (parse_toString_finite negative d ds e rest Hc Hrest) as H.
    destruct negative; cbn [toString]; [|exact H].
    rewrite <- app_assoc. exact H.
Qed.

Lemma parses_back_literal (v : jsval) (text : jsstring) (c : char)
  (t : jsstring) :
  JSON.serialize v = Ok (Some text) -> text = c :: t ->
  c = 110 \/ c = 116 \/ c = 102 ->
  (forall rest,
      match JSON.strip_prefix (js "null") (text ++ rest) with
      | Some r' => Some (VNull, r')
      | None =>
          match JSON.strip_prefix (js "true") (text ++ rest) with
          | Some r' => Some (VBool true, r')
          | None =>
              match JSON.strip_prefix (js "false") (text ++ rest) with
              | Some r' => Some (VBool false, r')
              | None =>
                  match JSON.parse_number (text ++ rest) with
                  | Some (x, r') => Some (VNumber x, r')
                  | None => None
                  end
              end
          end
      end = Some (v, rest)) ->
  parses_back v.
Proof.
  intros Hs -> Hc Hp _. exists (c :: t). split; [exact Hs|]. split.
  { exists c, t. split; [reflexivity|]. unfold JSON.text_head. tauto. }
  intros fuel rest Hf _. destruct fuel as [|fuel]; [cbn in Hf; lia|].
  cbn [JSON.parse_value app].
  assert (Hws : JSON.is_ws c = false)
    by (destruct Hc as [->|[->| ->]]; reflexivity).
  rewrite (skip_ws_head _ _ Hws).
  assert (H34 : (c =? 34) = false)
    by (destruct Hc as [->|[->| ->]]; reflexivity).
  assert (H91 : (c =? 91) = false)
    by (destruct Hc as [->|[->| ->]]; reflexivity).
  assert (H123 : (c =? 123) = false)
    by (destruct Hc as [->|[->| ->]]; reflexivity).
  rewrite H34, H91, H123. exact (Hp rest).
Qed.

Lemma parses_back_number (x : number) : parses_back (VNumber x).
Proof.
  intros Hx. cbn [json_compatible] in Hx.
  assert (Hfin : isFinite x = true) by (destruct x; easy).
  exists (toString x). split; [cbn [JSON.serialize]; now rewrite Hfin|].
  destruct (number_head x Hx) as [c [t [Ht Hc]]]. split.
  { exists c, t. split; [exact Ht|]. unfold JSON.text_head. tauto. }
  intros fuel rest Hf Hrest.
  destruct fuel as [|fuel]; [rewrite Ht in Hf; cbn in Hf; lia|].
  pose proof (parse_number_toString x rest Hx Hrest) as Hp.
  rewrite Ht in *. cbn [JSON.parse_value app] in *.
  assert (Hws : JSON.is_ws c = false).
  { apply text_head_props. unfold JSON.text_head. tauto. }
  rewrite (skip_ws_head _ _ Hws).
  destruct (N.eqb_spec c 34); [lia|].
  destruct (N.eqb_spec c 91); [lia|].
  destruct (N.eqb_spec c 123); [lia|].
  rewrite !strip_prefix_head by (cbn; lia). now rewrite Hp.
Qed.

Lemma parses_back_string (s : jsstring) : parses_back (VString s).
Proof.
  intros Hs. cbn [json_compatible] in Hs.
  exists (JSON.quote s). split; [reflexivity|]. split.
  { exists 34. eexists. split; [reflexivity|]. unfold JSON.text_head. tauto. }
  intros fuel rest Hf _.
  destruct fuel as [|fuel]; [cbn in Hf; lia|].
  destruct (parse_quote s rest Hs) as [body [-> Hb]].
  cbn [JSON.parse_value]. rewrite skip_ws_head by reflexivity.
  cbn [N.eqb Pos.eqb]. now rewrite Hb.
Qed.

Lemma join_cons2 (sep p q : jsstring) (ps : list jsstring) :
  join sep (p :: q :: ps) = p ++ sep ++ join sep (q :: ps).
Proof. reflexivity. Qed.

(** The elements of a non-empty array, up to the closing bracket. *)
Lemma parse_elements_serialized (l : list jsval) :
  Forall parses_back l -> forallb json_compatible l = true ->
  exists parts,
    mapM (fun x => p <- JSON.serialize x ;; Ok (JSON.or_null p)) l = Ok parts
    /\ (l <> [] ->
        (exists c t, join (js ",") parts = c :: t /\ JSON.text_head c)
        /\ forall fuel (rest : jsstring),
            (length (join (js ",") parts) + 1 <= fuel)%nat ->
            JSON.parse_elements fuel (join (js ",") parts ++ 93 :: rest)
            = Some (l, rest)).
Proof.
  induction 1 as [|x l Hx Hl IH]; intros Hc.
  { exists []. split; [reflexivity|congruence]. }
  cbn [forallb] in Hc. apply andb_prop in Hc as [Hcx Hcl].
  destruct (Hx Hcx) as [p [Hp [[c [t [-> Hhead]]] Hparse]]].
  destruct (IH Hcl) as [ps [Hps Hrest]].
  exists ((c :: t) :: ps). split.
  { cbn [mapM]. rewrite Hp. cbn [bind]. now rewrite Hps. }
  intros _. destruct l as [|y l].
  - injection Hps as <-. cbn [join]. split; [eauto|].
    intros fuel rest Hf. destruct fuel as [|fuel]; [lia|].
    cbn [JSON.parse_elements].
    destruct (@delimited_cons 93 rest) as [Hd Hws]; [tauto|].
    rewrite (Hparse fuel (93 :: rest)) by (assumption || lia).
    cbn [JSON.skip_ws JSON.is_ws N.eqb Pos.eqb orb]. reflexivity.
  - destruct Hrest as [_ Hrest]; [discriminate|].
    destruct ps as [|q ps]; [cbn in Hps; destruct (JSON.serialize y);
      cbn in Hps; [destruct (mapM _ l); discriminate|discriminate]|].
    rewrite join_cons2. split; [cbn [app]; eauto|].
    intros fuel rest Hf. destruct fuel as [|fuel]; [lia|].
    rewrite !length_app in Hf.
    change (length (js ",")) with 1%nat in Hf. cbn [length] in Hf.
    cbn [JSON.parse_elements]. rewrite <- !app_assoc.
    change (js "," ++ join (js ",") (q :: ps) ++ 93 :: rest)
      with (44 :: join (js ",") (q :: ps) ++ 93 :: rest).
    destruct (@delimited_cons 44 (join (js ",") (q :: ps) ++ 93 :: rest))
      as [Hd Hws]; [tauto|].
    rewrite (Hparse fuel _) by (assumption || (cbn [length]; lia)).
    cbn [JSON.skip_ws JSON.is_ws N.eqb Pos.eqb orb].
    rewrite (Hrest fuel rest) by lia. reflexivity.
Qed.

Lemma serialize_array (l : list jsval) :
  JSON.serialize (VArray l)
  = (parts <- mapM (fun x => p <- JSON.serialize x ;; Ok (JSON.or_null p)) l ;;
     Ok (Some (js "[" ++ join (js ",") parts ++ js "]"))).
Proof.
  cbn [JSON.serialize].
  match goal with
  | |- bind ?a _ = bind ?b _ => assert (H : a = b); [|now rewrite H]
  end.
  induction l as [|x l IH]; [reflexivity|].
  cbn [mapM]. rewrite <- IH.
  destruct (JSON.serialize x); reflexivity.
Qed.

Lemma parses_back_array (l : list jsval) :
  Forall parses_back l -> parses_back (VArray l).
Proof.
  intros Hl Hc. cbn [json_compatible] in Hc.
  destruct (parse_elements_serialized Hl Hc) as [parts [Hparts Hrest]].
  exists (js "[" ++ join (js ",") parts ++ js "]"). split.
  { rewrite serialize_array, Hparts. reflexivity. }
  split.
  { exists 91. eexists. split; [reflexivity|]. unfold JSON.text_head. tauto. }
  intros fuel rest Hf _.
  change (js "[" ++ join (js ",") parts ++ js "]")
    with (91 :: join (js ",") parts ++ js "]") in *.
  destruct fuel as [|fuel]; [cbn in Hf; lia|].
  cbn [length] in Hf. rewrite length_app in Hf.
  change (length (js "]")) with 1%nat in Hf.
  cbn [app JSON.parse_value]. rewrite skip_ws_head by reflexivity.
  cbn [N.eqb Pos.eqb]. rewrite <- app_assoc.
  change (js "]" ++ rest) with (93 :: rest).
  destruct l as [|x l].
  - injection Hparts as <-. reflexivity.
  - destruct Hrest as [[c [t [Hj Hhead]]] Hparse]; [discriminate|].
    rewrite (Hparse fuel rest) by lia.
    rewrite Hj. cbn [app].
    destruct (text_head_props Hhead) as [Hws [H93 _]].
    rewrite (skip_ws_head _ _ Hws). cbn [JSON.closing].
    apply N.eqb_neq in H93. now rewrite H93.
Qed.

(** The members of a non-empty object, up to the closing brace. *)
Lemma parse_members_serialized (o : list (jsstring * jsval)) :
  Forall (fun kv => parses_back (snd kv)) o ->
  forallb (fun kv => forallb code_unit (fst kv) && json_compatible (snd kv))
    o = true ->
  exists parts,
    mapM (fun kv => p <- JSON.serialize (snd kv) ;;
                    Ok (JSON.quote (fst kv) ++ js ":" ++ JSON.or_null p)) o
    = Ok parts
    /\ Forall (fun kv => exists t, JSON.serialize (snd kv) = Ok (Some t)) o
    /\ (o <> [] ->
        (exists t, join (js ",") parts = 34 :: t)
        /\ forall fuel (rest : jsstring) acc,
            (length (join (js ",") parts) + 1 <= fuel)%nat ->
            JSON.parse_members fuel (join (js ",") parts ++ 125 :: rest) acc
            = Some (Obj.spread acc o, rest)).
Proof.
  induction 1 as [|[k x] o Hx Ho IH]; intros Hc.
  { exists []. split; [reflexivity|]. split; [constructor|congruence]. }
  cbn [forallb fst snd] in Hc, Hx.
  apply andb_prop in Hc as [[Hk Hcx]%andb_prop Hco].
  destruct (Hx Hcx) as [text [Hp [[c [t [Ht Hhead]]] Hparse]]].
  destruct (IH Hco) as [ps [Hps [Hsome Hrest]]].
  exists ((JSON.quote k ++ js ":" ++ text) :: ps). split.
  { cbn [mapM fst snd]. rewrite Hp. cbn [bind JSON.or_null].
    now rewrite Hps. }
  split; [constructor; [now exists text|assumption]|].
  intros _.
  assert (Hmember : forall fuel tail acc,
             (length (JSON.quote k ++ js ":" ++ text) <= fuel)%nat ->
             JSON.delimited tail = true ->
             JSON.parse_members (S fuel)
               (JSON.quote k ++ js ":" ++ text ++ tail) acc
             = match JSON.skip_ws tail with
               | c :: r4 =>
                   if c =? 44
                   then JSON.parse_members fuel r4 (Obj.set acc k x)
                   else if c =? 125 then Some (Obj.set acc k x, r4)
                        else None
               | [] => None
               end).
  { intros fuel tail acc Hf Htail.
    rewrite !length_app in Hf.
    destruct (parse_quote k (js ":" ++ text ++ tail) Hk) as [body [-> Hb]].
    cbn [JSON.parse_members]. rewrite skip_ws_head by reflexivity.
    cbn [JSON.closing N.eqb Pos.eqb]. rewrite Hb.
    change (js ":" ++ text ++ tail) with (58 :: text ++ tail).
    rewrite skip_ws_head by reflexivity. cbn [JSON.closing N.eqb Pos.eqb].
    rewrite (Hparse fuel tail) by (assumption || lia). reflexivity. }
  destruct o as [|[k' x'] o].
  - injection Hps as <-. cbn [join]. split.
    { eexists. unfold JSON.quote. cbn [app]. reflexivity. }
    intros fuel rest acc Hf. destruct fuel as [|fuel]; [lia|].
    rewrite <- !app_assoc.
    rewrite Hmember by (reflexivity || (unfold jsstring, char in *; lia)).
    reflexivity.
  - destruct Hrest as [_ Hrest]; [discriminate|].
    destruct ps as [|q ps].
    { cbn [mapM] in Hps. destruct (JSON.serialize (snd (k', x')));
        cbn [bind] in Hps; [|discriminate].
      destruct (mapM _ o); discriminate. }
    rewrite join_cons2. split.
    { eexists. unfold JSON.quote. cbn [app]. reflexivity. }
    intros fuel rest acc Hf. destruct fuel as [|fuel]; [lia|].
    rewrite length_app in Hf. rewrite length_app in Hf.
    change (length (js ",")) with 1%nat in Hf.
    rewrite <- !app_assoc.
    change (js "," ++ join (js ",") (q :: ps) ++ 125 :: rest)
      with (44 :: join (js ",") (q :: ps) ++ 125 :: rest).
    rewrite Hmember
      by (reflexivity
          || (rewrite ?length_app in *; unfold jsstring, char in *; lia)).
    cbn [JSON.skip_ws JSON.is_ws N.eqb Pos.eqb orb].
    rewrite (Hrest fuel rest)
      by (rewrite ?length_app in *;
          change (length (js ",")) with 1%nat in *;
          unfold jsstring, char in *; lia).
    reflexivity.
Qed.

Lemma serialize_object (o : list (jsstring * jsval)) :
  Forall (fun kv => exists t, JSON.serialize (snd kv) = Ok (Some t)) o ->
  JSON.serialize (VObject o)
  = (parts <- mapM (fun kv => p <- JSON.serialize (snd kv) ;;
                              Ok (JSON.quote (fst kv) ++ js ":"
                                    ++ JSON.or_null p)) o ;;
     Ok (Some (js "{" ++ join (js ",") parts ++ js "}"))).
Proof.
  intros Ho. cbn [JSON.serialize].
  match goal with
  | |- bind ?a _ = bind ?b _ => assert (H : a = b); [|now rewrite H]
  end.
  induction Ho as [|[k x] o [t Ht] _ IH]; [reflexivity|].
  cbn [mapM fst snd] in *. rewrite <- IH, Ht. reflexivity.
Qed.

Lemma parses_back_object (o : list (jsstring * jsval)) :
  Forall (fun kv => parses_back (snd kv)) o -> parses_back (VObject o).
Proof.
  intros Ho Hc. cbn [json_compatible] in Hc.
  apply andb_prop in Hc as [Hc Horder].
  destruct (parse_members_serialized Ho Hc) as [parts [Hparts [Hsome Hrest]]].
  exists (js "{" ++ join (js ",") parts ++ js "}"). split.
  { rewrite (serialize_object Hsome), Hparts. reflexivity. }
  split.
  { exists 123. eexists. split; [reflexivity|]. unfold JSON.text_head. tauto. }
  intros fuel rest Hf _.
  change (js "{" ++ join (js ",") parts ++ js "}")
    with (123 :: join (js ",") parts ++ js "}") in *.
  destruct fuel as [|fuel]; [cbn in Hf; lia|].
  cbn [length] in Hf. rewrite length_app in Hf.
  change (length (js "}")) with 1%nat in Hf.
  cbn [app JSON.parse_value]. rewrite skip_ws_head by reflexivity.
  cbn [N.eqb Pos.eqb]. rewrite <- app_assoc.
  change (js "}" ++ rest) with (125 :: rest).
  destruct o as [|kv o].
  - injection Hparts as <-. reflexivity.
  - destruct Hrest as [[t Hj] Hparse]; [discriminate|].
    rewrite (Hparse fuel rest []) by lia.
    rewrite Hj. cbn [app]. rewrite skip_ws_head by reflexivity.
    cbn [JSON.closing N.eqb Pos.eqb].
    now rewrite (property_order_spread _ Horder).
Qed.

Theorem parse_serialized (v : jsval) : parses_back v.
Proof.
  induction v as [| |b|x|s|l IH|o IH| | |] using jsval_ind;
    try (intros H; discriminate H).
  - apply (@parses_back_literal VNull (js "null") 110 (js "ull"));
      [reflexivity|reflexivity|tauto|].
    intros rest. now rewrite strip_prefix_app.
  - destruct b.
    + apply (@parses_back_literal (VBool true) (js "true") 116 (js "rue"));
        [reflexivity|reflexivity|tauto|].
      intros rest. now rewrite strip_prefix_app.
    + apply (@parses_back_literal (VBool false) (js "false") 102 (js "alse"));
        [reflexivity|reflexivity|tauto|].
      intros rest. now rewrite strip_prefix_app.
  - apply parses_back_number.
  - apply parses_back_string.
  - now apply parses_back_array.
  - now apply parses_back_object.
Qed.

(** [JSON.parse] undoes [JSON.stringify] on JSON-compatible values. *)
Lemma parse_stringify (v : jsval) :
  json_compatible v = true ->
  exists text, JSON.stringify v = Ok (Some text)
               /\ JSON.parse text = Ok v.
Proof.
  intros Hc. destruct (parse_serialized v Hc) as [text [Hs [_ Hp]]].
  exists text. split; [exact Hs|]. unfold JSON.parse.
  specialize (Hp (S (length text)) [] (Nat.le_succ_diag_r _) eq_refl).
  rewrite app_nil_r in Hp. now rewrite Hp.
Qed.

End ParseSerialized.

(** ** The round trip *)

Section RoundTrip.

Local Open Scope N_scope.

Lemma json_compatible_plain (v : jsval) :
  json_compatible v = true -> code_units v = true /\ has_bigint v = false.
Proof.
  induction v as [| |b|x|s|l IH|o IH| | |] using jsval_ind;
    try discriminate; try (intros _; split; reflexivity).
  - intros H. split; [exact H|reflexivity].
  - cbn [json_compatible code_units has_bigint]. intros H.
    induction IH as [|x l Hx _ IHl]; [split; reflexivity|].
    cbn [forallb existsb] in *. apply andb_prop in H as [H1 H2].
    destruct (Hx H1) as [-> ->]. destruct (IHl H2) as [-> ->].
    split; reflexivity.
  - cbn [json_compatible code_units has_bigint].
    intros [H _]%andb_prop.
    induction IH as [|[k x] o Hx _ IHo]; [split; reflexivity|].
    cbn [forallb existsb fst snd] in *.
    apply andb_prop in H as [[Hk H1]%andb_prop H2].
    destruct (Hx H1) as [-> ->]. destruct (IHo H2) as [-> ->].
    rewrite Hk. split; reflexivity.
Qed.

(** A text that parses comes back from its percent-encoded token. *)
Lemma decode_token (text : jsstring) :
  well_formed text = true -> forallb code_unit text = true ->
  exists t,
    encodeURIComponent text = Ok t
    /\ decodeURIComponent t = Ok text
    /\ safeJSONParse (Some t)
       = Ok (match JSON.parse text with
             | Ok w => w
             | Throw _ => VString t
             end).
Proof.
  intros Hw Hu. apply encode_well_formed in Hw as [t Ht].
  exists t. split; [exact Ht|].
  pose proof (decode_encode text Hu Ht) as Hd. split; [exact Hd|].
  unfold safeJSONParse. rewrite Hd. cbn [bind].
  now destruct (JSON.parse text).
Qed.

Lemma round_trip_value (v : jsval) :
  json_compatible v = true ->
  match v with VString _ => False | _ => True end ->
  exists t, encodeValue v = Ok t /\ safeJSONParse (Some t) = Ok v.
Proof.
  intros Hc Hns.
  destruct (parse_stringify v Hc) as [text [Hs Hp]].
  destruct (json_compatible_plain v Hc) as [Hu Hb].
  destruct (serialize_well_formed v Hb) as [p [Hp' [Hw _]]].
  unfold JSON.stringify in Hs. rewrite Hs in Hp'. injection Hp' as <-.
  cbn [JSON.or_null] in Hw.
  pose proof (serialize_code_units v Hu Hs) as Hcu. cbn [JSON.or_null] in Hcu.
  destruct (decode_token text Hw Hcu) as [t [Ht [_ Hd]]].
  rewrite Hp in Hd. exists t. split; [|exact Hd].
  destruct v as [| |b|x|s|l|o| | |]; try discriminate; try tauto;
    unfold encodeValue, JSON.stringify; rewrite ?Hs; cbn [bind];
    try exact Ht.
  - destruct b; injection Hs as <-; exact Ht.
  - cbn [JSON.serialize] in Hs.
    assert (Hfin : isFinite x = true) by (destruct x; easy).
    rewrite Hfin in Hs. injection Hs as <-. exact Ht.
Qed.

Lemma round_trip_string (s : jsstring) :
  s <> [] -> well_formed s = true -> forallb code_unit s = true ->
  exists t,
    encodeValue (VString s) = Ok t
    /\ decodeURIComponent t = Ok s
    /\ safeJSONParse (Some t)
       = Ok (match JSON.parse s with
             | Ok w => w
             | Throw _ => VString t
             end).
Proof.
  intros Hne Hw Hu. destruct (decode_token s Hw Hu) as [t H].
  exists t. destruct s; [congruence|exact H].
Qed.

Lemma encode_unreserved (s : jsstring) :
  forallb unreserved s = true -> URI.encode s = Ok s.
Proof.
  induction s as [|c s IH]; [reflexivity|]. cbn [forallb].
  intros [Hc Hs]%andb_prop. cbn [URI.encode]. now rewrite Hc, (IH Hs).
Qed.

Lemma escape_length (cp : N) : (3 <= length (escape_code_point cp))%nat.
Proof.
  unfold escape_code_point, utf8_encode.
  repeat match goal with
         | |- context [if ?b then _ else _] => destruct b
         end; cbn; lia.
Qed.

(** Escaping makes the token longer. *)
Lemma encode_length (s : jsstring) :
  forall t, URI.encode s = Ok t ->
            (length s <= length t)%nat
            /\ (length t = length s -> forallb unreserved s = true).
Proof.
  induction s as [|c|c d s IH1 IH2] using list_ind2; intros t.
  - intros [= <-]. split; [reflexivity|reflexivity].
  - cbn [URI.encode]. destruct (unreserved c) eqn:Hc.
    { intros [= <-]. cbn [forallb]. rewrite Hc. split; [reflexivity|easy]. }
    destruct (is_high_surrogate c); [discriminate|].
    destruct (is_low_surrogate c); [discriminate|].
    intros [= <-]. rewrite app_nil_r.
    pose proof (escape_length c). cbn [length]. split; lia.
  - change (URI.encode (c :: d :: s))
      with (if unreserved c then r <- URI.encode (d :: s) ;; Ok (c :: r)
            else if is_high_surrogate c then
                   if is_low_surrogate d then
                     r <- URI.encode s ;;
                     Ok (escape_code_point (pair_code_point c d) ++ r)
                   else Throw URIError
                 else if is_low_surrogate c then Throw URIError
                      else r <- URI.encode (d :: s) ;;
                           Ok (escape_code_point c ++ r)).
    destruct (unreserved c) eqn:Hc.
    { intros [r [Hr [= <-]]]%bind_ok. destruct (IH2 r Hr) as [Hl Hu].
      cbn [length] in *. split; [lia|]. intros H.
      change (forallb unreserved (c :: d :: s))
        with (unreserved c && forallb unreserved (d :: s))%bool.
      rewrite Hc. apply Hu. lia. }
    destruct (is_high_surrogate c).
    { destruct (is_low_surrogate d); [|discriminate].
      intros [r [Hr [= <-]]]%bind_ok. destruct (IH1 r Hr) as [Hl _].
      pose proof (escape_length (pair_code_point c d)).
      rewrite length_app. cbn [length]. split; [lia|].
      (* a pair yields four escapes *)
      unfold escape_code_point, utf8_encode, pair_code_point in *.
      repeat match goal with
             | H : context [if ?b then _ else _] |- _ => destruct b eqn:?
             | |- context [if ?b then _ else _] => destruct b eqn:?
             end; cbn [flat_map percent length app] in *; try lia;
        repeat match goal with
               | H : (_ <? _) = true |- _ => apply N.ltb_lt in H
               end; lia. }
    destruct (is_low_surrogate c); [discriminate|].
    intros [r [Hr [= <-]]]%bind_ok. destruct (IH2 r Hr) as [Hl _].
    pose proof (escape_length c). rewrite length_app. cbn [length] in *.
    split; lia.
Qed.

Lemma encode_same (s t : jsstring) :
  URI.encode s = Ok t -> (t = s <-> forallb unreserved s = true).
Proof.
  intros H. split.
  - intros ->. now apply (encode_length s H).
  - intros Hu. rewrite (encode_unreserved s Hu) in H. congruence.
Qed.

End RoundTrip.

(** C1 (as stated, refuted).  The string ["hello world"] is not
    numeric-looking and not one of the three literals, yet it does not
    round-trip: it is encoded as ["hello%20world"], which decodes to the
    string ["hello%20world"].  The string ["[1,2]"] decodes as an array. *)
Lemma C1_round_trip_counterexample :
  encodeValue (VString (js "hello world")) = Ok (js "hello%20world")
  /\ safeJSONParse (Some (js "hello%20world"))
     = Ok (VString (js "hello%20world"))
  /\ js "hello%20world" <> js "hello world"
  /\ encodeValue (VString (js "[1,2]")) = Ok (js "%5B1%2C2%5D")
  /\ safeJSONParse (Some (js "%5B1%2C2%5D"))
     = Ok (VArray [VNumber (Finite false [d1] 0);
                   VNumber (Finite false [d2] 0)]).
Proof. repeat split; try reflexivity. discriminate. Qed.

(** C1 (amended).  For every JSON-compatible value that is a number, a
    boolean, null, an array or a plain object, decoding the encoded value
    gives the value back.  For a non-empty string without lone surrogate,
    the token percent-decodes to the string, and decoding the token gives
    the JSON value of the string when the string is a JSON text (so
    ["42"], ["true"], ["false"], ["null"] come back as a number, the
    booleans and null, and a quoted or bracketed text as the string,
    array or object it denotes) and gives the token itself otherwise; the
    token is the string itself exactly when the string consists of
    unreserved characters only. *)
Theorem C1_round_trip :
  (forall v,
      json_compatible v = true ->
      match v with VString _ => False | _ => True end ->
      exists t, encodeValue v = Ok t /\ safeJSONParse (Some t) = Ok v)
  /\ (forall s,
         s <> [] -> well_formed s = true -> forallb code_unit s = true ->
         exists t,
           encodeValue (VString s) = Ok t
           /\ decodeURIComponent t = Ok s
           /\ safeJSONParse (Some t)
              = Ok (match JSON.parse s with
                    | Ok w => w
                    | Throw _ => VString t
                    end)
           /\ (t = s <-> forallb unreserved s = true))
  /\ JSON.parse (js "42") = Ok (VNumber (Finite false [d4; d2] 0))
  /\ JSON.parse (js "true") = Ok (VBool true)
  /\ JSON.parse (js "false") = Ok (VBool false)
  /\ JSON.parse (js "null") = Ok VNull
  /\ JSON.parse (js "undefined") = Throw SyntaxError
  /\ JSON.parse (js "hello") = Throw SyntaxError.
Proof.
  split; [exact round_trip_value|]. split.
  - intros s Hne Hw Hu.
    destruct (round_trip_string Hne Hw Hu) as [t [He [Hd Hp]]].
    exists t. split; [exact He|]. split; [exact Hd|]. split; [exact Hp|].
    destruct s as [|c s]; [congruence|].
    exact (@encode_same (c :: s) t He).
  - repeat split; reflexivity.
Qed.

(** ** The documented examples *)

Section Examples.

Let n23 := VNumber (Finite false [d2; d3] 0).
Let bob := VObject [(js "name", VString (js "bob")); (js "age", n23)].

Example path_product :
  dollar_path (js "/product/[productID]") None (Some [(js "productID", n23)])
  = Ok (js "/product/23").
Proof. reflexivity. Qed.

Example path_dashboard :
  dollar_path (js "/dashboard/[...options]") None
    (Some [(js "options",
            VArray [VString (js "deployments");
                    VNumber (Finite false [d2] 0)])])
  = Ok (js "/dashboard/deployments/2").
Proof. reflexivity. Qed.

Example path_readme :
  dollar_path (js "/product/[productID]")
    (Some [(js "userInfo", bob)]) (Some [(js "productID", n23)])
  = Ok (js "/product/23?userInfo=%7B%22name%22%3A%22bob%22%2C%22age%22%3A23%7D").
Proof. reflexivity. Qed.

Example userInfo_decoded :
  safeJSONParse
    (Some (js "%7B%22name%22%3A%22bob%22%2C%22age%22%3A23%7D"))
  = Ok bob.
Proof. reflexivity. Qed.

Example route_params_dashboard :
  getDynamicRouteParams (js "/dashboard/[...options]")
    [(js "options", RStrings [js "deployments"; js "2"])]
  = Ok [(js "options",
         VArray [VString (js "deployments");
                 VNumber (Finite false [d2] 0)])].
Proof. reflexivity. Qed.

Example route_params_collision :
  getDynamicRouteParams (js "/[id]/[...id]") [(js "id", RString (js "7"))]
  = Ok [(js "id", VArray [VNumber (Finite false [d7] 0)])].
Proof. reflexivity. Qed.

Example undefined_is_a_string :
  safeJSONParse (Some (js "undefined")) = Ok (VString (js "undefined")).
Proof. reflexivity. Qed.

End Examples.

(** * Further properties *)

(** ** Repeated query keys *)

Section MultipleKeys.

Lemma query_get_set_same (o : query_object) (k : jsstring) (v : raw) :
  query_get (Obj.set o k v) k = v.
Proof. unfold query_get. now rewrite lookup_set_same. Qed.

Lemma query_get_set_other (o : query_object) (k k' : jsstring) (v : raw) :
  k <> k' -> query_get (Obj.set o k v) k' = query_get o k'.
Proof. intros H. unfold query_get. now rewrite lookup_set_other. Qed.

Lemma multipleKeys_step_get (acc : query_object) (k v key : jsstring) :
  query_get (multipleKeys_step acc (k, v)) key
  = if eqb k key then absorb (query_get acc key) v else query_get acc key.
Proof.
  unfold multipleKeys_step, absorb. destruct (eqb k key) eqn:E.
  - apply eqb_eq in E. subst key.
    destruct (query_get acc k) as [|[|c s]|l]; apply query_get_set_same.
  - apply eqb_neq in E.
    destruct (query_get acc k) as [|[|c s]|l];
      now apply query_get_set_other.
Qed.

Lemma fold_multipleKeys_get (params : url_params) (acc : query_object)
  (key : jsstring) :
  query_get (fold_left multipleKeys_step params acc) key
  = fold_left absorb (values_of key params) (query_get acc key).
Proof.
  revert acc. induction params as [|[k v] params IH]; intros acc;
    [reflexivity|].
  cbn [fold_left]. rewrite IH, multipleKeys_step_get.
  unfold values_of. cbn [filter fst]. destruct (eqb k key); reflexivity.
Qed.

Lemma absorb_strings (l values : list jsstring) :
  fold_left absorb values (RStrings l) = RStrings (l ++ values).
Proof.
  revert l. induction values as [|v values IH]; intros l; cbn [fold_left].
  - now rewrite app_nil_r.
  - cbn [absorb]. rewrite IH, <- app_assoc. reflexivity.
Qed.

Lemma absorb_collapse (values : list jsstring) :
  fold_left absorb values RUndefined = collapse values.
Proof.
  destruct values as [|v values]; [reflexivity|].
  cbn [fold_left absorb]. unfold collapse.
  revert v. induction values as [|w values IH]; intros v.
  - cbn [fold_left]. now destruct v.
  - cbn [fold_left]. destruct v as [|c s].
    + change (drop_empty ([] :: w :: values))
        with (drop_empty (w :: values)).
      cbn [absorb]. apply IH.
    + cbn [absorb drop_empty]. apply absorb_strings.
Qed.

Lemma handle_get (params : url_params) (key : jsstring) :
  query_get (handleSearchParamMultipleKeys params) key
  = collapse (values_of key params).
Proof.
  unfold handleSearchParamMultipleKeys.
  rewrite fold_multipleKeys_get. apply absorb_collapse.
Qed.

Lemma multipleKeys_step_keys (acc : query_object) (kv : jsstring * jsstring)
  (key : jsstring) :
  In key (Obj.keys (multipleKeys_step acc kv))
  <-> key = fst kv \/ In key (Obj.keys acc).
Proof.
  destruct kv as [k v]. unfold multipleKeys_step.
  destruct (query_get acc k) as [|[|c s]|l]; apply keys_set.
Qed.

Lemma multipleKeys_step_NoDup (acc : query_object)
  (kv : jsstring * jsstring) :
  NoDup (Obj.keys acc) -> NoDup (Obj.keys (multipleKeys_step acc kv)).
Proof.
  destruct kv as [k v]. unfold multipleKeys_step.
  destruct (query_get acc k) as [|[|c s]|l]; apply NoDup_set.
Qed.

Lemma handle_keys (params : url_params) :
  NoDup (Obj.keys (handleSearchParamMultipleKeys params))
  /\ forall key,
      In key (Obj.keys (handleSearchParamMultipleKeys params))
      <-> In key (map fst params).
Proof.
  unfold handleSearchParamMultipleKeys.
  enough (H : forall acc,
             NoDup (Obj.keys acc) ->
             NoDup (Obj.keys (fold_left multipleKeys_step params acc))
             /\ forall key,
                 In key (Obj.keys (fold_left multipleKeys_step params acc))
                 <-> In key (map fst params) \/ In key (Obj.keys acc)).
  { destruct (H [] (NoDup_nil _)) as [Hd Hk]. split; [exact Hd|].
    intros key. rewrite Hk. simpl. tauto. }
  induction params as [|kv params IH]; intros acc Hacc.
  - split; [exact Hacc|]. simpl. tauto.
  - cbn [fold_left map].
    destruct (IH _ (@multipleKeys_step_NoDup acc kv Hacc)) as [Hd Hk].
    split; [exact Hd|]. intros key.
    rewrite Hk, multipleKeys_step_keys. simpl. intuition congruence.
Qed.

End MultipleKeys.

(** X1. When no name of the search parameters is inherited from
    [Object.prototype], [handleSearchParamMultipleKeys] binds every key to
    what is left of its values, taken in order, once the empty strings in
    front are dropped: nothing when the key does not occur, the value when
    one is left, the array of the values when several are. When the first value
    of a key is not empty no value is lost; an empty first value that
    another value follows is. *)
Theorem X1_multiple_keys_values (params : url_params) (key : jsstring) :
  own_names params = true ->
  query_get (handleSearchParamMultipleKeys params) key
  = collapse (values_of key params)
  /\ (forall c s rest,
         values_of key params = (c :: s) :: rest ->
         query_get (handleSearchParamMultipleKeys params) key
         = match rest with
           | [] => RString (c :: s)
           | _ => RStrings ((c :: s) :: rest)
           end)
  /\ (forall value rest,
         values_of key params = [] :: value :: rest ->
         query_get (handleSearchParamMultipleKeys params) key
         = collapse (value :: rest)).
Proof.
  intros _. rewrite handle_get. split; [reflexivity|]. split.
  - intros c s rest ->. unfold collapse. cbn [drop_empty].
    now destruct rest.
  - intros value rest ->. reflexivity.
Qed.

Lemma X1_multiple_keys_values_witness :
  query_get
    (handleSearchParamMultipleKeys
       [(js "a", js ""); (js "b", js "1"); (js "a", js "x"); (js "a", js "");
        (js "c", js "")])
    (js "a")
  = collapse
      (values_of (js "a")
         [(js "a", js ""); (js "b", js "1"); (js "a", js "x");
          (js "a", js ""); (js "c", js "")])
  /\ (forall c s rest,
         values_of (js "a")
           [(js "a", js ""); (js "b", js "1"); (js "a", js "x");
            (js "a", js ""); (js "c", js "")]
         = (c :: s) :: rest ->
         query_get
           (handleSearchParamMultipleKeys
              [(js "a", js ""); (js "b", js "1"); (js "a", js "x");
               (js "a", js ""); (js "c", js "")])
           (js "a")
         = match rest with
           | [] => RString (c :: s)
           | _ => RStrings ((c :: s) :: rest)
           end)
  /\ (forall value rest,
         values_of (js "a")
           [(js "a", js ""); (js "b", js "1"); (js "a", js "x");
            (js "a", js ""); (js "c", js "")]
         = [] :: value :: rest ->
         query_get
           (handleSearchParamMultipleKeys
              [(js "a", js ""); (js "b", js "1"); (js "a", js "x");
               (js "a", js ""); (js "c", js "")])
           (js "a")
         = collapse (value :: rest)).
Proof. apply X1_multiple_keys_values. reflexivity. Defined.

(** X2. When no name of the search parameters is inherited from
    [Object.prototype], the keys of the object
    [handleSearchParamMultipleKeys] returns are exactly the names that
    occur in the search parameters, each of them once. *)
Theorem X2_multiple_keys_keys (params : url_params) :
  own_names params = true ->
  NoDup (Obj.keys (handleSearchParamMultipleKeys params))
  /\ forall key,
      In key (Obj.keys (handleSearchParamMultipleKeys params))
      <-> In key (map fst params).
Proof. intros _. apply handle_keys. Qed.

Lemma X2_multiple_keys_keys_witness :
  NoDup (Obj.keys (handleSearchParamMultipleKeys
                     [(js "b", js "1"); (js "a", js ""); (js "b", js "2")]))
  /\ forall key,
      In key (Obj.keys (handleSearchParamMultipleKeys
                          [(js "b", js "1"); (js "a", js "");
                           (js "b", js "2")]))
      <-> In key (map fst [(js "b", js "1"); (js "a", js "");
                           (js "b", js "2")]).
Proof. apply X2_multiple_keys_keys. reflexivity. Defined.

(** ** Decoding an object of raw values *)

Section MapValues.
Variables V W : Type.
Variable g : V -> W.

Lemma keys_map_values (o : Obj.props V) :
  Obj.keys (map_values g o) = Obj.keys o.
Proof.
  unfold Obj.keys, map_values. rewrite map_map. reflexivity.
Qed.

Lemma lookup_map_values (o : Obj.props V) (k : jsstring) :
  Obj.lookup (map_values g o) k = option_map g (Obj.lookup o k).
Proof.
  induction o as [|[k0 v0] o IH]; [reflexivity|].
  cbn. destruct (eqb k0 k); [reflexivity|exact IH].
Qed.

Lemma replace_map_values (o : Obj.props V) (k : jsstring) (v : V) :
  Obj.replace (map_values g o) k (g v) = map_values g (Obj.replace o k v).
Proof.
  induction o as [|[k0 v0] o IH]; [reflexivity|].
  cbn. destruct (eqb k0 k); cbn; [reflexivity|].
  f_equal. exact IH.
Qed.

Lemma insert_index_map_values (o : Obj.props V) (i : N) (k : jsstring)
  (v : V) :
  Obj.insert_index (map_values g o) i k (g v)
  = map_values g (Obj.insert_index o i k v).
Proof.
  induction o as [|[k0 v0] o IH]; [reflexivity|].
  cbn. destruct (Obj.array_index k0) as [j|]; [|reflexivity].
  destruct (i <? j)%N; cbn; [reflexivity|].
  f_equal. exact IH.
Qed.

Lemma set_map_values (o : Obj.props V) (k : jsstring) (v : V) :
  Obj.set (map_values g o) k (g v) = map_values g (Obj.set o k v).
Proof.
  unfold Obj.set, Obj.has. rewrite lookup_map_values.
  destruct (Obj.lookup o k); cbn [option_map].
  - apply replace_map_values.
  - destruct (Obj.array_index k).
    + apply insert_index_map_values.
    + unfold map_values. rewrite map_app. reflexivity.
Qed.

Lemma spread_map_values (target source : Obj.props V) :
  Obj.spread (map_values g target) (map_values g source)
  = map_values g (Obj.spread target source).
Proof.
  unfold Obj.spread. revert target.
  induction source as [|[k v] source IH]; intros target; [reflexivity|].
  cbn [map_values map fold_left fst snd].
  rewrite set_map_values. apply IH.
Qed.

(** An object whose keys are in property order is what assigning its
    properties one by one gives. *)
Lemma order_spread (o : Obj.props V) :
  Obj.keys (Obj.spread [] o) = Obj.keys o -> Obj.spread [] o = o.
Proof.
  intros H.
  assert (Hd : NoDup (Obj.keys (Obj.spread [] o)))
    by (apply NoDup_spread; constructor).
  apply props_ext; [assumption..|]. intros k.
  rewrite lookup_spread. rewrite lookup_rev by now rewrite <- H.
  now destruct (Obj.lookup o k).
Qed.

Lemma order_NoDup (o : Obj.props V) :
  Obj.keys (Obj.spread [] o) = Obj.keys o -> NoDup (Obj.keys o).
Proof.
  intros <-. apply NoDup_spread. constructor.
Qed.

End MapValues.

Lemma parseTopLevelObject_from_spread (obj : query_object) (acc : object) :
  parseTopLevelObject_from obj acc
  = Ok (Obj.spread acc (map_values parsed obj)).
Proof.
  revert acc. induction obj as [|[k v] obj IH]; intros acc; [reflexivity|].
  cbn [parseTopLevelObject_from]. rewrite parseOrMapParse_parsed.
  cbn [bind]. rewrite IH. reflexivity.
Qed.

Lemma parseTopLevelObject_map (obj : query_object) :
  parseTopLevelObject obj = Ok (map_values parsed (Obj.spread [] obj)).
Proof.
  unfold parseTopLevelObject. rewrite parseTopLevelObject_from_spread.
  f_equal. apply (spread_map_values parsed [] obj).
Qed.

Lemma map_values_Forall2 (obj : query_object) :
  Forall2 (fun kv kv' =>
             fst kv' = fst kv /\ parseOrMapParse (snd kv) = Ok (snd kv'))
          obj (map_values parsed obj).
Proof.
  induction obj as [|[k v] obj IH]; constructor; [|exact IH].
  split; [reflexivity|]. apply parseOrMapParse_parsed.
Qed.

(** X3. For an object in property order none of whose keys is inherited
    from [Object.prototype], [parseTopLevelObject] does not throw, and the
    object it returns has the keys of its argument, in the same order, each
    bound to the value that [parseOrMapParse] returns for the value of the
    argument. *)
Theorem X3_parseTopLevelObject_pointwise (obj : query_object) :
  own_keys obj = true ->
  query_order obj = true ->
  exists r,
    parseTopLevelObject obj = Ok r
    /\ Forall2 (fun kv kv' =>
                  fst kv' = fst kv
                  /\ parseOrMapParse (snd kv) = Ok (snd kv'))
               obj r.
Proof.
  intros _ H%keys_eqb_eq%order_spread.
  exists (map_values parsed obj). split.
  - rewrite parseTopLevelObject_map, H. reflexivity.
  - apply map_values_Forall2.
Qed.

Lemma X3_parseTopLevelObject_witness :
  exists r,
    parseTopLevelObject
      [(js "0", RString (js "1")); (js "b", RStrings [js "x"; js "true"]);
       (js "a", RUndefined)]
    = Ok r
    /\ Forall2 (fun kv kv' =>
                  fst kv' = fst kv
                  /\ parseOrMapParse (snd kv) = Ok (snd kv'))
               [(js "0", RString (js "1"));
                (js "b", RStrings [js "x"; js "true"]);
                (js "a", RUndefined)] r.
Proof. apply X3_parseTopLevelObject_pointwise; reflexivity. Defined.

Lemma collapse_collapsed (l : list jsstring) :
  l <> [] -> collapsed (collapse l) = true.
Proof.
  destruct l as [|v l]; [congruence|]. intros _. unfold collapse.
  revert v. induction l as [|w l IH]; intros v.
  - now destruct v.
  - destruct v as [|c s]; [|reflexivity].
    change (drop_empty ([] :: w :: l)) with (drop_empty (w :: l)).
    apply IH.
Qed.

Lemma values_of_nil (key : jsstring) (params : url_params) :
  values_of key params = [] <-> ~ In key (map fst params).
Proof.
  unfold values_of. induction params as [|[k v] params IH]; cbn; [tauto|].
  destruct (eqb k key) eqn:E.
  - apply eqb_eq in E. cbn. split; [discriminate|tauto].
  - apply eqb_neq in E. tauto.
Qed.

(** X4. When no name of the search parameters is inherited from
    [Object.prototype], [parseObjectFromReadonlyURLParams] does not throw;
    the keys of its result are the names that occur in the search
    parameters, each once; every key is bound to what [parseOrMapParse]
    returns for the collapsed values of the name, and a name that occurs
    once, to what [safeJSONParse] returns for its value. *)
Theorem X4_readonly_params (params : url_params) :
  own_names params = true ->
  exists r,
    parseObjectFromReadonlyURLParams params = Ok r
    /\ NoDup (Obj.keys r)
    /\ (forall key, In key (Obj.keys r) <-> In key (map fst params))
    /\ (forall key,
           parseOrMapParse (collapse (values_of key params))
           = Ok (get r key))
    /\ (forall key value,
           values_of key params = [value] ->
           safeJSONParse (Some value) = Ok (get r key)).
Proof.
  intros _. unfold parseObjectFromReadonlyURLParams.
  rewrite parseTopLevelObject_map.
  destruct (handle_keys params) as [Hd Hk].
  pose proof (handle_get params) as Hg.
  set (h := handleSearchParamMultipleKeys params) in *.
  assert (Hl : forall key,
             Obj.lookup (map_values parsed (Obj.spread [] h)) key
             = option_map parsed (Obj.lookup h key)).
  { intros key. rewrite lookup_map_values, lookup_spread.
    rewrite lookup_rev by exact Hd. now destruct (Obj.lookup h key). }
  assert (Hv : forall key,
             parseOrMapParse (collapse (values_of key params))
             = Ok (get (map_values parsed (Obj.spread [] h)) key)).
  { intros key. unfold get. rewrite Hl, <- Hg. unfold query_get.
    destruct (Obj.lookup h key) as [x|]; cbn [option_map];
      [apply parseOrMapParse_parsed|reflexivity]. }
  eexists. split; [reflexivity|]. split; [|split; [|split]].
  - rewrite keys_map_values. apply NoDup_spread. constructor.
  - intros key. rewrite keys_map_values, keys_spread, <- Hk. simpl. tauto.
  - exact Hv.
  - intros key value E. rewrite <- Hv, E. now destruct value.
Qed.

Lemma X4_readonly_params_witness :
  exists r,
    parseObjectFromReadonlyURLParams
      [(js "n", js "1"); (js "tag", js "a"); (js "tag", js "%7B%7D")] = Ok r
    /\ NoDup (Obj.keys r)
    /\ (forall key,
           In key (Obj.keys r)
           <-> In key (map fst [(js "n", js "1"); (js "tag", js "a");
                                (js "tag", js "%7B%7D")]))
    /\ (forall key,
           parseOrMapParse
             (collapse (values_of key [(js "n", js "1"); (js "tag", js "a");
                                       (js "tag", js "%7B%7D")]))
           = Ok (get r key))
    /\ (forall key value,
           values_of key [(js "n", js "1"); (js "tag", js "a");
                          (js "tag", js "%7B%7D")] = [value] ->
           safeJSONParse (Some value) = Ok (get r key)).
Proof. apply X4_readonly_params. reflexivity. Defined.

(** X13. When no name of the search parameters is inherited from
    [Object.prototype], every value of the object
    [handleSearchParamMultipleKeys] returns is a string, or an array of at
    least two strings the first of which is not empty: no array is empty or
    has one element, and no key is bound to [undefined]. *)
Theorem X13_multiple_keys_shape (params : url_params) (key : jsstring)
  (value : raw) :
  own_names params = true ->
  Obj.lookup (handleSearchParamMultipleKeys params) key = Some value ->
  collapsed value = true.
Proof.
  intros _ H.
  assert (Hin : In key (map fst params)).
  { apply handle_keys. eapply lookup_in, H. }
  pose proof (handle_get params key) as Hg. unfold query_get in Hg.
  rewrite H in Hg. subst value. apply collapse_collapsed.
  intros E. now apply values_of_nil in E.
Qed.

Lemma X13_multiple_keys_shape_witness :
  collapsed (RStrings [js "1"; js ""; js "2"]) = true.
Proof.
  apply (@X13_multiple_keys_shape
           [(js "a", js ""); (js "a", js "1"); (js "b", js "x");
            (js "a", js ""); (js "a", js "2")] (js "a"));
    reflexivity.
Defined.

(** ** The parts of a filled route *)

Section SplitJoin.
Variable sep : char.

Lemma join_split (s : jsstring) : join [sep] (split sep s) = s.
Proof.
  induction s as [|c s IH]; [reflexivity|].
  cbn [split]. pose proof (split_nonempty sep s) as Hn.
  destruct (N.eqb c sep) eqn:E.
  - apply N.eqb_eq in E. subst c.
    destruct (split sep s) as [|x xs]; [congruence|].
    cbn [join app] in *. now rewrite IH.
  - destruct (split sep s) as [|x xs]; [congruence|].
    destruct xs; cbn [join app] in *; now rewrite <- IH.
Qed.

Lemma split_no_sep (s : jsstring) :
  Forall (fun part => ~ In sep part) (split sep s).
Proof.
  induction s as [|c s IH]; [repeat constructor; auto|].
  cbn [split]. destruct (N.eqb c sep) eqn:E.
  - constructor; auto.
  - apply N.eqb_neq in E.
    destruct (split sep s) as [|x xs]; [repeat constructor|].
    + simpl. intuition congruence.
    + inversion IH; subst. constructor; [|assumption].
      simpl. intuition congruence.
Qed.

Lemma split_app (a b : jsstring) :
  ~ In sep a ->
  split sep (a ++ sep :: b) = a :: split sep b.
Proof.
  induction a as [|c a IH]; intros Hn.
  - cbn [app split]. now rewrite N.eqb_refl.
  - cbn [app split]. destruct (N.eqb c sep) eqn:E.
    + apply N.eqb_eq in E. subst c. simpl in Hn. tauto.
    + rewrite IH by (simpl in Hn; tauto). reflexivity.
Qed.

Lemma split_plain (a : jsstring) : ~ In sep a -> split sep a = [a].
Proof.
  induction a as [|c a IH]; intros Hn; [reflexivity|].
  cbn [split]. destruct (N.eqb c sep) eqn:E.
  - apply N.eqb_eq in E. subst c. simpl in Hn. tauto.
  - rewrite IH by (simpl in Hn; tauto). reflexivity.
Qed.

Lemma split_join (parts : list jsstring) :
  parts <> [] -> Forall (fun part => ~ In sep part) parts ->
  split sep (join [sep] parts) = parts.
Proof.
  induction parts as [|x parts IH]; [congruence|]. intros _ Hf.
  inversion Hf as [|? ? Hx Hf']; subst.
  destruct parts as [|y parts].
  - cbn [join]. now apply split_plain.
  - change (join [sep] (x :: y :: parts))
      with (x ++ sep :: join [sep] (y :: parts)).
    rewrite split_app by assumption. f_equal.
    apply IH; [discriminate|assumption].
Qed.

End SplitJoin.

Section Parts.
Variable routeParams : object.

Lemma fillSegments_pushes (segments : list jsstring) (acc : list jsstring)
  (parts : list jsstring) :
  fillSegments routeParams (map parseSegment segments) acc = Ok parts
  <-> exists pushed,
      pushes routeParams segments pushed /\ parts = acc ++ concat pushed.
Proof.
  revert acc. induction segments as [|segment segments IH]; intros acc.
  - cbn. split.
    + intros [= <-]. exists []. split; [constructor|].
      now rewrite app_nil_r.
    + intros [pushed [Hp ->]]. inversion Hp; subst.
      cbn. now rewrite app_nil_r.
  - cbn [map fillSegments]. split.
    + intros H. apply bind_ok in H. destruct H as [p [Hp H]].
      apply IH in H. destruct H as [pushed [Hps ->]].
      exists (p :: pushed). split; [now constructor|].
      cbn [concat]. now rewrite app_assoc.
    + intros [pushed [Hp ->]]. inversion Hp as [|? p ? ps H1 H2]; subst.
      rewrite H1. cbn [bind]. apply IH. exists ps. split; [assumption|].
      cbn [concat]. now rewrite app_assoc.
Qed.

Lemma encodeAndFillRoute_pushes (route s : jsstring) :
  encodeAndFillRoute route routeParams = Ok s
  <-> exists pushed,
      pushes routeParams (split 47%N route) pushed
      /\ s = join (js "/") (concat pushed).
Proof.
  unfold encodeAndFillRoute. split.
  - intros H. apply bind_ok in H. destruct H as [parts [Hp [= <-]]].
    apply fillSegments_pushes in Hp. destruct Hp as [pushed [Hp ->]].
    exists pushed. auto.
  - intros [pushed [Hp ->]].
    assert (H : fillSegments routeParams
                  (map parseSegment (split 47%N route)) []
                = Ok (concat pushed))
      by (apply fillSegments_pushes; exists pushed; auto).
    rewrite H. reflexivity.
Qed.

Lemma percent_encoded_no_slash (t : jsstring) :
  percent_encoded t = true -> ~ In 47%N t.
Proof.
  unfold percent_encoded. rewrite forallb_forall. intros H Hin.
  apply H in Hin. discriminate.
Qed.

Lemma read_code_units (k : jsstring) :
  code_units (VObject routeParams) = true ->
  code_units (read routeParams k) = true.
Proof.
  cbn [code_units]. unfold read.
  induction routeParams as [|[k0 v0] o IH].
  - intros _. cbn. unfold prototype_value.
    destruct (eqb k (js "__proto__")); [reflexivity|].
    destruct (inherited k); reflexivity.
  - cbn. intros [[_ H0]%andb_prop H]%andb_prop.
    destruct (eqb k0 k); [exact H0|]. apply IH. exact H.
Qed.

Lemma mapM_encodeValue_no_slash (l : list jsval) (ts : list jsstring) :
  forallb code_units l = true -> mapM encodeValue l = Ok ts ->
  Forall (fun part => ~ In 47%N part) ts.
Proof.
  revert ts. induction l as [|v l IH]; intros ts Hc H.
  - injection H as <-. constructor.
  - cbn [mapM] in H. cbn in Hc. apply andb_prop in Hc. destruct Hc as [Hv Hl].
    apply bind_ok in H. destruct H as [t [Ht H]].
    apply bind_ok in H. destruct H as [ts' [Hts [= <-]]].
    constructor; [|now apply IH].
    apply percent_encoded_no_slash. eapply encodeValue_chars; eassumption.
Qed.

Lemma encodeValue_one_no_slash (v : jsval) (parts : list jsstring) :
  code_units v = true ->
  (e <- encodeValue v ;; Ok [e]) = Ok parts ->
  Forall (fun part => ~ In 47%N part) parts.
Proof.
  intros Hc H. apply bind_ok in H. destruct H as [t [Ht [= <-]]].
  constructor; [|constructor].
  apply percent_encoded_no_slash. eapply encodeValue_chars; eassumption.
Qed.

Lemma fillSegment_no_slash (segment : jsstring) (parts : list jsstring) :
  code_units (VObject routeParams) = true ->
  ~ In 47%N segment ->
  fillSegment routeParams (parseSegment segment) = Ok parts ->
  Forall (fun part => ~ In 47%N part) parts.
Proof.
  intros Hc Hs. unfold fillSegment.
  pose proof (read_code_units (value (parseSegment segment)) Hc) as Hv.
  destruct (type (parseSegment segment)) eqn:Et.
  - intros [= <-]. rewrite parseSegment_value, Et.
    constructor; [exact Hs|constructor].
  - destruct (read routeParams (value (parseSegment segment))) eqn:Eg;
      try discriminate; now apply encodeValue_one_no_slash.
  - destruct (read routeParams (value (parseSegment segment))) eqn:Eg;
      try discriminate; try (now apply encodeValue_one_no_slash).
    now apply mapM_encodeValue_no_slash.
  - destruct (read routeParams (value (parseSegment segment))) eqn:Eg;
      try (now apply encodeValue_one_no_slash).
    + intros [= <-]. constructor.
    + now apply mapM_encodeValue_no_slash.
Qed.

Lemma pushes_no_slash (segments : list jsstring)
  (pushed : list (list jsstring)) :
  code_units (VObject routeParams) = true ->
  Forall (fun segment => ~ In 47%N segment) segments ->
  pushes routeParams segments pushed ->
  Forall (fun part => ~ In 47%N part) (concat pushed).
Proof.
  intros Hc Hs Hp. induction Hp as [|segment parts segments pushed H Hp IH].
  - constructor.
  - inversion Hs; subst. cbn [concat]. apply Forall_app. split.
    + eapply fillSegment_no_slash; eassumption.
    + now apply IH.
Qed.

End Parts.

Lemma all_static_pushes (routeParams : object) (segments : list jsstring) :
  all_static segments = true ->
  pushes routeParams segments (map (fun segment => [segment]) segments).
Proof.
  unfold all_static. induction segments as [|segment segments IH]; cbn.
  - constructor.
  - intros [H Hs]%andb_prop. constructor; [|now apply IH].
    rewrite parseSegment_static by exact H. reflexivity.
Qed.

Lemma concat_singletons (A : Type) (l : list A) :
  concat (map (fun x => [x]) l) = l.
Proof. induction l as [|x l IH]; cbn; congruence. Qed.

Lemma static_route (route : jsstring) (routeParams : object) :
  all_static (split 47%N route) = true ->
  encodeAndFillRoute route routeParams = Ok route.
Proof.
  intros H. apply encodeAndFillRoute_pushes.
  exists (map (fun segment => [segment]) (split 47%N route)).
  split; [now apply all_static_pushes|].
  rewrite concat_singletons. symmetry. apply (join_split 47%N).
Qed.

(** X5. For a route whose segments are all static, [encodeAndFillRoute]
    returns the route as it is, whatever [routeParams] holds, and never
    throws; so [$path] gives the same result with [routeParams] as
    without. *)
Theorem X5_static_route_verbatim (route : jsstring) (routeParams : object) :
  all_static (split 47%N route) = true ->
  encodeAndFillRoute route routeParams = Ok route
  /\ forall searchParams,
      dollar_path route searchParams (Some routeParams)
      = dollar_path route searchParams None.
Proof.
  intros H. apply (@static_route route routeParams) in H.
  split; [exact H|].
  intros [searchParams|]; cbn [dollar_path]; rewrite H; [|reflexivity].
  destruct (generateParamStringFromSearchParamObj searchParams);
    reflexivity.
Qed.

Lemma X5_static_route_verbatim_witness :
  encodeAndFillRoute (js "/about//team/") [(js "about", VNumber NaN)]
  = Ok (js "/about//team/")
  /\ forall searchParams,
      dollar_path (js "/about//team/") searchParams
        (Some [(js "about", VNumber NaN)])
      = dollar_path (js "/about//team/") searchParams None.
Proof. apply X5_static_route_verbatim. reflexivity. Defined.

Lemma fillSegment_frame (a b : object) (segment : Segment) :
  (type segment <> static -> read a (value segment) = read b (value segment)) ->
  fillSegment a segment = fillSegment b segment.
Proof.
  unfold fillSegment. intros H.
  destruct (type segment); [reflexivity|..]; now rewrite H.
Qed.

Lemma fillSegments_frame (a b : object) (parsed : list Segment)
  (parts : list jsstring) :
  (forall segment, In segment parsed -> type segment <> static ->
                   read a (value segment) = read b (value segment)) ->
  fillSegments a parsed parts = fillSegments b parsed parts.
Proof.
  revert parts. induction parsed as [|segment parsed IH]; intros parts H;
    [reflexivity|].
  cbn [fillSegments]. rewrite (@fillSegment_frame a b segment).
  - destruct (fillSegment b segment) as [pushed|e]; [|reflexivity].
    cbn [bind]. apply IH. intros s Hin. apply H. now right.
  - apply H. now left.
Qed.

(** X6. [encodeAndFillRoute] reads [routeParams] only at the names of the
    non-static segments of the route: two objects for which
    [routeParams[name]], the own value or else the one inherited from
    [Object.prototype], is the same at each of these names give the same
    path, or the same error. *)
Theorem X6_route_params_frame (route : jsstring) (a b : object) :
  (forall segment,
      In segment (split 47%N route) ->
      type (parseSegment segment) <> static ->
      read a (value (parseSegment segment))
      = read b (value (parseSegment segment))) ->
  encodeAndFillRoute route a = encodeAndFillRoute route b.
Proof.
  intros H. unfold encodeAndFillRoute.
  rewrite (@fillSegments_frame a b); [reflexivity|].
  intros segment [s [<- Hin]]%in_map_iff. now apply H.
Qed.

Lemma X6_route_params_frame_witness :
  encodeAndFillRoute (js "/[id]/[[...toString]]")
    [(js "id", VBool true); (js "other", VSymbol);
     (js "toString", VFunction)]
  = encodeAndFillRoute (js "/[id]/[[...toString]]")
      [(js "x", VBigInt); (js "id", VBool true)].
Proof.
  apply X6_route_params_frame.
  intros segment [<-|[<-|[<-|[]]]] _; reflexivity.
Defined.

Lemma pushes_singletons (routeParams : object) (segments : list jsstring)
  (pushed : list (list jsstring)) :
  no_catchAll segments = true -> pushes routeParams segments pushed ->
  Forall2 (fun segment part =>
             fillSegment routeParams (parseSegment segment) = Ok [part])
          segments (concat pushed).
Proof.
  intros Hn Hp. induction Hp as [|segment parts segments pushed H Hp IH].
  - constructor.
  - cbn in Hn. apply andb_prop in Hn. destruct Hn as [Ht Hn].
    specialize (IH Hn).
    assert (Hone : exists part, parts = [part]).
    { unfold fillSegment in H.
      destruct (type (parseSegment segment)); try discriminate.
      - injection H as <-. eauto.
      - destruct (read routeParams (value (parseSegment segment)));
          try discriminate;
          apply bind_ok in H; destruct H as [t [_ [= <-]]]; eauto. }
    destruct Hone as [part ->]. cbn [concat app].
    constructor; assumption.
Qed.

(** X7. When every string in [routeParams] is made of code units and
    [encodeAndFillRoute] returns a path, the path is the parts that the
    segments of the route pushed, joined by slashes, and it splits at the
    slashes into exactly these parts when there is one at least: no value
    adds or removes a separator.  For a route of static and dynamic
    segments the path has a part for every segment of the route. *)
Theorem X7_filled_route_parts (route s : jsstring) (routeParams : object) :
  code_units (VObject routeParams) = true ->
  encodeAndFillRoute route routeParams = Ok s ->
  exists pushed,
    pushes routeParams (split 47%N route) pushed
    /\ s = join (js "/") (concat pushed)
    /\ (concat pushed <> [] -> split 47%N s = concat pushed)
    /\ (no_catchAll (split 47%N route) = true ->
        Forall2 (fun segment part =>
                   fillSegment routeParams (parseSegment segment) = Ok [part])
                (split 47%N route) (split 47%N s)).
Proof.
  intros Hc [pushed [Hp ->]]%encodeAndFillRoute_pushes.
  assert (Hs : concat pushed <> [] ->
               split 47%N (join (js "/") (concat pushed)) = concat pushed).
  { intros Hne. apply (@split_join 47%N); [exact Hne|].
    eapply pushes_no_slash; [exact Hc| |exact Hp]. apply split_no_sep. }
  exists pushed. split; [exact Hp|]. split; [reflexivity|].
  split; [exact Hs|]. intros Hn.
  pose proof (pushes_singletons Hn Hp) as Hf.
  rewrite Hs; [exact Hf|].
  intros E. rewrite E in Hf. inversion Hf as [E'|]; subst.
  symmetry in E'. now apply split_nonempty in E'.
Qed.

Lemma X7_filled_route_parts_witness :
  exists pushed,
    pushes [(js "id", VString (js "a/b c"))] (split 47%N (js "/product/[id]"))
      pushed
    /\ js "/product/a%2Fb%20c" = join (js "/") (concat pushed)
    /\ (concat pushed <> [] ->
        split 47%N (js "/product/a%2Fb%20c") = concat pushed)
    /\ (no_catchAll (split 47%N (js "/product/[id]")) = true ->
        Forall2 (fun segment part =>
                   fillSegment [(js "id", VString (js "a/b c"))]
                     (parseSegment segment) = Ok [part])
                (split 47%N (js "/product/[id]"))
                (split 47%N (js "/product/a%2Fb%20c"))).
Proof. apply X7_filled_route_parts; reflexivity. Defined.

(** ** The query string *)

Lemma mapM_Forall2 (A B : Type) (f : A -> result B) (l : list A)
  (bs : list B) :
  mapM f l = Ok bs <-> Forall2 (fun a b => f a = Ok b) l bs.
Proof.
  revert bs. induction l as [|a l IH]; intros bs; cbn [mapM].
  - split.
    + intros [= <-]. constructor.
    + intros H. inversion H. reflexivity.
  - split.
    + intros H. apply bind_ok in H. destruct H as [b [Hb H]].
      apply bind_ok in H. destruct H as [bs' [Hbs [= <-]]].
      constructor; [exact Hb|]. now apply IH.
    + intros H. inversion H as [|? b ? bs' Hb Hbs]; subst.
      rewrite Hb. cbn [bind]. apply IH in Hbs. rewrite Hbs. reflexivity.
Qed.

Lemma join_nil (sep : jsstring) (l : list jsstring) :
  sep <> [] -> (join sep l = [] <-> l = [] \/ l = [[]]).
Proof.
  intros Hs. destruct l as [|x [|y l]].
  - cbn. tauto.
  - cbn [join]. split.
    + intros ->. now right.
    + intros [H|H]; [discriminate|]. now injection H.
  - change (join sep (x :: y :: l)) with (x ++ sep ++ join sep (y :: l)).
    split.
    + intros H. apply app_eq_nil in H. destruct H as [_ H].
      apply app_eq_nil in H. destruct H as [H _]. contradiction.
    + intros [|]; discriminate.
Qed.

Lemma param_nil (kv : jsstring * jsval) :
  param kv = Ok [] <-> kv = ([], VUndefined).
Proof.
  destruct kv as [k v]. unfold param. split.
  - destruct v; try (intros [= ->]; reflexivity);
      intros H; apply bind_ok in H; destruct H as [e [_ H]];
      injection H as H; apply app_eq_nil in H; destruct H as [_ H];
      discriminate.
  - intros [= -> ->]. reflexivity.
Qed.

Lemma generateParamString_ok (obj : object) (q : jsstring) :
  generateParamStringFromSearchParamObj obj = Ok q
  <-> exists params,
      Forall2 (fun kv item => param kv = Ok item) obj params
      /\ q = match join (js "&") params with
             | [] => []
             | c :: rest => 63%N :: c :: rest
             end.
Proof.
  unfold generateParamStringFromSearchParamObj. split.
  - intros H. apply bind_ok in H. destruct H as [params [Hp H]].
    exists params. split; [now apply mapM_Forall2|].
    injection H as <-. now destruct (join (js "&") params).
  - intros [params [Hp ->]]. apply mapM_Forall2 in Hp. rewrite Hp.
    cbn [bind]. now destruct (join (js "&") params).
Qed.

(** X8. The query string that [generateParamStringFromSearchParamObj]
    returns is empty or a question mark followed by one character at
    least; it is empty exactly for the object without properties and for
    the object whose one property has the empty key and the value
    [undefined]. *)
Theorem X8_query_string_shape (obj : object) (q : jsstring) :
  generateParamStringFromSearchParamObj obj = Ok q ->
  (q = [] <-> obj = [] \/ obj = [([], VUndefined)])
  /\ (q = [] \/ exists c rest, q = 63%N :: c :: rest).
Proof.
  intros [params [Hp ->]]%generateParamString_ok.
  assert (Hj : join (js "&") params = []
               <-> obj = [] \/ obj = [([], VUndefined)]).
  { rewrite join_nil by discriminate. split.
    - intros [->| ->].
      + inversion Hp. auto.
      + inversion Hp as [|kv ? ? ? H Hr]; subst. inversion Hr; subst.
        apply param_nil in H. subst. auto.
    - intros [->| ->].
      + inversion Hp. auto.
      + inversion Hp as [|? item ? ? H Hr]; subst. inversion Hr; subst.
        cbn in H. injection H as <-. auto. }
  destruct (join (js "&") params) as [|c rest] eqn:E.
  - split; [|now left]. rewrite <- Hj. tauto.
  - split; [|right; eauto]. rewrite <- Hj. split; discriminate.
Qed.

Lemma X8_query_string_shape_witness :
  (js "" = [] <-> [(js "", VUndefined)] = [] \/
                  [(js "", VUndefined)] = [([], VUndefined)])
  /\ (js "" = [] \/ exists c rest, js "" = 63%N :: c :: rest).
Proof.
  apply (@X8_query_string_shape [(js "", VUndefined)] (js "")). reflexivity.
Defined.

Lemma percent_encoded_no (c : char) (t : jsstring) :
  unreserved c = false -> c <> 37%N ->
  percent_encoded t = true -> ~ In c t.
Proof.
  intros Hu Hc. unfold percent_encoded. rewrite forallb_forall.
  intros H Hin. apply H in Hin. rewrite Hu in Hin.
  apply N.eqb_eq in Hin. contradiction.
Qed.

Lemma lookup_code_units (o : object) :
  code_units (VObject o) = true ->
  forall kv, In kv o ->
             forallb code_unit (fst kv) = true /\ code_units (snd kv) = true.
Proof.
  cbn [code_units]. rewrite forallb_forall. intros H kv Hin.
  apply H in Hin. now apply andb_prop in Hin.
Qed.

Lemma param_no_ampersand (kv : jsstring * jsval) (item : jsstring) :
  code_units (snd kv) = true -> ~ In 38%N (fst kv) ->
  param kv = Ok item -> ~ In 38%N item.
Proof.
  destruct kv as [k v]. cbn [fst snd]. intros Hc Hk. unfold param.
  assert (He : (e <- encodeValue v ;; Ok (k ++ js "=" ++ e)) = Ok item ->
               ~ In 38%N item).
  { intros H. apply bind_ok in H. destruct H as [e [He [= <-]]].
    rewrite !in_app_iff. intros [Hin|[Hin|Hin]].
    - contradiction.
    - discriminate.
    - revert Hin. apply percent_encoded_no; [reflexivity|discriminate|].
      eapply encodeValue_chars; eassumption. }
  destruct v; try exact He. intros [= <-]. exact Hk.
Qed.

(** X9. When the keys of a non-empty object hold no ampersand and its
    strings are made of code units, the query string that
    [generateParamStringFromSearchParamObj] returns, without its question
    mark, splits at the ampersands into one item for every property, in
    the order of the properties: the key alone when the value is
    [undefined], the key, an equals sign and the encoded value otherwise.
    No value adds a parameter. *)
Theorem X9_query_string_items (obj : object) (q : jsstring) :
  code_units (VObject obj) = true ->
  forallb (fun kv => negb (existsb (N.eqb 38) (fst kv))) obj = true ->
  obj <> [] ->
  generateParamStringFromSearchParamObj obj = Ok q ->
  Forall2 (fun kv item =>
             match snd kv with
             | VUndefined => item = fst kv
             | value =>
                 exists e, encodeValue value = Ok e
                           /\ item = fst kv ++ js "=" ++ e
             end)
          obj (split 38%N (tl q)).
Proof.
  intros Hc Hk Hne [params [Hp Hq]]%generateParamString_ok.
  assert (Hs : split 38%N (join (js "&") params) = params).
  { apply (@split_join 38%N).
    - intros ->. inversion Hp. congruence.
    - pose proof (@lookup_code_units obj Hc) as Hcu.
      rewrite forallb_forall in Hk. clear Hne Hc Hq.
      induction Hp as [|kv item o ps H Hp IH]; constructor.
      + eapply param_no_ampersand; [apply Hcu; now left| |exact H].
        specialize (Hk kv (or_introl eq_refl)).
        apply negb_true_iff in Hk. intros Hin.
        assert (Ht : existsb (N.eqb 38) (fst kv) = true)
          by (apply existsb_exists; exists 38%N; split;
              [exact Hin|apply N.eqb_refl]).
        unfold jsstring, char in *. congruence.
      + apply IH.
        * intros x Hx. apply Hk. now right.
        * intros x Hx. apply Hcu. now right. }
  assert (Ht : tl q = join (js "&") params)
    by (rewrite Hq; now destruct (join (js "&") params)).
  rewrite Ht, Hs. clear Hs Ht Hq Hne Hk Hc.
  induction Hp as [|[k v] item o ps H Hp IH]; constructor; [|exact IH].
  cbn [fst snd]. unfold param in H.
  destruct v; try (injection H as <-; reflexivity);
    apply bind_ok in H; destruct H as [e [He [= <-]]]; eauto.
Qed.

Lemma X9_query_string_items_witness :
  Forall2 (fun kv item =>
             match snd kv with
             | VUndefined => item = fst kv
             | value =>
                 exists e, encodeValue value = Ok e
                           /\ item = fst kv ++ js "=" ++ e
             end)
          [(js "a", VString (js "x&y=1")); (js "b", VUndefined);
           (js "c=", VNull)]
          (split 38%N (tl (js "?a=x%26y%3D1&b&c==null"))).
Proof.
  apply X9_query_string_items; [reflexivity|reflexivity|discriminate|].
  reflexivity.
Defined.

(** ** Errors of the query string *)

Lemma mapM_first_throw (A B : Type) (f : A -> result B) (l : list A)
  (e : error) :
  mapM f l = Throw e
  <-> exists pre a post,
      l = pre ++ a :: post
      /\ (forall x, In x pre -> exists b, f x = Ok b)
      /\ f a = Throw e.
Proof.
  induction l as [|a l IH]; cbn [mapM].
  - split; [discriminate|]. intros [[|? ?] [? [? [? _]]]]; discriminate.
  - destruct (f a) as [b|e'] eqn:E; cbn [bind].
    + split.
      * intros H.
        assert (Hl : mapM f l = Throw e)
          by (destruct (mapM f l); [discriminate|exact H]).
        apply IH in Hl. destruct Hl as [pre [x [post [-> [Hpre Hx]]]]].
        exists (a :: pre), x, post. split; [reflexivity|]. split; [|exact Hx].
        intros y [<-|Hy]; [eauto|auto].
      * intros [[|a' pre] [x [post [Hl [Hpre Hx]]]]].
        -- injection Hl as <- _. congruence.
        -- injection Hl as <- ->.
           assert (Hm : mapM f (pre ++ x :: post) = Throw e).
           { apply IH. exists pre, x, post. split; [reflexivity|].
             split; [|exact Hx]. intros y Hy. apply Hpre. now right. }
           rewrite Hm. reflexivity.
    + split.
      * intros [= <-]. exists [], a, l. split; [reflexivity|].
        split; [intros ? []|exact E].
      * intros [[|a' pre] [x [post [Hl [Hpre Hx]]]]].
        -- injection Hl as <- _. congruence.
        -- injection Hl as <- _.
           destruct (Hpre a (or_introl eq_refl)) as [b Hb]. congruence.
Qed.

Lemma param_throw (kv : jsstring * jsval) (e : error) :
  param kv = Throw e <-> snd kv <> VUndefined /\ encodeValue (snd kv) = Throw e.
Proof.
  destruct kv as [k v]. unfold param. cbn [snd].
  destruct v; try (split; [discriminate|intros [H _]; congruence]);
    (split;
     [intros H; split; [discriminate|];
      destruct (encodeValue _); [discriminate|exact H]
     |intros [_ ->]; reflexivity]).
Qed.

Lemma param_ok (kv : jsstring * jsval) :
  (exists item, param kv = Ok item)
  <-> snd kv = VUndefined \/ exists t, encodeValue (snd kv) = Ok t.
Proof.
  destruct kv as [k v]. unfold param. cbn [snd].
  destruct v; try (split; [intros _; now left|intros _; eauto]);
    (split;
     [intros [item H]; right; apply bind_ok in H;
      destruct H as [t [Ht _]]; eauto
     |intros [H|[t Ht]]; [discriminate|rewrite Ht; cbn [bind]; eauto]]).
Qed.

(** X10. [generateParamStringFromSearchParamObj] throws exactly when a
    value that is not [undefined] cannot be encoded, and the error is the
    one [encodeValue] raises for the first such value in the order of the
    properties. *)
Theorem X10_query_string_error (obj : object) (e : error) :
  generateParamStringFromSearchParamObj obj = Throw e
  <-> exists pre key value post,
      obj = pre ++ (key, value) :: post
      /\ (forall kv, In kv pre ->
                     snd kv = VUndefined
                     \/ exists t, encodeValue (snd kv) = Ok t)
      /\ value <> VUndefined
      /\ encodeValue value = Throw e.
Proof.
  assert (Hm : generateParamStringFromSearchParamObj obj = Throw e
               <-> mapM param obj = Throw e).
  { unfold generateParamStringFromSearchParamObj.
    destruct (mapM param obj); cbn [bind];
      [split; discriminate|split; intros [= ->]; reflexivity]. }
  rewrite Hm, mapM_first_throw. split.
  - intros [pre [[k v] [post [-> [Hpre H]]]]].
    apply param_throw in H. destruct H as [Hv He].
    exists pre, k, v, post. split; [reflexivity|].
    split; [|split; assumption].
    intros kv Hin. apply param_ok. auto.
  - intros [pre [k [v [post [-> [Hpre [Hv He]]]]]]].
    exists pre, (k, v), post. split; [reflexivity|]. split.
    + intros kv Hin. apply param_ok. auto.
    + apply param_throw. auto.
Qed.

(** ** Distinct values, distinct tokens *)

(** X12. [encodeValue] is injective on the JSON-compatible values that are
    not strings, and on the non-empty strings without lone surrogate: two
    such values with the same token are the same value.  (A string and a
    value that is not a string can share a token.) *)
Theorem X12_encodeValue_injective :
  (forall v w t,
      json_compatible v = true -> json_compatible w = true ->
      match v with VString _ => False | _ => True end ->
      match w with VString _ => False | _ => True end ->
      encodeValue v = Ok t -> encodeValue w = Ok t -> v = w)
  /\ (forall s s' t,
         forallb code_unit s = true -> forallb code_unit s' = true ->
         encodeValue (VString s) = Ok t -> encodeValue (VString s') = Ok t ->
         s = s').
Proof.
  split.
  - intros v w t Hv Hw Nv Nw Ev Ew.
    destruct (round_trip_value v Hv Nv) as [t1 [E1 D1]].
    destruct (round_trip_value w Hw Nw) as [t2 [E2 D2]].
    congruence.
  - intros s s' t Hs Hs' E E'.
    destruct s as [|c s]; [discriminate|].
    destruct s' as [|c' s']; [discriminate|].
    cbn [encodeValue] in E, E'. unfold encodeURIComponent in E, E'.
    pose proof (@decode_encode _ Hs _ E) as D.
    pose proof (@decode_encode _ Hs' _ E') as D'.
    congruence.
Qed.

(** ** The parts of a path *)







(** ** More on route parameters *)

Lemma optional_is_catchAll (s : jsstring) :
  is_optionalCatchAll_segment s = true -> is_catchAll_segment s = true.
Proof.
  unfold is_optionalCatchAll_segment, is_catchAll_segment.
  intros [[Hs He]%andb_prop Hi]%andb_prop. rewrite Hi.
  apply startsWith_iff in Hs. destruct Hs as [r ->].
  apply endsWith_iff in He. destruct He as [a He].
  assert (H1 : startsWith (js "[[" ++ r) (js "[") = true)
    by reflexivity.
  assert (H2 : endsWith (js "[[" ++ r) (js "]") = true).
  { apply endsWith_iff. exists (a ++ js "]"). rewrite He.
    now rewrite <- app_assoc. }
  now rewrite H1, H2.
Qed.

Lemma slice_4_1 (name : jsstring) :
  slice (js "[[..." ++ name ++ js "]]") 4 (-1) = js "." ++ name ++ js "]".
Proof.
  change 4%Z with (Z.of_nat 4). change (-1)%Z with (- Z.of_nat 1)%Z.
  rewrite slice_strip by lia.
  replace (js "[[..." ++ name ++ js "]]")
    with (js "[[.." ++ (js "." ++ name ++ js "]") ++ js "]")
    by (cbn; now rewrite <- app_assoc).
  apply (strip_app (js "[[..") (js "." ++ name ++ js "]") (js "]")).
Qed.

(** X14. For every optional catch-all segment of the path, the object
    [getDynamicRouteParams] returns has, beside the name of the segment, a
    second key: the segment without its first four characters and its last
    one, which for a segment written [[[...name]]] is [.name]].  The key is
    bound like a catch-all name, so to the one-element array holding
    [undefined] when the query has no such key. *)
Theorem X14_optional_catchAll_second_key (path : jsstring)
  (query : query_object) (segment : jsstring) :
  In segment (split 47%N path) ->
  type (parseSegment segment) = optionalCatchAll ->
  exists r,
    getDynamicRouteParams path query = Ok r
    /\ In (slice segment 4 (-1)) (Obj.keys r)
    /\ slice segment 4 (-1) <> value (parseSegment segment)
    /\ get r (slice segment 4 (-1))
       = wrap (parsed (query_get query (slice segment 4 (-1))))
    /\ (query_get query (slice segment 4 (-1)) = RUndefined ->
        get r (slice segment 4 (-1)) = VArray [VUndefined])
    /\ (forall name,
           segment = js "[[..." ++ name ++ js "]]" ->
           slice segment 4 (-1) = js "." ++ name ++ js "]").
Proof.
  intros Hin Ht.
  pose proof (proj1 (parseSegment_optionalCatchAll segment) Ht) as Ho.
  pose proof (optional_is_catchAll segment Ho) as Hc.
  destruct (getDynamicRouteParams_lookup query path) as [r [Hr Hl]].
  exists r. split; [exact Hr|].
  assert (Hn : existsb (eqb (slice segment 4 (-1)))
                 (optionalCatchAllParamNames (split 47%N path)
                  ++ catchAllParamNames (split 47%N path)) = true).
  { apply existsb_eqb, in_app_iff. right. unfold catchAllParamNames.
    apply (in_map (fun s => slice s 4 (-1))), filter_In. auto. }
  specialize (Hl (slice segment 4 (-1))). rewrite Hn in Hl.
  split; [eapply lookup_in, Hl|]. split; [|split; [|split]].
  - rewrite parseSegment_value, Ht.
    change 4%Z with (Z.of_nat 4). change (-1)%Z with (- Z.of_nat 1)%Z.
    rewrite slice_strip by lia. intros E.
    apply (f_equal (@length _)) in E. rewrite !strip_length in E.
    unfold is_optionalCatchAll_segment in Ho.
    apply andb_prop in Ho. destruct Ho as [Ho Hi].
    apply andb_prop in Ho. destruct Ho as [Hs He].
    destruct (optionalCatchAll_length segment Hs He Hi) as [Hlen _].
    unfold jsstring, char in *. lia.
  - unfold get. now rewrite Hl.
  - intros E. unfold get. now rewrite Hl, E.
  - intros name ->. apply slice_4_1.
Qed.

Lemma X14_optional_catchAll_second_key_witness :
  exists r,
    getDynamicRouteParams (js "/docs/[[...slug]]")
      [(js "slug", RStrings [js "a"; js "b"])] = Ok r
    /\ In (slice (js "[[...slug]]") 4 (-1)) (Obj.keys r)
    /\ slice (js "[[...slug]]") 4 (-1)
       <> value (parseSegment (js "[[...slug]]"))
    /\ get r (slice (js "[[...slug]]") 4 (-1))
       = wrap (parsed (query_get [(js "slug", RStrings [js "a"; js "b"])]
                         (slice (js "[[...slug]]") 4 (-1))))
    /\ (query_get [(js "slug", RStrings [js "a"; js "b"])]
          (slice (js "[[...slug]]") 4 (-1)) = RUndefined ->
        get r (slice (js "[[...slug]]") 4 (-1)) = VArray [VUndefined])
    /\ (forall name,
           js "[[...slug]]" = js "[[..." ++ name ++ js "]]" ->
           slice (js "[[...slug]]") 4 (-1) = js "." ++ name ++ js "]").
Proof.
  apply X14_optional_catchAll_second_key.
  - right. right. now left.
  - reflexivity.
Defined.

Lemma fold_set_ext (V : Type) (f g : jsstring -> V) (names : list jsstring)
  (o : Obj.props V) :
  (forall name, In name names -> f name = g name) ->
  fold_left (fun t name => Obj.set t name (f name)) names o
  = fold_left (fun t name => Obj.set t name (g name)) names o.
Proof.
  revert o. induction names as [|n names IH]; intros o H; [reflexivity|].
  cbn [fold_left]. rewrite (H n (or_introl eq_refl)).
  apply IH. intros name Hin. apply H. now right.
Qed.

Lemma all_static_names (segments : list jsstring) :
  all_static segments = true -> allParamNames segments = [].
Proof.
  unfold allParamNames, optionalCatchAllParamNames, catchAllParamNames,
    dynamicParamNames, all_static.
  induction segments as [|s segments IH]; [reflexivity|].
  cbn [forallb filter]. intros [Hs H]%andb_prop.
  unfold no_bracket_rule in Hs.
  apply andb_prop in Hs. destruct Hs as [Hs Hd].
  apply andb_prop in Hs. destruct Hs as [Ho Hc].
  apply negb_true_iff in Ho, Hc, Hd. rewrite Ho, Hc, Hd. now apply IH.
Qed.

(** X15. [getDynamicRouteParams] reads the query only at the names it
    collects from the bracketed segments of the path: when none of these
    names is inherited from [Object.prototype], two queries that agree on
    them give the same object.  For a path of static segments it returns
    the empty object whatever the query holds. *)
Theorem X15_route_params_frame (path : jsstring) :
  (own_params path = true ->
   forall query query',
      (forall name,
          In name (allParamNames (split 47%N path)) ->
          query_get query name = query_get query' name) ->
      getDynamicRouteParams path query = getDynamicRouteParams path query')
  /\ (all_static (split 47%N path) = true ->
      forall query, getDynamicRouteParams path query = Ok []).
Proof.
  split.
  - intros _ query query' H. unfold getDynamicRouteParams.
    rewrite !parseCatchAll_fold, !parseNonCatchAll_fold.
    rewrite (@fold_set_ext _
               (fun name => wrap (parsed (query_get query name)))
               (fun name => wrap (parsed (query_get query' name)))).
    + rewrite (@fold_set_ext _
                 (fun name => parsed (query_get query name))
                 (fun name => parsed (query_get query' name)));
        [reflexivity|].
      intros name Hin. rewrite H; [reflexivity|].
      unfold allParamNames. rewrite !in_app_iff. auto.
    + intros name Hin. rewrite H; [reflexivity|].
      unfold allParamNames. rewrite app_assoc, in_app_iff. auto.
  - intros Hs query. apply all_static_names in Hs.
    unfold allParamNames in Hs.
    apply app_eq_nil in Hs. destruct Hs as [Ho Hs].
    apply app_eq_nil in Hs. destruct Hs as [Hc Hd].
    unfold getDynamicRouteParams. rewrite Ho, Hc, Hd. reflexivity.
Qed.

(** ** [URLSearchParams]: the UTF-8 decoder *)

Ltac boolean_facts :=
  repeat match goal with
    | H : (_ && _)%bool = true |- _ => apply andb_prop in H as [? ?]
    | H : (_ || _)%bool = true |- _ => apply orb_prop in H as [?|?]
    | H : (_ && _)%bool = false |- _ => apply andb_false_iff in H as [?|?]
    | H : (_ || _)%bool = false |- _ => apply orb_false_iff in H as [? ?]
    | H : negb _ = true |- _ => apply negb_true_iff in H
    | H : negb _ = false |- _ => apply negb_false_iff in H
    | H : (_ <=? _)%N = true |- _ => apply N.leb_le in H
    | H : (_ <=? _)%N = false |- _ => apply N.leb_gt in H
    | H : (_ <? _)%N = true |- _ => apply N.ltb_lt in H
    | H : (_ <? _)%N = false |- _ => apply N.ltb_ge in H
    | H : (_ =? _)%N = true |- _ => apply N.eqb_eq in H
    | H : (_ =? _)%N = false |- _ => apply N.eqb_neq in H
    end.

Section Utf8Decoder.

Import URLSearchParams.
Local Open Scope N_scope.

Lemma land_mod (a : N) (n : N) : N.land a (N.ones n) = a mod 2 ^ n.
Proof. apply N.land_ones. Qed.

Lemma lor_add (a r : N) : r < 64 -> N.lor (N.shiftl a 6) r = a * 64 + r.
Proof.
  intros Hr. rewrite N.shiftl_mul_pow2. change (2 ^ 6) with 64.
  assert (Hl : N.land (a * 64) r = 0).
  { apply N.bits_inj_0. intros n. rewrite N.land_spec.
    destruct (N.lt_ge_cases n 6) as [Hn|Hn].
    - change 64 with (2 ^ 6). rewrite N.mul_pow2_bits_low by exact Hn.
      reflexivity.
    - destruct (N.eq_dec r 0) as [->|Hnz];
        [rewrite N.bits_0; apply andb_false_r|].
      rewrite (N.bits_above_log2 r n); [apply andb_false_r|].
      apply N.log2_lt_pow2; [lia|].
      apply N.lt_le_trans with (2 ^ 6); [exact Hr|].
      apply N.pow_le_mono_r; lia. }
  rewrite <- N.lxor_lor by exact Hl.
  symmetry. apply N.add_nocarry_lxor. exact Hl.
Qed.

Lemma continue_add (cp byte : N) :
  N.lor (N.shiftl cp 6) (N.land byte 0x3F) = cp * 64 + byte mod 64.
Proof.
  change 0x3F with (N.ones 6). rewrite land_mod. change (2 ^ 6) with 64.
  apply lor_add. lia.
Qed.

Lemma lead_ascii (byte : N) : byte < 0x80 -> lead byte = (initial, [byte]).
Proof.
  intros H. unfold lead. destruct (N.leb_spec byte 0x7F); [reflexivity|lia].
Qed.

Lemma run_ascii (byte : N) (bytes : list N) :
  byte < 0x80 -> run initial (byte :: bytes) = byte :: run initial bytes.
Proof.
  intros H. cbn [run]. unfold handler. cbn [bytes_needed initial N.eqb].
  rewrite lead_ascii by exact H. reflexivity.
Qed.

Lemma handler_lead (st : decoder) (byte : N) :
  bytes_needed st = 0 -> handler st byte = lead byte.
Proof. intros H. unfold handler. rewrite H. reflexivity. Qed.

Lemma lead2 (byte : N) :
  0xC2 <= byte <= 0xDF ->
  lead byte = ({| code_point := byte mod 32; bytes_seen := 0;
                  bytes_needed := 1;
                  lower_boundary := 0x80; upper_boundary := 0xBF |}, []).
Proof.
  intros H. unfold lead.
  destruct (N.leb_spec byte 0x7F); [lia|].
  destruct (N.leb_spec 0xC2 byte); [|lia].
  destruct (N.leb_spec byte 0xDF); [|lia].
  cbn [andb]. change 0x1F with (N.ones 5). rewrite land_mod. reflexivity.
Qed.

Lemma lead3 (byte : N) :
  0xE0 <= byte <= 0xEF ->
  lead byte = ({| code_point := byte mod 16; bytes_seen := 0;
                  bytes_needed := 2;
                  lower_boundary := if byte =? 0xE0 then 0xA0 else 0x80;
                  upper_boundary := if byte =? 0xED then 0x9F else 0xBF |},
               []).
Proof.
  intros H. unfold lead.
  destruct (N.leb_spec byte 0x7F); [lia|].
  destruct (N.leb_spec 0xC2 byte); [|lia].
  destruct (N.leb_spec byte 0xDF); [lia|].
  destruct (N.leb_spec 0xE0 byte); [|lia].
  destruct (N.leb_spec byte 0xEF); [|lia].
  cbn [andb]. change 0xF with (N.ones 4). rewrite land_mod. reflexivity.
Qed.

Lemma lead4 (byte : N) :
  0xF0 <= byte <= 0xF4 ->
  lead byte = ({| code_point := byte mod 8; bytes_seen := 0;
                  bytes_needed := 3;
                  lower_boundary := if byte =? 0xF0 then 0x90 else 0x80;
                  upper_boundary := if byte =? 0xF4 then 0x8F else 0xBF |},
               []).
Proof.
  intros H. unfold lead.
  destruct (N.leb_spec byte 0x7F); [lia|].
  destruct (N.leb_spec 0xC2 byte); [|lia].
  destruct (N.leb_spec byte 0xDF); [lia|].
  destruct (N.leb_spec 0xE0 byte); [|lia].
  destruct (N.leb_spec byte 0xEF); [lia|].
  destruct (N.leb_spec 0xF0 byte); [|lia].
  destruct (N.leb_spec byte 0xF4); [|lia].
  cbn [andb]. change 0x7 with (N.ones 3). rewrite land_mod. reflexivity.
Qed.

Lemma handler_last (st : decoder) (byte : N) :
  bytes_needed st <> 0 ->
  lower_boundary st <= byte <= upper_boundary st ->
  bytes_seen st + 1 = bytes_needed st ->
  handler st byte = (initial, [code_point st * 64 + byte mod 64]).
Proof.
  intros Hn Hb Hs. unfold handler.
  destruct (N.eqb_spec (bytes_needed st) 0); [contradiction|].
  destruct (N.leb_spec (lower_boundary st) byte); [|lia].
  destruct (N.leb_spec byte (upper_boundary st)); [|lia].
  cbn [andb negb]. rewrite continue_add, Hs, N.eqb_refl. reflexivity.
Qed.

Lemma handler_more (st : decoder) (byte : N) :
  bytes_needed st <> 0 ->
  lower_boundary st <= byte <= upper_boundary st ->
  bytes_seen st + 1 <> bytes_needed st ->
  handler st byte
  = ({| code_point := code_point st * 64 + byte mod 64;
        bytes_seen := bytes_seen st + 1;
        bytes_needed := bytes_needed st;
        lower_boundary := 0x80; upper_boundary := 0xBF |}, []).
Proof.
  intros Hn Hb Hs. unfold handler.
  destruct (N.eqb_spec (bytes_needed st) 0); [contradiction|].
  destruct (N.leb_spec (lower_boundary st) byte); [|lia].
  destruct (N.leb_spec byte (upper_boundary st)); [|lia].
  cbn [andb negb]. rewrite continue_add.
  destruct (N.eqb_spec (bytes_seen st + 1) (bytes_needed st));
    [contradiction|reflexivity].
Qed.

Ltac fields :=
  cbn [bytes_needed bytes_seen lower_boundary upper_boundary code_point];
  repeat match goal with
    | |- context [N.eqb ?a ?b] => destruct (N.eqb_spec a b)
    end;
  lia.

(** The decoder reads back the UTF-8 encoding of a scalar value. *)
Lemma run_utf8_encode (cp : N) (bytes : list N) :
  scalar cp ->
  run initial (utf8_encode cp ++ bytes) = cp :: run initial bytes.
Proof.
  intros [Hlt Hns]. unfold utf8_encode.
  destruct (N.ltb_spec cp 0x80) as [H1|H1]; [now apply run_ascii|].
  destruct (N.ltb_spec cp 0x800) as [H2|H2].
  { cbn [app run]. rewrite handler_lead by reflexivity.
    rewrite lead2 by lia. rewrite handler_last by fields.
    cbn [code_point app]. f_equal. lia. }
  destruct (N.ltb_spec cp 0x10000) as [H3|H3].
  { cbn [app run]. rewrite handler_lead by reflexivity.
    rewrite lead3 by lia. rewrite handler_more by fields.
    rewrite handler_last by fields.
    cbn [code_point app]. f_equal. lia. }
  cbn [app run]. rewrite handler_lead by reflexivity.
  rewrite lead4 by lia. rewrite handler_more by fields.
  rewrite handler_more by fields. rewrite handler_last by fields.
  cbn [code_point app]. f_equal. lia.
Qed.

End Utf8Decoder.

(** ** [URLSearchParams]: strings, scalar values and tokens *)

Section ScalarValues.

Import URLSearchParams.
Local Open Scope N_scope.

Lemma unreserved_plain (c : char) :
  unreserved c = true ->
  is_high_surrogate c = false /\ is_low_surrogate c = false.
Proof. intros H%unreserved_ascii. now apply ascii_plain. Qed.

(** A well-formed string and its scalar values. *)
Lemma scalar_values_well_formed (s : jsstring) :
  well_formed s = true -> forallb code_unit s = true ->
  Forall scalar (scalar_values s)
  /\ flat_map utf16_encode (scalar_values s) = s
  /\ URI.encode s = Ok (flat_map token (scalar_values s)).
Proof.
  induction s as [|c|c d s IH1 IH2] using list_ind2.
  - intros _ _. repeat split. constructor.
  - cbn [well_formed scalar_values forallb URI.encode].
    destruct (is_high_surrogate c) eqn:Hh; [discriminate|].
    destruct (is_low_surrogate c) eqn:Hl; [discriminate|].
    intros _ [Hc _]%andb_prop.
    destruct (unit_scalar c Hc Hh Hl) as [Hs Hu].
    split; [constructor; [exact Hs|constructor]|]. split.
    + cbn [flat_map]. rewrite Hu. reflexivity.
    + cbn [flat_map]. unfold token. rewrite app_nil_r.
      destruct (unreserved c); cbn [bind]; rewrite ?app_nil_r; reflexivity.
  - intros Hw Hc. cbn [forallb] in Hc.
    apply andb_prop in Hc. destruct Hc as [Hc Hds].
    pose proof Hds as Hds'. cbn [forallb] in Hds'.
    apply andb_prop in Hds'. destruct Hds' as [Hd Hs].
    change (well_formed (c :: d :: s))
      with (if is_high_surrogate c
            then is_low_surrogate d && well_formed s
            else negb (is_low_surrogate c) && well_formed (d :: s))%bool
      in Hw.
    change (scalar_values (c :: d :: s))
      with (if is_high_surrogate c then
              if is_low_surrogate d
              then pair_code_point c d :: scalar_values s
              else 0xFFFD :: scalar_values (d :: s)
            else if is_low_surrogate c then 0xFFFD :: scalar_values (d :: s)
                 else c :: scalar_values (d :: s)).
    change (URI.encode (c :: d :: s))
      with (if unreserved c then r <- URI.encode (d :: s) ;; Ok (c :: r)
            else if is_high_surrogate c then
                   if is_low_surrogate d then
                     r <- URI.encode s ;;
                     Ok (escape_code_point (pair_code_point c d) ++ r)
                   else Throw URIError
                 else if is_low_surrogate c then Throw URIError
                      else r <- URI.encode (d :: s) ;;
                           Ok (escape_code_point c ++ r)).
    destruct (is_high_surrogate c) eqn:Hh.
    + apply andb_prop in Hw. destruct Hw as [Hl Hw]. rewrite Hl.
      destruct (IH1 Hw Hs) as [Hf [Hu He]].
      destruct (pair_scalar c d Hh Hl) as [Hp Hp16].
      assert (Hnu : unreserved c = false).
      { destruct (unreserved c) eqn:E; [|reflexivity].
        apply unreserved_plain in E. destruct E. congruence. }
      assert (Hnp : unreserved (pair_code_point c d) = false).
      { destruct (unreserved (pair_code_point c d)) eqn:E; [|reflexivity].
        apply unreserved_ascii in E. unfold pair_code_point in E. lia. }
      rewrite Hnu. split; [now constructor|]. split.
      * cbn [flat_map]. rewrite Hp16, Hu. reflexivity.
      * rewrite He. cbn [bind flat_map].
        assert (Ht : token (pair_code_point c d)
                     = escape_code_point (pair_code_point c d))
          by (unfold token; now rewrite Hnp).
        rewrite Ht. reflexivity.
    + apply andb_prop in Hw. destruct Hw as [Hl Hw].
      apply negb_true_iff in Hl. rewrite Hl.
      destruct (IH2 Hw Hds) as [Hf [Hu He]].
      destruct (unit_scalar c Hc Hh Hl) as [Hp Hp16].
      split; [now constructor|]. split.
      * cbn [flat_map]. rewrite Hp16, Hu. reflexivity.
      * rewrite He. cbn [bind flat_map].
        assert (Ht : token c
                     = if unreserved c then [c] else escape_code_point c)
          by reflexivity.
        rewrite Ht. destruct (unreserved c); reflexivity.
Qed.

Lemma run_encode_string (cps : list N) :
  Forall scalar cps -> run initial (utf8_encode_string cps) = cps.
Proof.
  induction 1 as [|cp cps Hcp _ IH]; [reflexivity|].
  unfold utf8_encode_string. cbn [flat_map].
  rewrite run_utf8_encode by exact Hcp. f_equal. exact IH.
Qed.

(** Decoding the UTF-8 encoding of a well-formed string gives the string
    back. *)
Lemma utf8_decode_encode (s : jsstring) :
  well_formed s = true -> forallb code_unit s = true ->
  utf8_decode (utf8_encode_string (scalar_values s)) = s.
Proof.
  intros Hw Hc. destruct (scalar_values_well_formed s Hw Hc) as [Hf [Hu _]].
  unfold utf8_decode. rewrite run_encode_string by exact Hf. exact Hu.
Qed.

Lemma percent_decode_plain (byte : N) (rest : list N) :
  byte <> 0x25 ->
  percent_decode (byte :: rest) = byte :: percent_decode rest.
Proof.
  intros H. cbn [percent_decode].
  destruct (N.eqb_spec byte 0x25); [contradiction|reflexivity].
Qed.

Lemma percent_decode_percent (octet : N) (rest : list N) :
  octet < 256 ->
  percent_decode (percent octet ++ rest) = octet :: percent_decode rest.
Proof.
  intros H. unfold percent. cbn [app percent_decode N.eqb Pos.eqb].
  rewrite !hex_value_upper by lia.
  f_equal. lia.
Qed.

Lemma utf8_encode_bytes (cp : N) :
  cp < 0x110000 -> Forall (fun b => b < 256) (utf8_encode cp).
Proof.
  intros H. unfold utf8_encode.
  destruct (N.ltb_spec cp 0x80); [|destruct (N.ltb_spec cp 0x800);
    [|destruct (N.ltb_spec cp 0x10000)]];
    repeat constructor; lia.
Qed.

Lemma percent_decode_escape (cp : N) (rest : list N) :
  cp < 0x110000 ->
  percent_decode (escape_code_point cp ++ rest)
  = utf8_encode cp ++ percent_decode rest.
Proof.
  intros H%utf8_encode_bytes. unfold escape_code_point.
  induction H as [|b bs Hb _ IH]; [reflexivity|].
  cbn [flat_map]. rewrite <- !app_assoc.
  rewrite percent_decode_percent by exact Hb. cbn [app]. f_equal. exact IH.
Qed.

Lemma percent_decode_token (cp : N) (rest : list N) :
  cp < 0x110000 ->
  percent_decode (token cp ++ rest) = utf8_encode cp ++ percent_decode rest.
Proof.
  intros H. unfold token. destruct (unreserved cp) eqn:E.
  - cbn [app]. rewrite percent_decode_plain
      by (intros ->; discriminate).
    pose proof (unreserved_ascii _ E) as Ha. unfold utf8_encode.
    destruct (N.ltb_spec cp 0x80); [reflexivity|lia].
  - now apply percent_decode_escape.
Qed.

Lemma percent_decode_tokens (cps : list N) :
  Forall scalar cps ->
  percent_decode (flat_map token cps) = utf8_encode_string cps.
Proof.
  induction 1 as [|cp cps [Hcp _] _ IH]; [reflexivity|].
  cbn [flat_map]. rewrite percent_decode_token by exact Hcp.
  unfold utf8_encode_string. cbn [flat_map]. f_equal. exact IH.
Qed.

End ScalarValues.

(** ** [URLSearchParams]: the bytes of a query string *)

Section Bytes.

Import URLSearchParams.
Local Open Scope N_scope.

Lemma scalar_values_plain (c : char) (s : jsstring) :
  is_high_surrogate c = false -> is_low_surrogate c = false ->
  scalar_values (c :: s) = c :: scalar_values s.
Proof. intros Hh Hl. cbn [scalar_values]. now rewrite Hh, Hl. Qed.

Lemma scalar_values_app (a b : jsstring) :
  well_formed a = true ->
  scalar_values (a ++ b) = scalar_values a ++ scalar_values b.
Proof.
  induction a as [|c|c d a IH1 IH2] using list_ind2.
  - reflexivity.
  - cbn [well_formed].
    destruct (is_high_surrogate c) eqn:Hh; [discriminate|].
    destruct (is_low_surrogate c) eqn:Hl; [discriminate|]. intros _.
    change ([c] ++ b) with (c :: b).
    rewrite !scalar_values_plain by assumption. reflexivity.
  - change (well_formed (c :: d :: a))
      with (if is_high_surrogate c
            then is_low_surrogate d && well_formed a
            else negb (is_low_surrogate c) && well_formed (d :: a))%bool.
    destruct (is_high_surrogate c) eqn:Hh.
    + intros [Hl Hw]%andb_prop.
      change ((c :: d :: a) ++ b) with (c :: d :: (a ++ b)).
      cbn [scalar_values]. rewrite Hh, Hl, (IH1 Hw). reflexivity.
    + intros [Hl Hw]%andb_prop. apply negb_true_iff in Hl.
      change ((c :: d :: a) ++ b) with (c :: ((d :: a) ++ b)).
      rewrite !scalar_values_plain by assumption.
      rewrite (IH2 Hw). reflexivity.
Qed.

Lemma utf8_app (a b : jsstring) :
  well_formed a = true -> utf8 (a ++ b) = utf8 a ++ utf8 b.
Proof.
  intros H. unfold utf8, utf8_encode_string.
  rewrite scalar_values_app by exact H. apply flat_map_app.
Qed.

Lemma utf8_ascii (a : jsstring) : ascii_only a = true -> utf8 a = a.
Proof.
  unfold utf8, utf8_encode_string, ascii_only.
  induction a as [|c a IH]; [reflexivity|].
  cbn [forallb]. intros [Hc Ha]%andb_prop. apply N.ltb_lt in Hc.
  destruct (@ascii_plain c Hc) as [Hh Hl].
  rewrite scalar_values_plain by assumption. cbn [flat_map].
  rewrite (IH Ha). unfold utf8_encode.
  destruct (N.ltb_spec c 0x80); [reflexivity|lia].
Qed.

Lemma percent_encoded_ascii (t : jsstring) :
  percent_encoded t = true -> ascii_only t = true.
Proof.
  unfold percent_encoded, ascii_only. rewrite !forallb_forall.
  intros H c Hc. apply H in Hc. apply N.ltb_lt.
  apply orb_prop in Hc. destruct Hc as [Hu|He].
  - now apply unreserved_ascii.
  - apply N.eqb_eq in He. lia.
Qed.

(** A byte below 128 of the encoding of a string is a character of the
    string. *)
Lemma utf8_encode_low (cp b : N) :
  In b (utf8_encode cp) -> b < 128 -> b = cp.
Proof.
  unfold utf8_encode.
  destruct (N.ltb_spec cp 0x80); [|destruct (N.ltb_spec cp 0x800);
    [|destruct (N.ltb_spec cp 0x10000)]]; cbn [In];
    intros Hin Hb; repeat (destruct Hin as [Hin|Hin]; [lia|]);
    destruct Hin.
Qed.

Lemma scalar_values_low (s : jsstring) (cp : N) :
  In cp (scalar_values s) -> cp < 128 -> In cp s.
Proof.
  induction s as [|c|c d s IH1 IH2] using list_ind2.
  - intros [].
  - cbn [scalar_values].
    destruct (is_high_surrogate c); [|destruct (is_low_surrogate c)];
      cbn [In]; intros [H|[]] Hb; lia.
  - change (scalar_values (c :: d :: s))
      with (if is_high_surrogate c then
              if is_low_surrogate d
              then pair_code_point c d :: scalar_values s
              else 0xFFFD :: scalar_values (d :: s)
            else if is_low_surrogate c then 0xFFFD :: scalar_values (d :: s)
                 else c :: scalar_values (d :: s)).
    destruct (is_high_surrogate c) eqn:Hh;
      [destruct (is_low_surrogate d) eqn:Hl|destruct (is_low_surrogate c)];
      intros [H|H] Hb.
    + unfold pair_code_point in H. lia.
    + right. right. now apply IH1.
    + lia.
    + right. now apply IH2.
    + lia.
    + right. now apply IH2.
    + now left.
    + right. now apply IH2.
Qed.

Lemma utf8_low (s : jsstring) (b : N) :
  In b (utf8 s) -> b < 128 -> In b s.
Proof.
  unfold utf8, utf8_encode_string. intros H Hb.
  apply in_flat_map in H. destruct H as [cp [Hcp H]].
  apply utf8_encode_low in H; [|exact Hb]. subst cp.
  now apply scalar_values_low.
Qed.

Lemma utf8_nonempty (s : jsstring) : s <> [] -> utf8 s <> [].
Proof.
  destruct s as [|c s]; [congruence|]. intros _.
  unfold utf8, utf8_encode_string.
  assert (Hs : exists cp cps, scalar_values (c :: s) = cp :: cps).
  { cbn [scalar_values].
    destruct (is_high_surrogate c);
      [destruct s as [|d s]; [|destruct (is_low_surrogate d)]
      |destruct (is_low_surrogate c)]; eauto. }
  destruct Hs as [cp [cps ->]]. cbn [flat_map]. unfold utf8_encode.
  destruct (cp <? 0x80); [|destruct (cp <? 0x800);
    [|destruct (cp <? 0x10000)]]; discriminate.
Qed.

Lemma plus_to_space_id (bytes : list N) :
  ~ In 0x2B bytes -> plus_to_space bytes = bytes.
Proof.
  unfold plus_to_space. induction bytes as [|b bytes IH]; [reflexivity|].
  cbn [map In]. intros H. destruct (N.eqb_spec b 0x2B) as [->|_]; [tauto|].
  rewrite IH by tauto. reflexivity.
Qed.

Lemma percent_decode_id (bytes : list N) :
  ~ In 0x25 bytes -> percent_decode bytes = bytes.
Proof.
  induction bytes as [|b bytes IH]; [reflexivity|].
  cbn [In]. intros H. rewrite percent_decode_plain by tauto.
  rewrite IH by tauto. reflexivity.
Qed.

Lemma name_value_equals (name value : list N) :
  ~ In 0x3D name -> name_value (name ++ 0x3D :: value) = (name, value).
Proof.
  induction name as [|b name IH]; [reflexivity|].
  cbn [In app name_value]. intros H.
  destruct (N.eqb_spec b 0x3D) as [->|_]; [tauto|].
  rewrite IH by tauto. reflexivity.
Qed.

Lemma name_value_bare (name : list N) :
  ~ In 0x3D name -> name_value name = (name, []).
Proof.
  induction name as [|b name IH]; [reflexivity|].
  cbn [In name_value]. intros H.
  destruct (N.eqb_spec b 0x3D) as [->|_]; [tauto|].
  rewrite IH by tauto. reflexivity.
Qed.

(** A key without special characters is read back as it is. *)
Lemma safe_key_bytes (k : jsstring) :
  safe_key k = true ->
  utf8 k <> []
  /\ well_formed k = true
  /\ (forall b, In b (utf8 k) -> special b = false)
  /\ decode_string (utf8 k) = k.
Proof.
  unfold safe_key. destruct k as [|c k]; [discriminate|].
  intros [[[Hw Hc]%andb_prop Hs]%andb_prop _]%andb_prop.
  assert (Hb : forall b, In b (utf8 (c :: k)) -> special b = false).
  { intros b Hin. destruct (special b) eqn:E; [|reflexivity].
    assert (Hlow : b < 128)
      by (unfold special in E; boolean_facts; lia).
    apply utf8_low in Hin; [|exact Hlow].
    rewrite forallb_forall in Hs. apply Hs in Hin.
    rewrite E in Hin. discriminate. }
  split; [apply utf8_nonempty; discriminate|].
  split; [exact Hw|]. split; [exact Hb|].
  unfold decode_string.
  rewrite plus_to_space_id by (intros H; apply Hb in H; discriminate).
  rewrite percent_decode_id by (intros H; apply Hb in H; discriminate).
  now apply utf8_decode_encode.
Qed.

(** The token of a text is read back as the text. *)
Lemma token_bytes (text t : jsstring) :
  forallb code_unit text = true -> URI.encode text = Ok t ->
  utf8 t = t
  /\ well_formed t = true
  /\ ~ In 0x26 t
  /\ decode_string t = text.
Proof.
  intros Hc He.
  pose proof (@encode_chars text Hc t He) as Hp.
  pose proof (@percent_encoded_ascii t Hp) as Ha.
  assert (Hw : well_formed text = true)
    by (apply encode_well_formed; eauto).
  destruct (@scalar_values_well_formed text Hw Hc) as [Hs [Hu He']].
  split; [now apply utf8_ascii|].
  split; [now apply ascii_well_formed|].
  split; [now apply percent_encoded_no|].
  unfold decode_string.
  rewrite plus_to_space_id by now apply percent_encoded_no.
  assert (Ht : t = flat_map token (scalar_values text)) by congruence.
  rewrite Ht, percent_decode_tokens by exact Hs.
  now apply utf8_decode_encode.
Qed.

End Bytes.

(** ** The query string read back *)

Section ReadBack.

Import URLSearchParams.
Local Open Scope N_scope.

Lemma encodeValue_text (v : jsval) :
  encodeValue v = (text <- plain_text v ;; encodeURIComponent text).
Proof.
  destruct v as [| |b|x|[|c s]|l|o| | |]; try reflexivity;
    unfold encodeValue, plain_text;
    destruct (JSON.stringify _); reflexivity.
Qed.

Lemma plain_text_code_units (v : jsval) (text : jsstring) :
  code_units v = true -> plain_text v = Ok text ->
  forallb code_unit text = true.
Proof.
  intros Hu.
  assert (Hs : (t <- JSON.stringify v ;;
                Ok (match t with
                    | Some text => text
                    | None => js "undefined"
                    end)) = Ok text ->
               forallb code_unit text = true).
  { intros H. apply bind_ok in H. destruct H as [p [Hp [= <-]]].
    apply (@serialize_code_units v Hu) in Hp.
    destruct p as [t|]; [exact Hp|reflexivity]. }
  destruct v as [| |b|x|[|c s]|l|o| | |]; unfold plain_text;
    try discriminate; try exact Hs.
  - intros [= <-]. now destruct b.
  - intros [= <-]. apply ascii_code_units, ascii_toString.
  - intros [= <-]. exact Hu.
Qed.

Lemma parse_entries (input : list N) :
  parse input = flat_map entry (split 0x26 input).
Proof. reflexivity. Qed.

Lemma entry_nonempty (bytes : list N) :
  bytes <> [] ->
  entry bytes = [(decode_string (fst (name_value bytes)),
                  decode_string (snd (name_value bytes)))].
Proof.
  destruct bytes as [|b bytes]; [congruence|]. intros _. unfold entry.
  now destruct (name_value (b :: bytes)).
Qed.

(** One item of the query string, as the form parser reads it. *)
Lemma entry_param (kv : jsstring * jsval) (item : jsstring) :
  safe_key (fst kv) = true -> code_units (snd kv) = true ->
  param kv = Ok item ->
  well_formed item = true
  /\ ~ In 0x26 (utf8 item)
  /\ entry (utf8 item) = [(fst kv, param_text (snd kv))].
Proof.
  destruct kv as [k v]. cbn [fst snd]. intros Hk Hc.
  destruct (@safe_key_bytes k Hk) as [Hne [Hw [Hb Hd]]].
  assert (Hn : forall b, special b = true -> ~ In b (utf8 k)).
  { intros b Hs Hin. apply Hb in Hin. congruence. }
  assert (Hbare : item = k -> param_text v = [] ->
                  well_formed item = true
                  /\ ~ In 0x26 (utf8 item)
                  /\ entry (utf8 item) = [(k, param_text v)]).
  { intros -> ->. split; [exact Hw|]. split; [now apply Hn|].
    rewrite entry_nonempty by exact Hne.
    rewrite name_value_bare by now apply Hn.
    cbn [fst snd]. rewrite Hd. reflexivity. }
  assert (He : (e <- encodeValue v ;; Ok (k ++ js "=" ++ e)) = Ok item ->
               v <> VUndefined ->
               well_formed item = true
               /\ ~ In 0x26 (utf8 item)
               /\ entry (utf8 item) = [(k, param_text v)]).
  { intros H Hv. apply bind_ok in H. destruct H as [e [He [= <-]]].
    rewrite encodeValue_text in He. apply bind_ok in He.
    destruct He as [text [Ht He]].
    pose proof (@plain_text_code_units v text Hc Ht) as Hcu.
    destruct (@token_bytes text e Hcu He) as [Hue [Hwe [Hne' Hde]]].
    assert (Hpt : param_text v = text).
    { unfold param_text. rewrite Ht. destruct v; congruence. }
    change (k ++ js "=" ++ e) with (k ++ 0x3D :: e).
    assert (Hu : utf8 (k ++ 0x3D :: e) = utf8 k ++ 0x3D :: e).
    { rewrite utf8_app by exact Hw. f_equal.
      etransitivity; [apply (@utf8_app [0x3D] e); reflexivity|].
      rewrite Hue. reflexivity. }
    unfold jsstring, char in *. split; [|split].
    - apply well_formed_app; [exact Hw|].
      apply (@well_formed_app [0x3D] e); [reflexivity|exact Hwe].
    - rewrite Hu. rewrite in_app_iff. cbn [In].
      intros [H|[H|H]]; [revert H; now apply Hn|discriminate|tauto].
    - rewrite Hu.
      rewrite entry_nonempty
        by (intros E; apply app_eq_nil in E; destruct E; discriminate).
      rewrite name_value_equals by now apply Hn.
      cbn [fst snd]. rewrite Hd, Hde, Hpt. reflexivity. }
  unfold param. destruct v; try (intros H; apply He; [exact H|discriminate]).
  intros [= <-]. now apply Hbare.
Qed.

Lemma utf8_join (items : list jsstring) :
  Forall (fun item => well_formed item = true) items ->
  utf8 (join (js "&") items) = join [0x26] (map utf8 items).
Proof.
  induction 1 as [|x items Hx Hi IH]; [reflexivity|].
  destruct items as [|y items]; [reflexivity|].
  change (join (js "&") (x :: y :: items))
    with (x ++ js "&" ++ join (js "&") (y :: items)).
  change (join [0x26] (map utf8 (x :: y :: items)))
    with (utf8 x ++ [0x26] ++ join [0x26] (map utf8 (y :: items))).
  rewrite utf8_app by exact Hx.
  rewrite (@utf8_app (js "&")) by reflexivity.
  rewrite IH. reflexivity.
Qed.

Lemma of_string_query (items : list jsstring) :
  of_string (match join (js "&") items with
             | [] => []
             | c :: rest => 63 :: c :: rest
             end)
  = parse (utf8 (join (js "&") items)).
Proof.
  destruct (join (js "&") items) as [|c rest]; [reflexivity|].
  unfold of_string.
  rewrite scalar_values_plain by reflexivity.
  rewrite N.eqb_refl. reflexivity.
Qed.

(** [URLSearchParams] on the query string of an object with safe keys:
    the keys, and the texts of the values. *)
Lemma of_string_generated (obj : object) (q : jsstring) :
  forallb (fun kv => safe_key (fst kv)) obj = true ->
  code_units (VObject obj) = true ->
  generateParamStringFromSearchParamObj obj = Ok q ->
  of_string q = search_params obj.
Proof.
  intros Hk Hc [items [Hp ->]]%generateParamString_ok.
  rewrite of_string_query.
  pose proof (@lookup_code_units obj Hc) as Hcu.
  rewrite forallb_forall in Hk.
  assert (H : Forall2 (fun kv item =>
                         well_formed item = true
                         /\ ~ In 0x26 (utf8 item)
                         /\ entry (utf8 item)
                            = [(fst kv, param_text (snd kv))])
                      obj items).
  { clear Hc. induction Hp as [|kv item o ps H Hp IH]; constructor.
    - apply entry_param; [apply Hk; now left|apply Hcu; now left|exact H].
    - apply IH; intros x Hx; [apply Hk|apply Hcu]; now right. }
  clear Hp Hk Hc Hcu.
  destruct items as [|i items]; [inversion H; reflexivity|].
  rewrite utf8_join.
  2:{ clear -H. induction H as [|? ? ? ? [Hw _] _ IH]; constructor;
        assumption. }
  rewrite parse_entries, (@split_join 0x26); [| discriminate |].
  2:{ clear -H. induction H as [|? ? ? ? [_ [Hn _]] _ IH]; constructor;
        assumption. }
  unfold search_params. induction H as [|kv x o xs [_ [_ He]] _ IH];
    [reflexivity|].
  cbn [map flat_map]. rewrite He, IH. reflexivity.
Qed.

End ReadBack.

Lemma multipleKeys_distinct (params : url_params) (acc : query_object) :
  NoDup (map fst params) ->
  (forall k, In k (map fst params) -> ~ In k (Obj.keys acc)) ->
  fold_left multipleKeys_step params acc
  = Obj.spread acc (map_values RString params).
Proof.
  revert acc. induction params as [|[k v] params IH]; intros acc Hd Hk;
    [reflexivity|].
  cbn [map fst] in Hd, Hk. inversion Hd as [|? ? Hnin Hd']; subst.
  assert (Hl : Obj.lookup acc k = None).
  { apply lookup_none. apply Hk. now left. }
  cbn [fold_left map_values map Obj.spread fst snd].
  assert (Hs : multipleKeys_step acc (k, v) = Obj.set acc k (RString v)).
  { unfold multipleKeys_step, query_get. now rewrite Hl. }
  rewrite Hs. apply IH; [exact Hd'|].
  intros k' Hin Hin'. apply keys_set in Hin'. destruct Hin' as [->|Hin'].
  - contradiction.
  - revert Hin'. apply Hk. now right.
Qed.

Lemma map_values_compose (U V W : Type) (f : U -> V) (g : V -> W)
  (o : Obj.props U) :
  map_values g (map_values f o) = map_values (fun u => g (f u)) o.
Proof.
  unfold map_values. rewrite map_map. reflexivity.
Qed.

Lemma search_params_values (obj : object) :
  map_values RString (search_params obj)
  = map_values (fun v => RString (param_text v)) obj.
Proof.
  unfold search_params, map_values. rewrite map_map. reflexivity.
Qed.

Lemma spread_nil_map_values (V W : Type) (g : V -> W) (o : Obj.props V) :
  Obj.spread [] (map_values g o) = map_values g (Obj.spread [] o).
Proof. apply (spread_map_values g [] o). Qed.

Lemma read_back_object (obj : object) :
  property_order obj = true ->
  parseTopLevelObject (handleSearchParamMultipleKeys (search_params obj))
  = Ok (map_values read_back obj).
Proof.
  intros Ho. pose proof (property_order_spread obj Ho) as Hs.
  assert (Hd : NoDup (Obj.keys obj)).
  { rewrite <- Hs. apply NoDup_spread. constructor. }
  assert (Hk : map fst (search_params obj) = Obj.keys obj).
  { unfold search_params, Obj.keys. rewrite map_map. reflexivity. }
  unfold handleSearchParamMultipleKeys.
  rewrite multipleKeys_distinct by (rewrite Hk; auto).
  rewrite search_params_values, spread_nil_map_values, Hs.
  rewrite parseTopLevelObject_map, spread_nil_map_values, Hs.
  rewrite map_values_compose. reflexivity.
Qed.

Lemma query_read_back (obj : object) (q : jsstring) :
  forallb (fun kv => safe_key (fst kv)) obj = true ->
  code_units (VObject obj) = true ->
  property_order obj = true ->
  generateParamStringFromSearchParamObj obj = Ok q ->
  URLSearchParams.of_string q = search_params obj
  /\ parseObjectFromParamString q = Ok (map_values read_back obj)
  /\ read_back VUndefined = VString [].
Proof.
  intros Hk Hc Ho Hq.
  pose proof (of_string_generated obj Hk Hc Hq) as Hs.
  split; [exact Hs|]. split; [|reflexivity].
  unfold parseObjectFromParamString. rewrite Hs.
  now apply read_back_object.
Qed.

(** X16. For an object in property order whose keys are not empty, are
    well formed, hold none of [% & + =] and are not inherited from
    [Object.prototype], [URLSearchParams] finds in the
    query string of the object the keys of the object, each once and in
    order, with the text of the value that [encodeValue] percent-encoded
    (the empty string for [undefined]); so [parseObjectFromParamString]
    returns the object in which every value is replaced by what
    [safeJSONParse] returns for that text: the percent escapes are undone
    by [URLSearchParams], and [safeJSONParse] decodes a second time.  A
    value [undefined] comes back as the empty string. *)
Theorem X16_query_read_back (obj : object) (q : jsstring) :
  forallb (fun kv => safe_key (fst kv)) obj = true ->
  code_units (VObject obj) = true ->
  property_order obj = true ->
  generateParamStringFromSearchParamObj obj = Ok q ->
  URLSearchParams.of_string q = search_params obj
  /\ parseObjectFromParamString q = Ok (map_values read_back obj)
  /\ read_back VUndefined = VString [].
Proof. apply query_read_back. Qed.

Lemma X16_query_read_back_witness :
  URLSearchParams.of_string
    (js "?a=50%2525&b=%5B1%2C%22x%20%26%20y%22%5D&c&d=%25")
  = search_params
      [(js "a", VString (js "50%25"));
       (js "b", VArray [VNumber (Finite false [d1] 0);
                        VString (js "x & y")]);
       (js "c", VUndefined); (js "d", VString (js "%"))]
  /\ parseObjectFromParamString
       (js "?a=50%2525&b=%5B1%2C%22x%20%26%20y%22%5D&c&d=%25")
     = Ok (map_values read_back
             [(js "a", VString (js "50%25"));
              (js "b", VArray [VNumber (Finite false [d1] 0);
                               VString (js "x & y")]);
              (js "c", VUndefined); (js "d", VString (js "%"))])
  /\ read_back VUndefined = VString [].
Proof. apply X16_query_read_back; reflexivity. Defined.

(** ** Texts without percent sign *)

Section NoPercent.

Local Open Scope N_scope.

Lemma no_percent_app (a b : jsstring) :
  no_percent (a ++ b) = no_percent a && no_percent b.
Proof. apply forallb_app. Qed.

Lemma no_percent_digits (ds : list digit) :
  no_percent (digits_string ds) = true.
Proof.
  induction ds as [|d ds IH]; [reflexivity|].
  cbn [digits_string map no_percent forallb]. fold (digits_string ds).
  fold (no_percent (digits_string ds)). rewrite IH. now destruct d.
Qed.

Lemma no_percent_repeat (c : char) (n : nat) :
  c <> 37 -> no_percent (repeat c n) = true.
Proof.
  intros H. induction n as [|n IH]; [reflexivity|].
  cbn [repeat no_percent forallb]. fold (no_percent (repeat c n)).
  rewrite IH. apply N.eqb_neq in H. now rewrite H.
Qed.

Lemma no_percent_toString (x : number) : no_percent (toString x) = true.
Proof.
  assert (He : forall z, no_percent (exponent_string z) = true).
  { intros z. unfold exponent_string.
    rewrite !no_percent_app, no_percent_digits. now destruct (z <? 0)%Z. }
  assert (Hf : forall ds e, no_percent (toString_finite ds e) = true).
  { intros ds e. unfold toString_finite.
    repeat match goal with
           | |- context [if ?b then _ else _] => destruct b
           end;
      rewrite ?no_percent_app, ?no_percent_digits, ?no_percent_repeat
        by discriminate;
      try reflexivity.
    destruct ds as [|d [|d' ds]]; [reflexivity| |];
      rewrite ?no_percent_app, ?no_percent_digits, ?He; reflexivity. }
  destruct x as [|[|]|[|] [|d ds] e]; try reflexivity; cbn [toString];
    rewrite ?no_percent_app, ?Hf; reflexivity.
Qed.

Lemma hex_lower_no_percent (n : N) : JSON.hex_lower n <> 37.
Proof. unfold JSON.hex_lower. destruct (N.ltb_spec n 10); lia. Qed.

Lemma no_percent_unicode_escape (c : char) :
  no_percent (JSON.unicode_escape c) = true.
Proof.
  unfold JSON.unicode_escape, no_percent. cbn [forallb].
  rewrite !andb_true_r.
  repeat (apply andb_true_intro; split); try reflexivity;
    apply negb_true_iff, N.eqb_neq, hex_lower_no_percent.
Qed.

Lemma short_escape_no_percent (c x : char) :
  JSON.short_escape c = Some x -> (x =? 37) = false.
Proof.
  unfold JSON.short_escape.
  repeat match goal with
         | |- context [match ?p with _ => _ end] => destruct p
         end; intros [= <-]; reflexivity.
Qed.

Lemma quote_body_short (c x : char) (rest : jsstring) :
  JSON.short_escape c = Some x ->
  JSON.quote_body (c :: rest) = 92 :: x :: JSON.quote_body rest.
Proof. intros H. cbn [JSON.quote_body]. now rewrite H. Qed.

Lemma quote_body_control (c : char) (rest : jsstring) :
  JSON.short_escape c = None -> (c <? 32) = true ->
  JSON.quote_body (c :: rest)
  = JSON.unicode_escape c ++ JSON.quote_body rest.
Proof. intros H H32. cbn [JSON.quote_body]. now rewrite H, H32. Qed.

Lemma quote_body_unit (c : char) (rest : jsstring) :
  JSON.short_escape c = None -> (c <? 32) = false ->
  is_high_surrogate c = false ->
  JSON.quote_body (c :: rest)
  = if is_low_surrogate c
    then JSON.unicode_escape c ++ JSON.quote_body rest
    else c :: JSON.quote_body rest.
Proof.
  intros H H32 Hh. cbn [JSON.quote_body]. now rewrite H, H32, Hh.
Qed.

Lemma no_percent_cons (c : char) (s : jsstring) :
  no_percent (c :: s) = negb (c =? 37) && no_percent s.
Proof. reflexivity. Qed.

Lemma no_percent_quote_body (s : jsstring) :
  no_percent s = true -> no_percent (JSON.quote_body s) = true.
Proof.
  assert (Hone : forall (c : char) (rest : jsstring),
             negb (c =? 37) = true ->
             is_high_surrogate c = false \/ rest = [] ->
             no_percent (JSON.quote_body rest) = true ->
             no_percent (JSON.quote_body (c :: rest)) = true).
  { intros c rest Hc Hh IH.
    destruct (JSON.short_escape c) as [x|] eqn:Hx.
    { rewrite (@quote_body_short c x rest Hx), !no_percent_cons, IH.
      now rewrite (@short_escape_no_percent c x Hx). }
    destruct (c <? 32) eqn:H32.
    { rewrite quote_body_control by assumption.
      now rewrite no_percent_app, no_percent_unicode_escape, IH. }
    destruct Hh as [Hh| ->].
    - rewrite quote_body_unit by assumption.
      destruct (is_low_surrogate c).
      + now rewrite no_percent_app, no_percent_unicode_escape, IH.
      + now rewrite no_percent_cons, Hc, IH.
    - cbn [JSON.quote_body]. rewrite Hx, H32.
      destruct (is_high_surrogate c);
        [apply no_percent_unicode_escape|].
      destruct (is_low_surrogate c);
        [rewrite app_nil_r; apply no_percent_unicode_escape|].
      now rewrite no_percent_cons, Hc. }
  induction s as [|c|c d s IH1 IH2] using list_ind2.
  - reflexivity.
  - rewrite no_percent_cons. intros [Hc _]%andb_prop.
    apply Hone; [exact Hc|now right|reflexivity].
  - rewrite no_percent_cons. intros [Hc Hds]%andb_prop.
    pose proof Hds as Hds'. rewrite no_percent_cons in Hds'.
    apply andb_prop in Hds'. destruct Hds' as [Hd Hss].
    specialize (IH1 Hss). specialize (IH2 Hds).
    destruct (is_high_surrogate c) eqn:Hh;
      [|apply Hone; [exact Hc|now left|exact IH2]].
    destruct (JSON.short_escape c) as [x|] eqn:Hx.
    { rewrite (@quote_body_short c x (d :: s) Hx), !no_percent_cons, IH2.
      now rewrite (@short_escape_no_percent c x Hx). }
    destruct (c <? 32) eqn:H32.
    { rewrite quote_body_control by assumption.
      now rewrite no_percent_app, no_percent_unicode_escape, IH2. }
    rewrite quote_body_high by assumption.
    destruct (is_low_surrogate d).
    + now rewrite !no_percent_cons, Hc, Hd, IH1.
    + now rewrite no_percent_app, no_percent_unicode_escape, IH2.
Qed.

Lemma no_percent_quote (s : jsstring) :
  no_percent s = true -> no_percent (JSON.quote s) = true.
Proof.
  intros H. unfold JSON.quote.
  change (no_percent (34 :: JSON.quote_body s ++ [34]))
    with (negb (34 =? 37) && no_percent (JSON.quote_body s ++ [34]))%bool.
  rewrite no_percent_app, no_percent_quote_body by assumption. reflexivity.
Qed.

Lemma no_percent_join (sep : jsstring) (l : list jsstring) :
  no_percent sep = true ->
  forallb no_percent l = true ->
  no_percent (join sep l) = true.
Proof.
  intros Hsep. induction l as [|x l IH]; [reflexivity|].
  cbn [forallb]. intros [Hx Hl]%andb_prop. cbn [join].
  destruct l as [|y l]; [exact Hx|].
  rewrite !no_percent_app, Hx, Hsep, IH by assumption. reflexivity.
Qed.

Lemma serialize_no_percent (v : jsval) :
  percent_free v = true ->
  forall p, JSON.serialize v = Ok p -> no_percent (JSON.or_null p) = true.
Proof.
  induction v as [| |b|x|s|l IH|o IH| | |] using jsval_ind; intros Hu p;
    try (intros [= <-]; reflexivity); try discriminate.
  - destruct b; intros [= <-]; reflexivity.
  - intros [= <-]. cbn [JSON.or_null].
    destruct (isFinite x); [|reflexivity].
    apply no_percent_toString.
  - intros [= <-]. now apply no_percent_quote.
  - cbn [percent_free] in Hu. cbn [JSON.serialize].
    intros H. apply bind_ok in H. destruct H as [parts [Hparts [= <-]]].
    cbn [JSON.or_null].
    rewrite no_percent_cons, no_percent_app.
    apply andb_true_intro. split; [reflexivity|].
    apply andb_true_intro. split; [|reflexivity].
    apply no_percent_join; [reflexivity|].
    revert parts Hparts.
    induction IH as [|x l Hx _ IHl]; intros parts; [now intros [= <-]|].
    cbn [forallb] in Hu. apply andb_prop in Hu. destruct Hu as [Hux Hul].
    intros H. cbn -[bind JSON.serialize JSON.or_null JSON.quote] in H.
    apply bind_ok in H. destruct H as [q [Hq H]].
    apply bind_ok in H. destruct H as [qs [Hqs [= <-]]].
    cbn [forallb]. now rewrite (Hx Hux q Hq), (IHl Hul qs Hqs).
  - cbn [percent_free] in Hu. cbn [JSON.serialize].
    intros H. apply bind_ok in H. destruct H as [parts [Hparts [= <-]]].
    cbn [JSON.or_null].
    rewrite no_percent_cons, no_percent_app.
    apply andb_true_intro. split; [reflexivity|].
    apply andb_true_intro. split; [|reflexivity].
    apply no_percent_join; [reflexivity|].
    revert parts Hparts.
    induction IH as [|[k x] o Hx _ IHo]; intros parts; [now intros [= <-]|].
    cbn [forallb fst snd] in Hu, Hx.
    apply andb_prop in Hu. destruct Hu as [Hu Huo].
    apply andb_prop in Hu. destruct Hu as [Huk Hux].
    intros H. cbn -[bind JSON.serialize JSON.or_null JSON.quote] in H.
    apply bind_ok in H. destruct H as [q [Hq H]].
    apply bind_ok in H. destruct H as [qs [Hqs [= <-]]].
    specialize (Hx Hux q Hq). specialize (IHo Huo qs Hqs).
    destruct q as [t|]; [|exact IHo]. cbn [forallb].
    rewrite IHo, no_percent_cons, !no_percent_app, no_percent_quote_body
      by assumption.
    cbn [JSON.or_null] in Hx. rewrite !no_percent_cons, Hx. reflexivity.
Qed.

(** The text of a value in which no string holds a percent sign holds
    none. *)
Lemma plain_text_no_percent (v : jsval) (text : jsstring) :
  percent_free v = true -> plain_text v = Ok text ->
  no_percent text = true.
Proof.
  intros Hu.
  assert (Hs : (t <- JSON.stringify v ;;
                Ok (match t with
                    | Some text => text
                    | None => js "undefined"
                    end)) = Ok text ->
               no_percent text = true).
  { intros H. apply bind_ok in H. destruct H as [p [Hp [= <-]]].
    apply (serialize_no_percent v Hu) in Hp.
    destruct p as [t|]; [exact Hp|reflexivity]. }
  destruct v as [| |b|x|[|c s]|l|o| | |]; unfold plain_text;
    try discriminate; try exact Hs.
  - intros [= <-]. now destruct b.
  - intros [= <-]. apply no_percent_toString.
  - intros [= <-]. exact Hu.
Qed.

End NoPercent.

(** ** The round trip through the query string *)

Lemma items_plain (s : jsstring) :
  no_percent s = true -> items s = Ok (map Lit s).
Proof.
  induction s as [|c s IH]; [reflexivity|].
  cbn [no_percent forallb]. intros [Hc Hs]%andb_prop.
  apply negb_true_iff in Hc.
  cbn [items map]. rewrite Hc, (IH Hs). reflexivity.
Qed.

Lemma assemble_plain (s : jsstring) : assemble (map Lit s) = Ok s.
Proof.
  induction s as [|c s IH]; [reflexivity|].
  cbn [map assemble]. rewrite IH. reflexivity.
Qed.

Lemma decodeURIComponent_plain (s : jsstring) :
  no_percent s = true -> decodeURIComponent s = Ok s.
Proof.
  intros H. unfold decodeURIComponent. rewrite (items_plain s H).
  cbn [bind]. apply assemble_plain.
Qed.

Lemma plain_text_parse (v : jsval) :
  json_compatible v = true ->
  match v with VString _ => False | _ => True end ->
  exists text, plain_text v = Ok text /\ JSON.parse text = Ok v.
Proof.
  intros Hc Hns. destruct (parse_stringify v Hc) as [text [Hs Hp]].
  exists text. split; [|exact Hp].
  destruct v as [| |b|x|s|l|o| | |]; try discriminate; try tauto;
    unfold plain_text; rewrite ?Hs; try reflexivity.
  - destruct b; injection Hs as <-; reflexivity.
  - unfold JSON.stringify in Hs. cbn [JSON.serialize] in Hs.
    assert (Hfin : isFinite x = true) by (destruct x; easy).
    rewrite Hfin in Hs. injection Hs as <-. reflexivity.
Qed.

Lemma round_trips_read_back (v : jsval) :
  round_trips v = true -> read_back v = v.
Proof.
  unfold round_trips. intros [Hc H]%andb_prop.
  assert (Hn : match v with VString _ => False | _ => True end ->
               percent_free v = true -> read_back v = v).
  { intros Hns Hp. destruct (plain_text_parse v Hc Hns) as [text [Ht Hparse]].
    assert (Hpt : param_text v = text).
    { unfold param_text. rewrite Ht. destruct v; try reflexivity.
      discriminate. }
    apply (@plain_text_no_percent v text) in Hp; [|exact Ht].
    unfold read_back, parsed, parseOrMapParse. rewrite Hpt.
    rewrite safeJSONParse_cases, (decodeURIComponent_plain text Hp), Hparse.
    reflexivity. }
  destruct v as [| |b|x|[|c s]|l|o| | |]; try discriminate;
    try (apply Hn; [exact I|exact H]).
  apply andb_prop in H. destruct H as [_ H].
  unfold read_back, parsed, parseOrMapParse, param_text, plain_text.
  rewrite safeJSONParse_cases.
  destruct (decodeURIComponent (c :: s)) as [text|e]; [|reflexivity].
  cbn [bind] in H. destruct (JSON.parse text); [discriminate|reflexivity].
Qed.

Lemma round_trips_encodes (v : jsval) :
  round_trips v = true ->
  code_units v = true /\ v <> VUndefined /\ exists t, encodeValue v = Ok t.
Proof.
  unfold round_trips. intros [Hc H]%andb_prop.
  destruct (json_compatible_plain v Hc) as [Hu Hb].
  split; [exact Hu|]. split; [intros ->; discriminate|].
  destruct v as [| |b|x|[|c s]|l|o| | |]; try discriminate;
    try (destruct (@round_trip_value _ Hc I) as [t [Ht _]]; eauto).
  apply andb_prop in H. destruct H as [Hw _].
  destruct (@round_trip_string (c :: s)) as [t [Ht _]];
    [discriminate|exact Hw|exact Hc|eauto].
Qed.

(** X17. An object in property order whose keys are not empty, are well
    formed, hold none of [% & + =] and are not inherited from
    [Object.prototype] comes back from its query string as it is, when
    each of its values is a JSON-compatible value other than a string in
    which no string holds a percent sign, or a non-empty well-formed string
    that is not, once percent-decoded, a JSON text:
    [generateParamStringFromSearchParamObj] returns a query string and
    [parseObjectFromParamString] gives the object back. *)
Theorem X17_query_round_trip (obj : object) :
  forallb (fun kv => safe_key (fst kv)) obj = true ->
  forallb (fun kv => round_trips (snd kv)) obj = true ->
  property_order obj = true ->
  exists q,
    generateParamStringFromSearchParamObj obj = Ok q
    /\ parseObjectFromParamString q = Ok obj.
Proof.
  intros Hk Hr Ho.
  assert (Hc : code_units (VObject obj) = true).
  { cbn [code_units]. rewrite forallb_forall in *. intros kv Hin.
    specialize (Hk kv Hin). specialize (Hr kv Hin). cbv beta in Hk, Hr.
    apply round_trips_encodes in Hr. destruct Hr as [Hu _].
    apply andb_true_intro. split; [|exact Hu].
    destruct kv as [[|c k] v]; cbn [fst snd safe_key] in *; [discriminate|].
    apply andb_prop in Hk. destruct Hk as [Hk _].
    apply andb_prop in Hk. destruct Hk as [Hk _].
    apply andb_prop in Hk. destruct Hk as [_ Hk]. exact Hk. }
  assert (Hq : exists q, generateParamStringFromSearchParamObj obj = Ok q).
  { unfold generateParamStringFromSearchParamObj.
    destruct (@mapM_total _ _ param obj) as [items [Hi _]].
    - intros [k v] Hin. rewrite forallb_forall in Hr.
      specialize (Hr (k, v) Hin). cbn [snd] in Hr.
      apply round_trips_encodes in Hr. destruct Hr as [_ [_ [t Ht]]].
      apply param_ok. right. cbn [snd]. eauto.
    - rewrite Hi. cbn [bind]. eauto. }
  destruct Hq as [q Hq]. exists q. split; [exact Hq|].
  destruct (@query_read_back obj q Hk Hc Ho Hq) as [_ [-> _]].
  f_equal. unfold map_values. rewrite forallb_forall in Hr.
  clear -Hr. induction obj as [|[k v] obj IH]; [reflexivity|].
  cbn [map fst snd]. rewrite (@round_trips_read_back v).
  - f_equal. apply IH. intros kv Hin. apply Hr. now right.
  - apply (Hr (k, v)). now left.
Qed.

Lemma X17_query_round_trip_witness :
  exists q,
    generateParamStringFromSearchParamObj
      [(js "page", VNumber (Finite false [d2] 0));
       (js "q", VString (js "caf" ++ [233%N; 0xD83D%N; 0xDE00%N]
                         ++ js " & 100%"));
       (js "filter",
        VObject [(js "tags", VArray [VString (js "a b"); VNull; VBool true]);
                 (js "max", VNumber (Finite true [d1; d5] (-1)))])]
    = Ok q
    /\ parseObjectFromParamString q
       = Ok [(js "page", VNumber (Finite false [d2] 0));
             (js "q", VString (js "caf" ++ [233%N; 0xD83D%N; 0xDE00%N]
                               ++ js " & 100%"));
             (js "filter",
              VObject [(js "tags",
                        VArray [VString (js "a b"); VNull; VBool true]);
                       (js "max", VNumber (Finite true [d1; d5] (-1)))])].
Proof. apply X17_query_round_trip; reflexivity. Defined.
